(** * The Veed operation queue (veed-queue.js): model and verified properties

    The class [VeedQueue] fronts a single browser session with an in-memory
    FIFO job queue.  Its methods run on the JavaScript event loop: a method
    body runs without interruption until it reaches an [await], and
    continuations of settled promises run before the next timer or request
    callback.  The model therefore has one transition per uninterrupted
    segment of code:

    - the request handlers ([enqueue], [getStatus], [cancel],
      [initializeService]) and the reaper tick ([cleanupOldOperations]);
    - the resumptions of the suspended [processQueue] activation (after
      [initVeedService()] settled, after a 100 ms poll sleep, after the
      race in [executeWithTimeout] settled);
    - the resumption of [executeOperation] after [getVeedService()].

    Values that come from the environment are inputs of a transition: the
    reading of [Date.now()] (one reading per segment), the string returned
    by [crypto.randomUUID()], the outcome of the executor.  The source
    reads the clock anew at each of its calls of [Date.now()]; the model
    gives the calls made within one segment (lines 88, 89 and 222 of an
    [enqueue] that starts its operation at once, line 205 for each record
    failed with the service) the same reading, so the statements below
    relate a timestamp to the reading of its segment and never two
    timestamps written in the same segment to each other. *)

From Stdlib Require Import ZArith List Lia.
From stdpp Require Import gmap strings list fin_maps pretty sorting.

Open Scope Z_scope.

(** ** Data model *)

(** [OperationStatus] (lines 5-10). *)
Inductive OperationStatus := QUEUED | PROCESSING | COMPLETED | FAILED.

#[global] Instance OperationStatus_eq_dec : EqDecision OperationStatus.
Proof. solve_decision. Defined.

(** The string each status stands for in the source. *)
Definition status_string (st : OperationStatus) : string :=
  match st with
  | QUEUED => "queued"
  | PROCESSING => "processing"
  | COMPLETED => "completed"
  | FAILED => "failed"
  end.

(** Operation identifiers are the strings minted by [crypto.randomUUID()]. *)
Abbreviation Id := string.

(** The options bag built by the HTTP handler. *)
Record Options := mkOptions {
  aspectRatio : option string;
  duration : option string;
}.

(** What [service.generateVideo] resolves to; the queue only stores it. *)
Record VideoResult := mkVideoResult {
  videoUrl : string;
  localPath : option string;
}.

(** The operation object built by [enqueue] (lines 82-94). *)
Record Operation := mkOperation {
  op_id : Id;
  status : OperationStatus;
  imageUrl : string;
  prompt : string;
  options : Options;
  createdAt : Z;
  updatedAt : Z;
  position : Z;
  result : option VideoResult;
  error : option string;
  progress : option string;
}.

(** Assignments to fields of an operation object. *)
Definition set_status (st : OperationStatus) (op : Operation) : Operation :=
  mkOperation (op_id op) st (imageUrl op) (prompt op) (options op)
    (createdAt op) (updatedAt op) (position op) (result op) (error op)
    (progress op).

Definition set_updatedAt (t : Z) (op : Operation) : Operation :=
  mkOperation (op_id op) (status op) (imageUrl op) (prompt op) (options op)
    (createdAt op) t (position op) (result op) (error op) (progress op).

Definition set_result (r : VideoResult) (op : Operation) : Operation :=
  mkOperation (op_id op) (status op) (imageUrl op) (prompt op) (options op)
    (createdAt op) (updatedAt op) (position op) (Some r) (error op)
    (progress op).

Definition set_error (msg : string) (op : Operation) : Operation :=
  mkOperation (op_id op) (status op) (imageUrl op) (prompt op) (options op)
    (createdAt op) (updatedAt op) (position op) (result op) (Some msg)
    (progress op).

Definition set_progress (p : string) (op : Operation) : Operation :=
  mkOperation (op_id op) (status op) (imageUrl op) (prompt op) (options op)
    (createdAt op) (updatedAt op) (position op) (result op) (error op)
    (Some p).

(** Where [executeOperation] is suspended: at [await getVeedService()]
    (line 261) or at [await service.generateVideo(...)] (line 271). *)
Inductive ExecPhase := AwaitService | AwaitGenerate.

(** Where the one activation of [processQueue] that holds [isProcessing]
    is suspended. *)
Inductive Await :=
  | AwaitInit                (* line 62, reached from line 196 *)
  | AwaitInitPoll            (* line 49, reached from line 196 *)
  | AwaitExec (opId : Id).   (* line 227 *)

#[global] Instance Await_eq_dec : EqDecision Await.
Proof. solve_decision. Defined.

(** The fields of the [VeedQueue] object that change (lines 13-42),
    followed by the state of the run time that the claims depend on: the
    suspended [processQueue] activation, the [executeOperation] calls that
    have not settled, and the pending timers of [executeWithTimeout].
    An operation is shifted from the queue at most once, so executions and
    timers are keyed by operation identifier. *)
Record VeedQueue := mkVeedQueue {
  operations : gmap string Operation;
  queue : list Id;
  currentOperation : option Id;
  isProcessing : bool;
  serviceReady : bool;
  serviceInitializing : bool;
  drain : option Await;
  executions : gmap string ExecPhase;
  timers : gmap string Z;
}.

(** The constants set by the constructor. *)
Definition maxConcurrent : Z := 1.
Definition operationTimeout : Z := 300000.
Definition maxQueueSize : Z := 10.
Definition operationTTL : Z := 30 * 60 * 1000.
Definition cleanupPeriod : Z := 60000.

(** [new VeedQueue()]. *)
Definition init : VeedQueue :=
  mkVeedQueue ∅ [] None false false false None ∅ ∅.

(** Assignments to fields of the queue object. *)
Definition set_operations (m : gmap string Operation) (q : VeedQueue) : VeedQueue :=
  mkVeedQueue m (queue q) (currentOperation q) (isProcessing q)
    (serviceReady q) (serviceInitializing q) (drain q) (executions q)
    (timers q).

Definition set_queue (l : list Id) (q : VeedQueue) : VeedQueue :=
  mkVeedQueue (operations q) l (currentOperation q) (isProcessing q)
    (serviceReady q) (serviceInitializing q) (drain q) (executions q)
    (timers q).

Definition set_currentOperation (c : option Id) (q : VeedQueue) : VeedQueue :=
  mkVeedQueue (operations q) (queue q) c (isProcessing q)
    (serviceReady q) (serviceInitializing q) (drain q) (executions q)
    (timers q).

Definition set_isProcessing (b : bool) (q : VeedQueue) : VeedQueue :=
  mkVeedQueue (operations q) (queue q) (currentOperation q) b
    (serviceReady q) (serviceInitializing q) (drain q) (executions q)
    (timers q).

Definition set_serviceReady (b : bool) (q : VeedQueue) : VeedQueue :=
  mkVeedQueue (operations q) (queue q) (currentOperation q) (isProcessing q)
    b (serviceInitializing q) (drain q) (executions q) (timers q).

Definition set_serviceInitializing (b : bool) (q : VeedQueue) : VeedQueue :=
  mkVeedQueue (operations q) (queue q) (currentOperation q) (isProcessing q)
    (serviceReady q) b (drain q) (executions q) (timers q).

Definition set_drain (d : option Await) (q : VeedQueue) : VeedQueue :=
  mkVeedQueue (operations q) (queue q) (currentOperation q) (isProcessing q)
    (serviceReady q) (serviceInitializing q) d (executions q) (timers q).

Definition set_executions (e : gmap string ExecPhase) (q : VeedQueue) : VeedQueue :=
  mkVeedQueue (operations q) (queue q) (currentOperation q) (isProcessing q)
    (serviceReady q) (serviceInitializing q) (drain q) e (timers q).

Definition set_timers (t : gmap string Z) (q : VeedQueue) : VeedQueue :=
  mkVeedQueue (operations q) (queue q) (currentOperation q) (isProcessing q)
    (serviceReady q) (serviceInitializing q) (drain q) (executions q) t.

(** A method that holds a reference to an operation object assigns to its
    fields whether or not the object is still in [this.operations].  Every
    identifier is minted once, so the object a method holds for [opId] is
    the one stored under [opId] as long as one is stored there, and an
    assignment to an object that was deleted from the map is not
    observable: the assignment is an [alter] at [opId]. *)
Definition mutate (f : Operation → Operation) (opId : Id) (q : VeedQueue) : VeedQueue :=
  set_operations (alter f opId (operations q)) q.

(** ** The scheduler loop: [processQueue] (lines 186-246) *)

(** The error strings of the source. *)
Definition msg_unavailable : string := "Veed service not available".
Definition msg_timeout : string := "Operation timed out".
Definition msg_cancelled : string := "Cancelled by user".
Definition msg_not_found : string := "Operation not found".
Definition msg_starting : string := "Starting video generation...".

(** Lines 203-205 and 235-237: the three assignments that fail a record. *)
Definition fail_with (msg : string) (now : Z) (op : Operation) : Operation :=
  set_updatedAt now (set_error msg (set_status FAILED op)).

(** Lines 229-231. *)
Definition complete_with (r : VideoResult) (now : Z) (op : Operation) : Operation :=
  set_updatedAt now (set_result r (set_status COMPLETED op)).

(** Lines 221-222. *)
Definition mark_processing (now : Z) (op : Operation) : Operation :=
  set_updatedAt now (set_status PROCESSING op).

(** Lines 265-266, the [updateProgress] closure. *)
Definition updateProgress (p : string) (now : Z) (op : Operation) : Operation :=
  set_updatedAt now (set_progress p op).

(** Leaving the [while] loop (line 245). *)
Definition finishLoop (q : VeedQueue) : VeedQueue :=
  set_drain None (set_isProcessing false q).

(** Lines 198-209: readiness failed; every identifier in the queue whose
    record exists is failed, the queue is replaced by the empty array, and
    the loop is left by [break]. *)
Definition failAll (now : Z) (q : VeedQueue) : VeedQueue :=
  finishLoop
    (set_queue []
       (set_operations
          (foldl (λ m opId, alter (fail_with msg_unavailable now) opId m)
                 (operations q) (queue q))
          q)).

(** [initializeService()] up to its first [await] (lines 45-62): the
    caller joins the poll loop of line 48, or gets [true] at once (line
    55), or starts [initVeedService()] and awaits it (line 62). *)
Inductive InitCall := InitPolls | InitReturnsTrue | InitAwaits.

Definition initializeService (q : VeedQueue) : InitCall * VeedQueue :=
  if serviceInitializing q then (InitPolls, q)
  else if serviceReady q then (InitReturnsTrue, q)
  else (InitAwaits, set_serviceInitializing true q).

(** Lines 220-227 with 249-261: the record is marked, the timer of
    [executeWithTimeout] is armed, [executeOperation] starts and suspends
    at [await getVeedService()], and [processQueue] suspends on the race. *)
Definition startExecution (now : Z) (opId : Id) (rest : list Id) (q : VeedQueue) : VeedQueue :=
  set_drain (Some (AwaitExec opId))
    (set_executions (<[opId := AwaitService]> (executions q))
       (set_timers (<[opId := now + operationTimeout]> (timers q))
          (mutate (mark_processing now) opId
             (set_currentOperation (Some opId) (set_queue rest q))))).

(** The [while] loop from its head (line 193) with [this.queue = pending],
    run until the activation suspends or returns.  [skipGate] is true when
    the loop body is entered below the readiness block (at line 213, after
    [initializeService] returned true).  Every iteration that does not
    suspend or leave shifts the queue, so the recursion is on the queue. *)
Fixpoint processLoop (now : Z) (skipGate : bool) (pending : list Id) (q : VeedQueue) : VeedQueue :=
  match pending with
  | [] =>
      (* line 193 fails; or line 213 shifted [undefined], line 216 continues *)
      finishLoop q
  | opId :: rest =>
      let run :=
        match operations q !! opId with
        | None => processLoop now false rest (set_queue rest q)   (* line 217 *)
        | Some _ => startExecution now opId rest q
        end in
      if skipGate then run
      else if serviceReady q then run
      else match initializeService q with       (* line 196 *)
           | (InitPolls, q') => set_drain (Some AwaitInitPoll) q'
           | (InitAwaits, q') => set_drain (Some AwaitInit) q'
           | (InitReturnsTrue, _) => run
           end
  end.

(** [processQueue()] (lines 186-191). *)
Definition processQueue (now : Z) (q : VeedQueue) : VeedQueue :=
  if isProcessing q then q
  else processLoop now false (queue q) (set_isProcessing true q).

(** Line 196 resumed with the value [ready] of [initializeService()]. *)
Definition resumeAfterInit (now : Z) (ready : bool) (q : VeedQueue) : VeedQueue :=
  if ready then processLoop now true (queue q) q
  else failAll now q.

(** Lines 229-242 resumed with the executor's result, then the loop head. *)
Definition resumeCompleted (now : Z) (opId : Id) (r : VideoResult) (q : VeedQueue) : VeedQueue :=
  let q1 := set_currentOperation None (mutate (complete_with r now) opId q) in
  processLoop now false (queue q1) q1.

(** Lines 234-242 resumed with a rejection (executor error or timeout),
    then the loop head. *)
Definition resumeFailed (now : Z) (opId : Id) (msg : string) (q : VeedQueue) : VeedQueue :=
  let q1 := set_currentOperation None (mutate (fail_with msg now) opId q) in
  processLoop now false (queue q1) q1.

(** ** The request handlers *)

(** A call either returns a value or throws an [Error] with a message. *)
Inductive Outcome (A : Type) :=
  | Returned (a : A)
  | Thrown (msg : string).
Arguments Returned {A} a.
Arguments Thrown {A} msg.

(** The object returned by [enqueue] (lines 104-109). *)
Record EnqueueReply := mkEnqueueReply {
  r_operationId : Id;
  r_status : OperationStatus;
  r_position : Z;
  r_queueLength : Z;
}.

(** Line 76.  [this.currentOperation ? 1 : 0]: an identifier is a
    non-empty string, hence truthy; [null] is falsy. *)
Definition pendingCount (q : VeedQueue) : Z :=
  Z.of_nat (length (queue q)) +
  match currentOperation q with Some _ => 1 | None => 0 end.

(** Line 78. *)
Definition msg_full : string :=
  "Queue is full. Maximum " +:+ pretty maxQueueSize +:+
  " pending operations allowed.".

(** Lines 81-97: the record is built, stored and its identifier pushed. *)
Definition newOperation (now : Z) (uuid : Id) (image text : string) (opts : Options) (q : VeedQueue) : Operation :=
  mkOperation uuid QUEUED image text opts now now
    (Z.of_nat (length (queue q)) + 1) None None None.

Definition admit_operation (now : Z) (uuid : Id) (image text : string) (opts : Options) (q : VeedQueue) : VeedQueue :=
  set_queue (queue q ++ [uuid])
    (set_operations
       (<[uuid := newOperation now uuid image text opts q]> (operations q)) q).

(** [enqueue(imageUrl, prompt, options)] (lines 74-110), with [uuid] the
    value [crypto.randomUUID()] returns when it is called.  The function
    has no [await]: [processQueue()] is called, runs to its first
    suspension and the reply is built from what it left behind
    ([operation.status] and [this.queue.length] are read at lines 106 and
    108, after line 102). *)
Definition enqueue (now : Z) (uuid : Id) (image text : string) (opts : Options) (q : VeedQueue) : Outcome EnqueueReply * VeedQueue :=
  if bool_decide (maxQueueSize ≤ pendingCount q) then (Thrown msg_full, q)
  else
    let q1 := admit_operation now uuid image text opts q in
    let q2 := processQueue now q1 in
    (Returned
       (mkEnqueueReply uuid
          (default QUEUED (status <$> operations q2 !! uuid))
          (Z.of_nat (length (queue q)) + 1)
          (Z.of_nat (length (queue q2)))),
     q2).

(** [Array.prototype.indexOf]: the first index holding [x], or -1. *)
Definition indexOf (x : Id) (l : list Id) : Z :=
  match list_find (λ y, y = x) l with
  | Some (i, _) => Z.of_nat i
  | None => -1
  end.

(** The object returned by [getStatus] (lines 125-135). *)
Record Snapshot := mkSnapshot {
  s_operationId : Id;
  s_status : OperationStatus;
  s_position : option Z;
  s_queueLength : Z;
  s_progress : option string;
  s_createdAt : Z;
  s_updatedAt : Z;
  s_result : option VideoResult;
  s_error : option string;
}.

(** [getStatus(operationId)] (lines 113-136); [None] is [null]. *)
Definition getStatus (opId : Id) (q : VeedQueue) : option Snapshot :=
  match operations q !! opId with
  | None => None
  | Some operation =>
      let pos :=
        if decide (status operation = QUEUED)
        then Some (indexOf opId (queue q) + 1)
        else None in
      Some (mkSnapshot (op_id operation) (status operation) pos
              (Z.of_nat (length (queue q))) (progress operation)
              (createdAt operation) (updatedAt operation)
              (result operation) (error operation))
  end.

(** The object returned by [cancel]. *)
Record CancelReply := mkCancelReply {
  success : bool;
  c_error : option string;
}.

(** Line 167. *)
Definition msg_cannot_cancel (st : OperationStatus) : string :=
  "Cannot cancel operation in " +:+ status_string st +:+ " status".

(** Lines 171-174: the array after [splice(index, 1)] at the index of
    [opId], when it has one. *)
Definition splice_out (opId : Id) (l : list Id) : list Id :=
  let index := indexOf opId l in
  if bool_decide (-1 < index) then delete (Z.to_nat index) l else l.

(** [cancel(operationId)] (lines 160-183). *)
Definition cancel (now : Z) (opId : Id) (q : VeedQueue) : CancelReply * VeedQueue :=
  match operations q !! opId with
  | None => (mkCancelReply false (Some msg_not_found), q)
  | Some operation =>
      if decide (status operation = QUEUED) then
        (mkCancelReply true None,
         mutate (fail_with msg_cancelled now) opId
           (set_queue (splice_out opId (queue q)) q))
      else
        (mkCancelReply false (Some (msg_cannot_cancel (status operation))), q)
  end.

(** The test of lines 286-289. *)
Definition expired (now : Z) (op : Operation) : bool :=
  (bool_decide (status op = COMPLETED) || bool_decide (status op = FAILED))
  && bool_decide (operationTTL < now - updatedAt op).

(** [cleanupOldOperations()] (lines 281-302): the identifiers to delete
    are collected first, then deleted. *)
Definition toDelete (now : Z) (q : VeedQueue) : list Id :=
  (map_to_list (filter (λ kv, expired now kv.2 = true) (operations q))).*1.

Definition cleanupOldOperations (now : Z) (q : VeedQueue) : VeedQueue :=
  set_operations (foldr delete (operations q) (toDelete now q)) q.

(** ** Transitions *)

(** What the environment does to the queue object. *)
Inductive Event :=
  | CallEnqueue (uuid : Id) (image text : string) (opts : Options)
  | CallGetStatus (opId : Id)
  | CallCancel (opId : Id)
  | CallInitializeService         (* the handler of POST /api/veed/init *)
  | InitSettled (ok : bool)       (* [initVeedService()] resolved to a truthy
                                     value, or resolved falsy / rejected *)
  | PollWake                      (* the sleep of line 49 elapsed *)
  | ServiceObtained (opId : Id)   (* [getVeedService()] of line 261 resolved *)
  | ExecResolved (opId : Id) (r : VideoResult)
  | ExecRejected (opId : Id) (msg : string)
  | TimerFired (opId : Id)        (* the timer of line 251 *)
  | CleanupTick.                  (* the interval of line 40 *)

(** Lines 62-70 once [initVeedService()] settled; when the awaiting caller
    is [processQueue], it resumes at line 196 with the returned flag. *)
Definition initSettled (now : Z) (ok : bool) (q : VeedQueue) : VeedQueue :=
  let q1 := set_serviceInitializing false (set_serviceReady ok q) in
  if decide (drain q = Some AwaitInit)
  then resumeAfterInit now (serviceReady q1) q1
  else q1.

(** Lines 48-51 in the call made by [processQueue]. *)
Definition pollWake (now : Z) (q : VeedQueue) : VeedQueue :=
  if serviceInitializing q then q
  else resumeAfterInit now (serviceReady q) q.

(** Lines 264-271 of the [executeOperation] call for [opId]. *)
Definition serviceObtained (now : Z) (opId : Id) (q : VeedQueue) : VeedQueue :=
  set_executions (<[opId := AwaitGenerate]> (executions q))
    (mutate (updateProgress msg_starting now) opId q).

(** The promise of [executeOperation] for [opId] settles.  It decides the
    race of line 256 when [processQueue] still awaits it; otherwise the
    race was decided by the timer and the settlement has no continuation. *)
Definition execResolved (now : Z) (opId : Id) (r : VideoResult) (q : VeedQueue) : VeedQueue :=
  let q1 := set_executions (delete opId (executions q)) q in
  if decide (drain q = Some (AwaitExec opId))
  then resumeCompleted now opId r q1
  else q1.

Definition execRejected (now : Z) (opId : Id) (msg : string) (q : VeedQueue) : VeedQueue :=
  let q1 := set_executions (delete opId (executions q)) q in
  if decide (drain q = Some (AwaitExec opId))
  then resumeFailed now opId msg q1
  else q1.

(** The timer of line 251 rejects [timeoutPromise]; this decides the race
    when [processQueue] still awaits it.  The [executeOperation] call is
    not interrupted and stays among the executions. *)
Definition timerFired (now : Z) (opId : Id) (q : VeedQueue) : VeedQueue :=
  let q1 := set_timers (delete opId (timers q)) q in
  if decide (drain q = Some (AwaitExec opId))
  then resumeFailed now opId msg_timeout q1
  else q1.

(** One transition at clock reading [now]; [None] when the event cannot
    happen in [q] (no such activation is suspended, no such timer is due). *)
Definition step (now : Z) (ev : Event) (q : VeedQueue) : option VeedQueue :=
  match ev with
  | CallEnqueue uuid image text opts =>
      Some (enqueue now uuid image text opts q).2
  | CallGetStatus _ => Some q
  | CallCancel opId => Some (cancel now opId q).2
  | CallInitializeService => Some (initializeService q).2
  | InitSettled ok =>
      if serviceInitializing q then Some (initSettled now ok q) else None
  | PollWake =>
      if decide (drain q = Some AwaitInitPoll) then Some (pollWake now q)
      else None
  | ServiceObtained opId =>
      match executions q !! opId with
      | Some AwaitService => Some (serviceObtained now opId q)
      | _ => None
      end
  | ExecResolved opId r =>
      match executions q !! opId with
      | Some AwaitGenerate => Some (execResolved now opId r q)
      | _ => None
      end
  | ExecRejected opId msg =>
      match executions q !! opId with
      | Some _ => Some (execRejected now opId msg q)
      | None => None
      end
  | TimerFired opId =>
      match timers q !! opId with
      | Some due =>
          if bool_decide (due ≤ now) then Some (timerFired now opId q)
          else None
      | None => None
      end
  | CleanupTick => Some (cleanupOldOperations now q)
  end.

(** ** Executions *)

(** A transition that was taken, with the states before and after it. *)
Record Transition := mkTransition {
  t_now : Z;
  t_ev : Event;
  t_pre : VeedQueue;
  t_post : VeedQueue;
}.

(** The identifier a call of [enqueue] hands to [crypto.randomUUID()]. *)
Definition uuid_of (ev : Event) : option Id :=
  match ev with
  | CallEnqueue uuid _ _ _ => Some uuid
  | _ => None
  end.

Definition uuids (tr : list Transition) : list Id :=
  omap (λ t, uuid_of (t_ev t)) tr.

(** [crypto.randomUUID()] does not return a value it returned before. *)
Definition fresh (ev : Event) (tr : list Transition) : Prop :=
  ∀ u, uuid_of ev = Some u → u ∉ uuids tr.

(** [exec tr q]: the transitions [tr] (latest first) lead from a new
    queue object to [q]. *)
Inductive exec : list Transition → VeedQueue → Prop :=
  | exec_init : exec [] init
  | exec_step tr q now ev q' :
      exec tr q →
      fresh ev tr →
      step now ev q = Some q' →
      exec (mkTransition now ev q q' :: tr) q'.

(** The reply of the [enqueue] call of a transition, when it returned. *)
Definition enqueue_reply (t : Transition) : option EnqueueReply :=
  match t_ev t with
  | CallEnqueue uuid image text opts =>
      match (enqueue (t_now t) uuid image text opts (t_pre t)).1 with
      | Returned r => Some r
      | Thrown _ => None
      end
  | _ => None
  end.

(** The identifiers admitted by [enqueue], in order of arrival. *)
Definition arrivals (tr : list Transition) : list Id :=
  reverse (omap (λ t, r_operationId <$> enqueue_reply t) tr).


(** The operation that a transition moved to [PROCESSING], if any: the
    one that is current after it and was not before. *)
Definition picked (t : Transition) : option Id :=
  match currentOperation (t_post t) with
  | Some opId =>
      if decide (currentOperation (t_pre t) = Some opId) then None
      else Some opId
  | None => None
  end.

(** The operations that reached [PROCESSING], in the order they did. *)
Definition started (tr : list Transition) : list Id :=
  reverse (omap picked tr).

(** The states a transition passes through in which the status of some
    record differs from the one before: an [enqueue] that admits its
    request first stores the new record (line 96) and then calls
    [processQueue] (line 102); every other transition changes the status
    of a record at most once. *)
Definition passes (t : Transition) : list VeedQueue :=
  match t_ev t with
  | CallEnqueue uuid image text opts =>
      if bool_decide (maxQueueSize ≤ pendingCount (t_pre t)) then [t_post t]
      else [admit_operation (t_now t) uuid image text opts (t_pre t); t_post t]
  | _ => [t_post t]
  end.

Definition statuses_in (opId : Id) (qs : list VeedQueue) : list OperationStatus :=
  omap (λ q, status <$> operations q !! opId) qs.

(** The values the status field of the record of [opId] takes along an
    execution, oldest first, for as long as the store holds a record under
    [opId]. *)
Fixpoint status_history (opId : Id) (tr : list Transition) : list OperationStatus :=
  match tr with
  | [] => []
  | t :: tr' => status_history opId tr' ++ statuses_in opId (passes t)
  end.

(** Consecutive repetitions removed: the sequence of distinct statuses a
    poller can observe. *)
Fixpoint compress (l : list OperationStatus) : list OperationStatus :=
  match l with
  | [] => []
  | a :: l' =>
      match l' with
      | b :: _ => if decide (a = b) then compress l' else a :: compress l'
      | [] => [a]
      end
  end.

(** * Properties *)

(** ** Lists: [indexOf] and [splice] *)

Lemma indexOf_cons (x y : Id) (l : list Id) :
  indexOf x (y :: l) = if decide (y = x) then 0 else
                         if bool_decide (-1 < indexOf x l) then indexOf x l + 1 else -1.
Proof.
  unfold indexOf. cbn. destruct (decide (y = x)) as [->|Hne]; [done|].
  destruct (list_find _ l) as [[i z]|]; cbn; [|done].
  rewrite bool_decide_true by lia. lia.
Qed.

Lemma indexOf_range (x : Id) (l : list Id) :
  -1 ≤ indexOf x l < Z.of_nat (length l).
Proof.
  induction l as [|y l IH]; [vm_compute; intuition congruence|].
  rewrite indexOf_cons. cbn [length].
  destruct (decide (y = x)); [lia|]. case_bool_decide; lia.
Qed.

Lemma indexOf_elem (x : Id) (l : list Id) : x ∈ l ↔ 0 ≤ indexOf x l.
Proof.
  induction l as [|y l IH].
  - split; [by intros ?%elem_of_nil | by vm_compute].
  - rewrite indexOf_cons, elem_of_cons. pose proof (indexOf_range x l).
    destruct (decide (y = x)) as [->|Hne]; [intuition lia|].
    case_bool_decide; split.
    + lia.
    + intros _. right. apply IH. lia.
    + intros [->|Hin]; [done|]. apply IH in Hin. lia.
    + lia.
Qed.

Lemma indexOf_lookup (x : Id) (l : list Id) :
  x ∈ l → l !! Z.to_nat (indexOf x l) = Some x.
Proof.
  induction l as [|y l IH]; [by intros ?%elem_of_nil|].
  rewrite indexOf_cons. intros Hin. destruct (decide (y = x)) as [->|Hne]; [done|].
  apply elem_of_cons in Hin as [->|Hin]; [done|].
  pose proof (proj1 (indexOf_elem x l) Hin). rewrite bool_decide_true by lia.
  replace (Z.to_nat (indexOf x l + 1)) with (S (Z.to_nat (indexOf x l))) by lia.
  cbn. by apply IH.
Qed.

Lemma splice_out_cons (x y : Id) (l : list Id) :
  splice_out x (y :: l) = if decide (y = x) then l else y :: splice_out x l.
Proof.
  unfold splice_out. rewrite indexOf_cons. pose proof (indexOf_range x l).
  destruct (decide (y = x)); [done|].
  destruct (bool_decide_reflect (-1 < indexOf x l)) as [Hi|Hi].
  - rewrite bool_decide_true by lia.
    replace (Z.to_nat (indexOf x l + 1)) with (S (Z.to_nat (indexOf x l))) by lia.
    done.
  - by rewrite bool_decide_false by lia.
Qed.

Lemma filter_ne_absent (x : Id) (l : list Id) :
  x ∉ l → filter (λ y, y ≠ x) l = l.
Proof.
  induction l as [|y l IH]; [done|].
  intros [Hne Hl]%not_elem_of_cons.
  rewrite filter_cons_True by done. by rewrite IH.
Qed.

(** With no repetition in the array, the splice removes the identifier
    and keeps everything else in place. *)
Lemma splice_out_filter (x : Id) (l : list Id) :
  NoDup l → splice_out x l = filter (λ y, y ≠ x) l.
Proof.
  induction 1 as [|y l Hy Hnd IH]; [done|].
  rewrite splice_out_cons. destruct (decide (y = x)) as [->|Hne].
  - rewrite filter_cons_False by (intros ?; done).
    symmetry. by apply filter_ne_absent.
  - rewrite filter_cons_True by done. by rewrite IH.
Qed.

Lemma splice_out_sublist (x : Id) (l : list Id) : splice_out x l `sublist_of` l.
Proof. unfold splice_out. case_bool_decide; [apply sublist_delete|done]. Qed.

Lemma elem_of_splice_out (x y : Id) (l : list Id) :
  NoDup l → y ∈ splice_out x l ↔ y ∈ l ∧ y ≠ x.
Proof.
  intros Hnd. rewrite splice_out_filter by done.
  rewrite list_elem_of_filter. tauto.
Qed.

(** ** The invariant of the record store *)

(** A record is stored under its own identifier, carries a result exactly
    when completed and an error exactly when failed. *)
Definition wf_op (opId : Id) (op : Operation) : Prop :=
  op_id op = opId ∧
  (is_Some (result op) ↔ status op = COMPLETED) ∧
  (is_Some (error op) ↔ status op = FAILED).

(** The store [m], the pending queue [l] and the current operation [c]
    agree: the queue lists, once each, exactly the records that are
    [QUEUED], and [c] names exactly the record that is [PROCESSING]. *)
Record Store (m : gmap string Operation) (l : list Id) (c : option Id) : Prop := {
  store_nodup : NoDup l;
  store_queue : ∀ opId, opId ∈ l → is_Some (m !! opId);
  store_current : ∀ opId, c = Some opId → is_Some (m !! opId);
  store_wf : ∀ opId op, m !! opId = Some op → wf_op opId op;
  store_queued : ∀ opId op, m !! opId = Some op → status op = QUEUED ↔ opId ∈ l;
  store_processing : ∀ opId op, m !! opId = Some op → status op = PROCESSING ↔ c = Some opId;
}.

Lemma Store_empty : Store ∅ [] None.
Proof.
  split; try done.
  - apply NoDup_nil_2.
  - by intros ? ?%elem_of_nil.
Qed.

(** Lines 96-97: a new [QUEUED] record under an unused identifier. *)
Lemma Store_insert_fresh m l c opId op :
  Store m l c → m !! opId = None → wf_op opId op → status op = QUEUED →
  Store (<[opId := op]> m) (l ++ [opId]) c.
Proof.
  intros [Hnd Hq Hc Hwf Hqd Hpr] Hnone Hop Hst.
  assert (opId ∉ l) as Hnotin.
  { intros Hin. apply Hq in Hin as [? ?]. congruence. }
  split.
  - apply NoDup_app. split; [done|]. split; [|apply NoDup_singleton].
    intros x Hx Hx'. apply list_elem_of_singleton in Hx' as ->. done.
  - intros x [Hx| ->%list_elem_of_singleton]%elem_of_app.
    + rewrite lookup_insert_ne; [by apply Hq|]. intros ->. done.
    + rewrite lookup_insert_eq. by eexists.
  - intros x Hx. rewrite lookup_insert. case_decide; [by eexists|by apply Hc].
  - intros x op'. rewrite lookup_insert. case_decide; [|by apply Hwf].
    intros [= <-]. by subst.
  - intros x op'. rewrite lookup_insert, elem_of_app, list_elem_of_singleton.
    case_decide as Hx.
    + intros [= <-]. subst. tauto.
    + intros Hl. rewrite (Hqd _ _ Hl). split; [tauto|intros [?|?]; [done|congruence]].
  - intros x op'. rewrite lookup_insert. case_decide as Hx; [|by apply Hpr].
    intros [= <-]. subst x. split; [congruence|].
    intros Hcx. apply Hc in Hcx as [? ?]. congruence.
Qed.

(** A record leaves [QUEUED] (picked up, cancelled, failed wholesale) or
    leaves [PROCESSING] (settled): its identifier is no longer pending and
    the current operation changes accordingly. *)
Lemma Store_alter_leave m l c c' opId op f :
  Store m l c → m !! opId = Some op →
  wf_op opId (f op) → status (f op) ≠ QUEUED →
  (status (f op) = PROCESSING ↔ c' = Some opId) →
  (∀ x, x ≠ opId → c' = Some x ↔ c = Some x) →
  Store (alter f opId m) (filter (λ y, y ≠ opId) l) c'.
Proof.
  intros [Hnd Hq Hc Hwf Hqd Hpr] Hop Hwf' Hnq Hp' Hother.
  split.
  - by apply NoDup_filter.
  - intros x [Hne Hx]%list_elem_of_filter.
    rewrite lookup_alter_ne by done. by apply Hq.
  - intros x Hx. rewrite lookup_alter. case_decide; [by rewrite Hop|].
    apply Hc. by apply Hother.
  - intros x op'. rewrite lookup_alter. case_decide; [|by apply Hwf].
    subst x. rewrite Hop. by intros [= <-].
  - intros x op'. rewrite lookup_alter, list_elem_of_filter. case_decide as Hx.
    + subst x. rewrite Hop. intros [= <-]. tauto.
    + intros Hl. rewrite (Hqd _ _ Hl). split; [by auto|tauto].
  - intros x op'. rewrite lookup_alter. case_decide as Hx.
    + subst x. rewrite Hop. by intros [= <-].
    + intros Hl. rewrite (Hpr _ _ Hl). symmetry. apply Hother. by auto.
Qed.

(** An assignment that leaves status, result and error alone
    ([updateProgress]). *)
Lemma Store_alter_keep m l c opId f :
  Store m l c →
  (∀ op, op_id (f op) = op_id op ∧ status (f op) = status op ∧
         result (f op) = result op ∧ error (f op) = error op) →
  Store (alter f opId m) l c.
Proof.
  intros [Hnd Hq Hc Hwf Hqd Hpr] Hf.
  assert (∀ x op', alter f opId m !! x = Some op' →
            ∃ op, m !! x = Some op ∧ op_id op' = op_id op ∧
                  status op' = status op ∧ result op' = result op ∧
                  error op' = error op) as Hback.
  { intros x op'. rewrite lookup_alter. case_decide as Hx.
    - subst x. destruct (m !! opId) as [op|]; [|done].
      intros [= <-]. exists op. split; [done|apply Hf].
    - intros Hl. by exists op'. }
  split; [done| | | | |].
  - intros x Hx. rewrite lookup_alter. case_decide; [|by apply Hq].
    subst x. apply Hq in Hx as [op ->]. by eexists.
  - intros x Hx. rewrite lookup_alter. case_decide; [|by apply Hc].
    subst x. apply Hc in Hx as [op ->]. by eexists.
  - intros x op' (op & Hl & Hi & Hs & Hr & He)%Hback.
    destruct (Hwf _ _ Hl) as (?&?&?). unfold wf_op.
    rewrite Hi, Hs, Hr, He. done.
  - intros x op' (op & Hl & Hi & Hs & Hr & He)%Hback.
    rewrite Hs. by apply Hqd.
  - intros x op' (op & Hl & Hi & Hs & Hr & He)%Hback.
    rewrite Hs. by apply Hpr.
Qed.

(** Deleting records that are neither pending nor current. *)
Lemma Store_delete m l c js :
  Store m l c →
  (∀ x op, x ∈ js → m !! x = Some op → status op = COMPLETED ∨ status op = FAILED) →
  Store (foldr delete m js) l c.
Proof.
  intros [Hnd Hq Hc Hwf Hqd Hpr] Hjs.
  assert (∀ x op, foldr delete m js !! x = Some op → m !! x = Some op) as Hback.
  { intros x op. destruct (decide (x ∈ js)).
    - by rewrite lookup_foldr_delete.
    - by rewrite lookup_foldr_delete_not_elem_of. }
  assert (∀ x op, m !! x = Some op → status op = QUEUED ∨ status op = PROCESSING →
            foldr delete m js !! x = Some op) as Hkeep.
  { intros x op Hl Hst. rewrite lookup_foldr_delete_not_elem_of; [done|].
    intros Hin. destruct (Hjs _ _ Hin Hl); intuition congruence. }
  split; [done| | | | |].
  - intros x Hx. destruct (Hq _ Hx) as [op Hl]. exists op.
    apply Hkeep; [done|]. left. by apply (Hqd _ _ Hl).
  - intros x Hx. destruct (Hc _ Hx) as [op Hl]. exists op.
    apply Hkeep; [done|]. right. by apply (Hpr _ _ Hl).
  - intros x op Hl%Hback. by apply Hwf.
  - intros x op Hl%Hback. by apply Hqd.
  - intros x op Hl%Hback. by apply Hpr.
Qed.

Lemma filter_ne_head (opId : Id) (rest : list Id) :
  NoDup (opId :: rest) → filter (λ y, y ≠ opId) (opId :: rest) = rest.
Proof.
  intros [Hnotin _]%NoDup_cons.
  rewrite filter_cons_False by (intros ?; done). by apply filter_ne_absent.
Qed.

(** Lines 176-178 and 203-205: a [QUEUED] record is failed. *)
Lemma Store_fail_queued m l c opId op msg now :
  Store m l c → m !! opId = Some op → status op = QUEUED →
  Store (alter (fail_with msg now) opId m) (filter (λ y, y ≠ opId) l) c.
Proof.
  intros HS Hop Hst.
  destruct (store_wf _ _ _ HS _ _ Hop) as (Hid & Hres & Herr).
  assert (c ≠ Some opId) as Hc.
  { intros Hc. apply (store_processing _ _ _ HS _ _ Hop) in Hc. congruence. }
  apply (Store_alter_leave m l c c opId op); try done.
  unfold wf_op. cbn. split; [done|]. rewrite Hres, Hst.
  split; split; done.
Qed.

(** Lines 213-222: the head of the queue becomes the current operation. *)
Lemma Store_start m opId rest now :
  Store m (opId :: rest) None →
  Store (alter (mark_processing now) opId m) rest (Some opId).
Proof.
  intros HS.
  destruct (store_queue _ _ _ HS opId) as [op Hop]; [apply elem_of_cons; by left|].
  assert (status op = QUEUED) as Hst.
  { apply (store_queued _ _ _ HS _ _ Hop). apply elem_of_cons. by left. }
  destruct (store_wf _ _ _ HS _ _ Hop) as (Hid & Hres & Herr).
  rewrite <- (filter_ne_head opId rest) by apply HS.
  apply (Store_alter_leave m (opId :: rest) None (Some opId) opId op); try done.
  - unfold wf_op. cbn. rewrite Hres, Herr, Hst. done.
  - intros x Hx. split; [congruence|done].
Qed.

(** Lines 229-231 and 235-237 with 242: the current operation settles. *)
Definition settles (f : Operation → Operation) : Prop :=
  ∀ op, status op = PROCESSING → result op = None → error op = None →
    op_id (f op) = op_id op ∧
    (status (f op) = COMPLETED ∨ status (f op) = FAILED) ∧
    (is_Some (result (f op)) ↔ status (f op) = COMPLETED) ∧
    (is_Some (error (f op)) ↔ status (f op) = FAILED).

Lemma settles_complete r now : settles (complete_with r now).
Proof.
  intros op Hst Hres Herr. cbn. rewrite Herr, <- !not_eq_None_Some.
  intuition congruence.
Qed.

Lemma settles_fail msg now : settles (fail_with msg now).
Proof.
  intros op Hst Hres Herr. cbn. rewrite Hres, <- !not_eq_None_Some.
  intuition congruence.
Qed.

Lemma Store_settle m l opId f :
  Store m l (Some opId) → settles f → Store (alter f opId m) l None.
Proof.
  intros HS Hf.
  destruct (store_current _ _ _ HS opId) as [op Hop]; [done|].
  assert (status op = PROCESSING) as Hst.
  { by apply (store_processing _ _ _ HS _ _ Hop). }
  destruct (store_wf _ _ _ HS _ _ Hop) as (Hid & Hres & Herr).
  destruct (Hf op Hst) as (Hid' & Hst' & Hres' & Herr').
  { apply eq_None_not_Some. rewrite Hres, Hst. done. }
  { apply eq_None_not_Some. rewrite Herr, Hst. done. }
  assert (opId ∉ l) as Hnotin.
  { intros Hin. apply (store_queued _ _ _ HS _ _ Hop) in Hin. congruence. }
  rewrite <- (filter_ne_absent opId l) by done.
  apply (Store_alter_leave m l (Some opId) None opId op); try done.
  - unfold wf_op. rewrite Hid'. done.
  - destruct Hst' as [-> | ->]; done.
  - destruct Hst' as [-> | ->]; done.
  - intros x Hx. split; [done|congruence].
Qed.

Lemma Store_failAll m l c now :
  Store m l c →
  Store (foldl (λ m opId, alter (fail_with msg_unavailable now) opId m) m l) [] c.
Proof.
  revert m. induction l as [|opId rest IH]; intros m HS; [done|].
  cbn. apply IH.
  destruct (store_queue _ _ _ HS opId) as [op Hop]; [apply elem_of_cons; by left|].
  rewrite <- (filter_ne_head opId rest) by apply HS.
  apply (Store_fail_queued m (opId :: rest) c opId op); try done.
  apply (store_queued _ _ _ HS _ _ Hop). apply elem_of_cons. by left.
Qed.

(** ** The invariant of the scheduler *)

(** The fields that steer the loop agree with where its activation is
    suspended. *)
Record Ctl (q : VeedQueue) : Prop := {
  ctl_current :
    currentOperation q =
    match drain q with Some (AwaitExec opId) => Some opId | _ => None end;
  ctl_isProcessing : isProcessing q = bool_decide (drain q ≠ None);
  ctl_idle : drain q = None → queue q = [];
  ctl_exec : ∀ opId, drain q = Some (AwaitExec opId) →
    serviceReady q = true ∧ is_Some (executions q !! opId) ∧
    is_Some (timers q !! opId);
  ctl_initializing : serviceInitializing q = true → serviceReady q = false;
  ctl_own : drain q = Some AwaitInit → serviceInitializing q = true;
}.

Definition Inv (q : VeedQueue) : Prop :=
  Store (operations q) (queue q) (currentOperation q) ∧ Ctl q.

Lemma Inv_init : Inv init.
Proof. split; [apply Store_empty|]. by split. Qed.

(** The loop started or resumed at its head (or at line 213 when
    [skipGate], which needs the service ready) restores the invariant by
    the time it suspends or returns. *)
Lemma Inv_processLoop now skipGate q :
  Store (operations q) (queue q) None →
  currentOperation q = None →
  isProcessing q = true →
  (serviceInitializing q = true → serviceReady q = false) →
  (skipGate = true → serviceReady q = true) →
  Inv (processLoop now skipGate (queue q) q).
Proof.
  intros HS Hcur Hproc Hini Hskip.
  destruct (queue q) as [|opId rest] eqn:Hqueue.
  { cbn. split; cbn; [by rewrite Hqueue, Hcur|]. by split. }
  cbn [processLoop].
  destruct (store_queue _ _ _ HS opId) as [op Hop]; [apply elem_of_cons; by left|].
  rewrite Hop.
  assert (serviceReady q = true →
          Inv (startExecution now opId rest q)) as Hstart.
  { intros Hready. split; cbn.
    - by apply Store_start.
    - split; cbn; try done.
      intros ? [= <-]. rewrite !lookup_insert_eq. split_and!; by eauto. }
  destruct skipGate; [by auto|].
  destruct (serviceReady q) eqn:Hready; [by auto|].
  unfold initializeService. rewrite Hready.
  destruct (serviceInitializing q) eqn:Hinit; cbn.
  - split; cbn; [by rewrite Hqueue, Hcur|]. by split.
  - split; cbn; [by rewrite Hqueue, Hcur|]. by split.
Qed.

Lemma elem_of_toDelete now q opId :
  opId ∈ toDelete now q ↔
  ∃ op, operations q !! opId = Some op ∧ expired now op = true.
Proof.
  unfold toDelete. rewrite list_elem_of_fmap. split.
  - intros ([x op] & -> & Hin). apply elem_of_map_to_list in Hin.
    apply map_lookup_filter_Some in Hin as [Hl Hex]. by exists op.
  - intros (op & Hl & Hex). exists (opId, op). split; [done|].
    apply elem_of_map_to_list. by apply map_lookup_filter_Some.
Qed.

Lemma expired_terminal now op :
  expired now op = true → status op = COMPLETED ∨ status op = FAILED.
Proof.
  unfold expired. intros [Hst _]%andb_true_iff.
  apply orb_true_iff in Hst as [H|H]; apply bool_decide_eq_true in H; auto.
Qed.

(** What the reaper leaves in the store. *)
Lemma cleanup_lookup now q opId :
  operations (cleanupOldOperations now q) !! opId =
  match operations q !! opId with
  | Some op => if expired now op then None else Some op
  | None => None
  end.
Proof.
  cbn. destruct (operations q !! opId) as [op|] eqn:Hl.
  - destruct (expired now op) eqn:Hex.
    + apply lookup_foldr_delete. apply elem_of_toDelete. by exists op.
    + rewrite lookup_foldr_delete_not_elem_of; [done|].
      intros (op' & Hl' & Hex')%elem_of_toDelete. congruence.
  - destruct (decide (opId ∈ toDelete now q)).
    + by apply lookup_foldr_delete.
    + by rewrite lookup_foldr_delete_not_elem_of.
Qed.

Section Preservation.
Context (now : Z) (q : VeedQueue).
Hypothesis HInv : Inv q.

Let HS : Store (operations q) (queue q) (currentOperation q) := proj1 HInv.
Let HC : Ctl q := proj2 HInv.

Lemma drain_None_current : drain q = None → currentOperation q = None.
Proof. intros H. by rewrite (ctl_current _ HC), H. Qed.

Lemma isProcessing_false_idle : isProcessing q = false → drain q = None.
Proof.
  rewrite (ctl_isProcessing _ HC). intros H%bool_decide_eq_false.
  by destruct (drain q); [exfalso; apply H|].
Qed.

Lemma isProcessing_true_busy : isProcessing q = true → drain q ≠ None.
Proof. rewrite (ctl_isProcessing _ HC). by intros H%bool_decide_eq_true. Qed.

Lemma Inv_admit uuid image text opts :
  operations q !! uuid = None →
  Store (operations (admit_operation now uuid image text opts q))
        (queue (admit_operation now uuid image text opts q))
        (currentOperation q).
Proof.
  intros Hnone. cbn. apply Store_insert_fresh; [exact HS|done| |done].
  unfold wf_op. cbn. rewrite <- !not_eq_None_Some. intuition congruence.
Qed.

Lemma Inv_enqueue uuid image text opts :
  operations q !! uuid = None →
  Inv (enqueue now uuid image text opts q).2.
Proof.
  intros Hnone. unfold enqueue. case_bool_decide; [exact HInv|]. cbn [snd].
  pose proof (Inv_admit uuid image text opts Hnone) as HS1.
  unfold processQueue. cbn [isProcessing admit_operation set_queue set_operations].
  destruct (isProcessing q) eqn:Hproc.
  - split; [done|]. pose proof (isProcessing_true_busy Hproc).
    destruct HC. by split.
  - pose proof (isProcessing_false_idle Hproc) as Hidle.
    pose proof (drain_None_current Hidle) as Hcur. rewrite Hcur in HS1.
    apply (Inv_processLoop now false
             (set_isProcessing true (admit_operation now uuid image text opts q)));
      try done.
    apply (ctl_initializing _ HC).
Qed.

Lemma Inv_cancel opId : Inv (cancel now opId q).2.
Proof.
  unfold cancel. destruct (operations q !! opId) as [op|] eqn:Hop; [|exact HInv].
  case_decide as Hst; [|exact HInv]. cbn [snd]. split; cbn.
  - rewrite splice_out_filter by apply HS. by eapply Store_fail_queued.
  - destruct HC as [H1 H2 H3 H4 H5 H6]. split; cbn; try done.
    intros Hd. by rewrite (H3 Hd).
Qed.

Lemma Inv_initializeService : Inv (initializeService q).2.
Proof.
  unfold initializeService.
  destruct (serviceInitializing q) eqn:Hini; [exact HInv|].
  destruct (serviceReady q) eqn:Hready; [exact HInv|]. cbn.
  split; [exact HS|]. destruct HC as [H1 H2 H3 H4 H5 H6]. by split.
Qed.

Lemma Inv_resumeAfterInit q1 :
  operations q1 = operations q → queue q1 = queue q →
  currentOperation q1 = currentOperation q →
  drain q ≠ None → (∀ opId, drain q ≠ Some (AwaitExec opId)) →
  isProcessing q1 = isProcessing q →
  serviceInitializing q1 = false →
  Inv (resumeAfterInit now (serviceReady q1) q1).
Proof.
  intros Hops Hqu Hcur Hbusy Hnoexec Hproc Hini.
  assert (currentOperation q = None) as Hnone.
  { rewrite (ctl_current _ HC). destruct (drain q) as [[| |x]|]; try done.
    by destruct (Hnoexec x). }
  assert (isProcessing q = true) as Htrue.
  { rewrite (ctl_isProcessing _ HC). by apply bool_decide_eq_true. }
  assert (Store (operations q1) (queue q1) None) as HS1.
  { rewrite Hops, Hqu, <- Hnone. exact HS. }
  unfold resumeAfterInit. destruct (serviceReady q1) eqn:Hready.
  - apply Inv_processLoop; try done; congruence.
  - split; cbn.
    + rewrite Hcur, Hnone. by apply Store_failAll.
    + split; cbn; try done; congruence.
Qed.

Lemma Inv_initSettled ok :
  serviceInitializing q = true → Inv (initSettled now ok q).
Proof.
  intros Hini. unfold initSettled.
  assert (∀ opId, drain q ≠ Some (AwaitExec opId)) as Hnoexec.
  { intros opId Hd. destruct (ctl_exec _ HC _ Hd) as [Hr _].
    rewrite (ctl_initializing _ HC Hini) in Hr. done. }
  case_decide as Hd.
  - apply Inv_resumeAfterInit; try done. by rewrite Hd.
  - split; [exact HS|]. destruct HC as [H1 H2 H3 H4 H5 H6].
    split; cbn; try done. intros opId Hx. by destruct (Hnoexec opId).
Qed.

Lemma Inv_pollWake : drain q = Some AwaitInitPoll → Inv (pollWake now q).
Proof.
  intros Hd. unfold pollWake.
  destruct (serviceInitializing q) eqn:Hini; [exact HInv|].
  apply Inv_resumeAfterInit; try done; by rewrite Hd.
Qed.

Lemma Inv_serviceObtained opId : Inv (serviceObtained now opId q).
Proof.
  split; cbn.
  - by apply Store_alter_keep.
  - destruct HC as [H1 H2 H3 H4 H5 H6]. split; cbn; try done.
    intros x Hx. destruct (H4 _ Hx) as (?&?&?). split_and!; try done.
    rewrite lookup_insert. by case_decide.
Qed.

(** The current operation settles and the loop goes on. *)
Lemma Inv_settle opId f q1 :
  operations q1 = operations q → queue q1 = queue q →
  isProcessing q1 = isProcessing q →
  serviceReady q1 = serviceReady q →
  serviceInitializing q1 = serviceInitializing q →
  drain q = Some (AwaitExec opId) →
  settles f →
  Inv (let q2 := set_currentOperation None (mutate f opId q1) in
       processLoop now false (queue q2) q2).
Proof.
  intros Hops Hqu Hproc Hready Hini Hd Hf. cbn zeta.
  assert (currentOperation q = Some opId) as Hcur.
  { by rewrite (ctl_current _ HC), Hd. }
  apply Inv_processLoop; cbn; try done.
  - rewrite Hops, Hqu. apply Store_settle; [|done]. rewrite <- Hcur. exact HS.
  - rewrite Hproc, (ctl_isProcessing _ HC), Hd. done.
  - rewrite Hready, Hini. apply (ctl_initializing _ HC).
Qed.

Lemma Inv_execResolved opId r : Inv (execResolved now opId r q).
Proof.
  unfold execResolved. case_decide as Hd.
  - apply (Inv_settle opId); try done. apply settles_complete.
  - split; [exact HS|]. destruct HC as [H1 H2 H3 H4 H5 H6].
    split; cbn; try done. intros x Hx. destruct (H4 _ Hx) as (?&?&?).
    split_and!; try done. rewrite lookup_delete_ne; [done|congruence].
Qed.

Lemma Inv_execRejected opId msg : Inv (execRejected now opId msg q).
Proof.
  unfold execRejected. case_decide as Hd.
  - apply (Inv_settle opId); try done. apply settles_fail.
  - split; [exact HS|]. destruct HC as [H1 H2 H3 H4 H5 H6].
    split; cbn; try done. intros x Hx. destruct (H4 _ Hx) as (?&?&?).
    split_and!; try done. rewrite lookup_delete_ne; [done|congruence].
Qed.

Lemma Inv_timerFired opId : Inv (timerFired now opId q).
Proof.
  unfold timerFired. case_decide as Hd.
  - apply (Inv_settle opId); try done. apply settles_fail.
  - split; [exact HS|]. destruct HC as [H1 H2 H3 H4 H5 H6].
    split; cbn; try done. intros x Hx. destruct (H4 _ Hx) as (?&?&?).
    split_and!; try done. rewrite lookup_delete_ne; [done|congruence].
Qed.

Lemma Inv_cleanup : Inv (cleanupOldOperations now q).
Proof.
  split; cbn.
  - apply Store_delete; [exact HS|].
    intros x op (op' & Hl & Hex)%elem_of_toDelete Hop.
    apply (expired_terminal now). congruence.
  - destruct HC as [H1 H2 H3 H4 H5 H6]. by split.
Qed.

(** Every transition preserves the invariant, provided [enqueue] is
    handed an identifier that is not in the store. *)
Lemma Inv_step ev q' :
  (∀ u, uuid_of ev = Some u → operations q !! u = None) →
  step now ev q = Some q' → Inv q'.
Proof.
  intros Hfresh Hstep. destruct ev; cbn in Hstep.
  - injection Hstep as <-. apply Inv_enqueue. by apply Hfresh.
  - injection Hstep as <-. exact HInv.
  - injection Hstep as <-. apply Inv_cancel.
  - injection Hstep as <-. apply Inv_initializeService.
  - destruct (serviceInitializing q) eqn:Hini; [|done].
    injection Hstep as <-. by apply Inv_initSettled.
  - case_decide; [|done]. injection Hstep as <-. by apply Inv_pollWake.
  - destruct (executions q !! opId) as [[|]|]; try done.
    injection Hstep as <-. apply Inv_serviceObtained.
  - destruct (executions q !! opId) as [[|]|]; try done.
    injection Hstep as <-. apply Inv_execResolved.
  - destruct (executions q !! opId) as [?|]; try done.
    injection Hstep as <-. apply Inv_execRejected.
  - destruct (timers q !! opId) as [due|]; try done.
    case_bool_decide; [|done]. injection Hstep as <-. apply Inv_timerFired.
  - injection Hstep as <-. apply Inv_cleanup.
Qed.

End Preservation.

(** ** What one pass of the loop does *)

(** When every queued identifier has a record (which the invariant
    gives), line 217 is never taken and the loop does one of three things:
    it returns on an empty queue, it starts the head of the queue, or it
    suspends on the initialization of the service. *)
Lemma processLoop_spec now skipGate q :
  (∀ x, x ∈ queue q → is_Some (operations q !! x)) →
  processLoop now skipGate (queue q) q =
  match queue q with
  | [] => finishLoop q
  | opId :: rest =>
      if skipGate || serviceReady q then startExecution now opId rest q
      else if serviceInitializing q then set_drain (Some AwaitInitPoll) q
      else set_drain (Some AwaitInit) (set_serviceInitializing true q)
  end.
Proof.
  intros Hq. destruct (queue q) as [|opId rest]; [done|].
  cbn [processLoop]. destruct (Hq opId) as [op ->]; [apply elem_of_cons; by left|].
  destruct skipGate; [done|]. cbn [orb]. unfold initializeService.
  destruct (serviceReady q); [done|]. by destruct (serviceInitializing q).
Qed.

(** The effect of a pass on the store, the queue and the current
    operation: nothing, or the head of the queue is picked. *)
Definition LoopEffect (now : Z) (q1 q2 : VeedQueue) : Prop :=
  (operations q2 = operations q1 ∧ queue q2 = queue q1 ∧
   currentOperation q2 = currentOperation q1) ∨
  (∃ opId rest op,
      queue q1 = opId :: rest ∧ operations q1 !! opId = Some op ∧
      status op = QUEUED ∧
      operations q2 = alter (mark_processing now) opId (operations q1) ∧
      queue q2 = rest ∧ currentOperation q2 = Some opId).

Lemma processLoop_effect now skipGate q c :
  Store (operations q) (queue q) c →
  LoopEffect now q (processLoop now skipGate (queue q) q).
Proof.
  intros HS. rewrite processLoop_spec by apply HS.
  destruct (queue q) as [|opId rest] eqn:Hqueue.
  { left. cbn. by rewrite Hqueue. }
  destruct (skipGate || serviceReady q).
  - right. destruct (store_queue _ _ _ HS opId) as [op Hop]; [apply elem_of_cons; by left|].
    exists opId, rest, op. split_and!; try done.
    apply (store_queued _ _ _ HS _ _ Hop). apply elem_of_cons. by left.
  - left. by destruct (serviceInitializing q).
Qed.

(** The permitted moves of a record's status. *)
Definition status_edge (a b : OperationStatus) : bool :=
  match a, b with
  | QUEUED, PROCESSING => true
  | PROCESSING, COMPLETED => true
  | PROCESSING, FAILED => true
  | QUEUED, FAILED => true
  | _, _ => false
  end.

(** How a transition may change what the store holds for an identifier:
    a record that stays keeps its identity and either takes a permitted
    move or keeps status, result and error; a record that disappears was
    terminal. *)
Definition record_step (o o' : option Operation) : Prop :=
  match o, o' with
  | Some op, Some op' =>
      status_edge (status op) (status op') = true ∨
      (status op' = status op ∧ result op' = result op ∧ error op' = error op)
  | Some op, None => status op = COMPLETED ∨ status op = FAILED
  | None, _ => True
  end.

Lemma record_step_refl o : record_step o o.
Proof. destruct o; cbn; auto. Qed.

Lemma record_step_trans_keep o o1 o2 :
  record_step o o1 →
  match o1, o2 with
  | Some op1, Some op2 =>
      status op2 = status op1 ∧ result op2 = result op1 ∧ error op2 = error op1
  | None, None => True
  | _, _ => False
  end →
  record_step o o2.
Proof.
  destruct o as [op|], o1 as [op1|], o2 as [op2|]; cbn; try done.
  intros [He|(Hs & Hr & He)] (Hs' & Hr' & He').
  - left. by rewrite Hs'.
  - right. split_and!; congruence.
Qed.

Lemma LoopEffect_record now q1 q2 opId :
  LoopEffect now q1 q2 →
  record_step (operations q1 !! opId) (operations q2 !! opId).
Proof.
  intros [(-> & _ & _)|(x & rest & op & Hq & Hop & Hst & -> & _ & _)].
  - apply record_step_refl.
  - rewrite lookup_alter. case_decide as Hx; [|apply record_step_refl].
    subst x. rewrite Hop. cbn. left. by rewrite Hst.
Qed.

Lemma record_step_then_pick now o o1 o2 :
  record_step o o1 →
  (o2 = o1 ∨
   ∃ op, o1 = Some op ∧ status op = QUEUED ∧ o2 = Some (mark_processing now op)) →
  record_step o o2.
Proof.
  intros H1 [->|(op & -> & Hst & ->)]; [done|].
  destruct o as [op0|]; [|done]. cbn in *.
  destruct H1 as [He|(Hs & _ & _)].
  - rewrite Hst in He. by destruct (status op0).
  - left. rewrite <- Hs, Hst. done.
Qed.

(** ** The shape of a transition *)

(** What a transition does to the store, the queue and the current
    operation before the loop (if it runs at all) takes the next
    operation, and the identifier it admits, if any. *)
Inductive PreEffect (now : Z) (q : VeedQueue) :
  gmap string Operation → list Id → option Id → option Id → Prop :=
  | pre_same :
      PreEffect now q (operations q) (queue q) (currentOperation q) None
  | pre_progress opId :
      PreEffect now q
        (alter (updateProgress msg_starting now) opId (operations q))
        (queue q) (currentOperation q) None
  | pre_cleanup :
      PreEffect now q (operations (cleanupOldOperations now q))
        (queue q) (currentOperation q) None
  | pre_cancel opId op :
      operations q !! opId = Some op → status op = QUEUED →
      PreEffect now q
        (alter (fail_with msg_cancelled now) opId (operations q))
        (filter (λ y, y ≠ opId) (queue q)) (currentOperation q) None
  | pre_failAll :
      PreEffect now q
        (foldl (λ m opId, alter (fail_with msg_unavailable now) opId m)
               (operations q) (queue q))
        [] (currentOperation q) None
  | pre_admit uuid image text opts :
      operations q !! uuid = None →
      PreEffect now q
        (<[uuid := newOperation now uuid image text opts q]> (operations q))
        (queue q ++ [uuid]) (currentOperation q) (Some uuid)
  | pre_settle opId f :
      currentOperation q = Some opId → settles f →
      PreEffect now q (alter f opId (operations q)) (queue q) None None.

(** After the part described by [PreEffect], either nothing more happens
    to store, queue and current operation, or the head of the queue is
    picked. *)
Definition Picks (now : Z) (mo : gmap string Operation) (mq : list Id) (mc : option Id) (q' : VeedQueue) : Prop :=
  (operations q' = mo ∧ queue q' = mq ∧ currentOperation q' = mc) ∨
  (∃ opId rest op,
      mq = opId :: rest ∧ mo !! opId = Some op ∧ status op = QUEUED ∧
      mc = None ∧
      operations q' = alter (mark_processing now) opId mo ∧
      queue q' = rest ∧ currentOperation q' = Some opId).

Definition admitted (t : Transition) : option Id :=
  r_operationId <$> enqueue_reply t.

Inductive StepShape (now : Z) (ev : Event) (q q' : VeedQueue) : Prop :=
  | step_shape mo mq mc adm :
      PreEffect now q mo mq mc adm →
      admitted (mkTransition now ev q q') = adm →
      Store mo mq mc →
      Picks now mo mq mc q' →
      StepShape now ev q q'.

Lemma Picks_nothing now q : Picks now (operations q) (queue q) (currentOperation q) q.
Proof. by left. Qed.

Lemma Picks_loop now skipGate q :
  Store (operations q) (queue q) (currentOperation q) →
  currentOperation q = None →
  Picks now (operations q) (queue q) (currentOperation q)
    (processLoop now skipGate (queue q) q).
Proof.
  intros HS Hcur.
  destruct (processLoop_effect now skipGate q _ HS)
    as [(?&?&?)|(x & rest & op & ? & ? & ? & ? & ? & ?)]; [by left|].
  right. exists x, rest, op. by split_and!.
Qed.

Section Shape.
Context (now : Z) (q : VeedQueue).
Hypothesis HInv : Inv q.

Let HS : Store (operations q) (queue q) (currentOperation q) := proj1 HInv.
Let HC : Ctl q := proj2 HInv.

Lemma shape_unchanged ev q' :
  operations q' = operations q → queue q' = queue q →
  currentOperation q' = currentOperation q →
  admitted (mkTransition now ev q q') = None →
  StepShape now ev q q'.
Proof.
  intros Ho Hq Hc Ha. eapply step_shape; [apply pre_same|done|exact HS|].
  by left.
Qed.

Lemma shape_resumeAfterInit ev q1 :
  admitted (mkTransition now ev q (resumeAfterInit now (serviceReady q1) q1)) = None →
  operations q1 = operations q → queue q1 = queue q →
  currentOperation q1 = currentOperation q →
  currentOperation q = None →
  StepShape now ev q (resumeAfterInit now (serviceReady q1) q1).
Proof.
  intros Ha Ho Hq Hc Hnone. unfold resumeAfterInit in *.
  destruct (serviceReady q1).
  - eapply step_shape; [apply pre_same|done|exact HS|].
    rewrite <- Ho, <- Hq, <- Hc. apply Picks_loop; [|congruence].
    rewrite Ho, Hq, Hc. exact HS.
  - eapply step_shape; [apply pre_failAll|done|by apply Store_failAll|].
    left. cbn. by rewrite Ho, Hq, Hc.
Qed.

Lemma shape_settle ev opId f q1 :
  let q2 := set_currentOperation None (mutate f opId q1) in
  admitted (mkTransition now ev q (processLoop now false (queue q2) q2)) = None →
  operations q1 = operations q → queue q1 = queue q →
  drain q = Some (AwaitExec opId) → settles f →
  StepShape now ev q (processLoop now false (queue q2) q2).
Proof.
  intros q2 Ha Ho Hq Hd Hf.
  assert (currentOperation q = Some opId) as Hcur.
  { by rewrite (ctl_current _ HC), Hd. }
  assert (Store (operations q2) (queue q2) (currentOperation q2)) as HS2.
  { cbn. rewrite Ho, Hq. apply Store_settle; [|done]. rewrite <- Hcur. exact HS. }
  eapply step_shape; [by apply (pre_settle now q opId f)|done| |].
  - cbn in HS2. by rewrite Ho, Hq in HS2.
  - pose proof (Picks_loop now false q2 HS2 eq_refl) as HP.
    cbn in HP. cbn. rewrite Ho in HP. by rewrite Hq in HP at 1.
Qed.

Lemma admitted_other ev q' : uuid_of ev = None → admitted (mkTransition now ev q q') = None.
Proof. by destruct ev. Qed.

(** Every transition has one of the shapes. *)
Lemma step_effect ev q' :
  (∀ u, uuid_of ev = Some u → operations q !! u = None) →
  step now ev q = Some q' → StepShape now ev q q'.
Proof.
  intros Hfresh Hstep. destruct ev; cbn in Hstep.
  - (* enqueue *)
    injection Hstep as <-. specialize (Hfresh uuid eq_refl).
    unfold enqueue.
    destruct (bool_decide (maxQueueSize ≤ pendingCount q)) eqn:Hfull.
    { apply shape_unchanged; try done.
      unfold admitted, enqueue_reply, enqueue. cbn. by rewrite Hfull. }
    cbn [snd].
    eapply step_shape;
      [by apply (pre_admit now q uuid image text opts)
      |unfold admitted, enqueue_reply, enqueue; cbn; by rewrite Hfull
      |by apply Inv_admit|].
    unfold processQueue. cbn [isProcessing admit_operation set_queue set_operations].
    destruct (isProcessing q) eqn:Hproc; [by left|].
    pose proof (isProcessing_false_idle q HInv Hproc) as Hidle.
    pose proof (drain_None_current q HInv Hidle) as Hcur.
    pose proof (Inv_admit now q HInv uuid image text opts Hfresh) as HS1.
    apply (Picks_loop now false
             (set_isProcessing true (admit_operation now uuid image text opts q)));
      done.
  - injection Hstep as <-. by apply shape_unchanged.
  - (* cancel *)
    injection Hstep as <-. unfold cancel.
    destruct (operations q !! opId) as [op|] eqn:Hop; [|by apply shape_unchanged].
    case_decide as Hst; [|by apply shape_unchanged]. cbn [snd].
    eapply step_shape; [by apply (pre_cancel now q opId op)|done| |].
    + by eapply Store_fail_queued.
    + left. cbn. by rewrite splice_out_filter by apply HS.
  - injection Hstep as <-. apply shape_unchanged; try done;
      unfold initializeService; by repeat case_match.
  - (* initVeedService settled *)
    destruct (serviceInitializing q) eqn:Hini; [|done].
    injection Hstep as <-. unfold initSettled. case_decide as Hd.
    + apply shape_resumeAfterInit; try done.
      by rewrite (ctl_current _ HC), Hd.
    + by apply shape_unchanged.
  - (* poll *)
    case_decide as Hd; [|done]. injection Hstep as <-. unfold pollWake.
    destruct (serviceInitializing q); [by apply shape_unchanged|].
    apply shape_resumeAfterInit; try done.
    by rewrite (ctl_current _ HC), Hd.
  - destruct (executions q !! opId) as [[|]|]; try done.
    injection Hstep as <-.
    eapply step_shape; [apply (pre_progress now q opId)|done| |by left].
    by apply Store_alter_keep.
  - destruct (executions q !! opId) as [[|]|]; try done.
    injection Hstep as <-. unfold execResolved. case_decide as Hd.
    + apply (shape_settle _ opId); try done. apply settles_complete.
    + by apply shape_unchanged.
  - destruct (executions q !! opId) as [?|]; try done.
    injection Hstep as <-. unfold execRejected. case_decide as Hd.
    + apply (shape_settle _ opId); try done. apply settles_fail.
    + by apply shape_unchanged.
  - destruct (timers q !! opId) as [due|]; try done.
    case_bool_decide; [|done]. injection Hstep as <-.
    unfold timerFired. case_decide as Hd.
    + apply (shape_settle _ opId); try done. apply settles_fail.
    + by apply shape_unchanged.
  - injection Hstep as <-.
    eapply step_shape; [apply pre_cleanup|done| |by left].
    apply (Inv_cleanup now q HInv).
Qed.
End Shape.

(** ** Consequences of the shape *)

Lemma foldl_alter_lookup (f : Operation → Operation) (l : list Id) (m : gmap string Operation) (opId : Id) :
  NoDup l →
  foldl (λ m x, alter f x m) m l !! opId =
  if decide (opId ∈ l) then f <$> m !! opId else m !! opId.
Proof.
  intros Hnd. revert m. induction Hnd as [|x l Hx Hnd IH]; intros m.
  - cbn. case_decide as Hin; [by apply elem_of_nil in Hin|done].
  - cbn. rewrite IH. rewrite lookup_alter.
    destruct (decide (opId = x)) as [->|Hne].
    + rewrite decide_False by done. rewrite decide_True by done.
      rewrite decide_True by (apply elem_of_cons; by left). done.
    + rewrite (decide_False (P := x = opId)) by done.
      destruct (decide (opId ∈ l)) as [Hin|Hin].
      * rewrite decide_True by (apply elem_of_cons; by right). done.
      * rewrite decide_False; [done|]. intros [?|?]%elem_of_cons; done.
Qed.

Lemma is_Some_alter (f : Operation → Operation) (m : gmap string Operation) (x opId : Id) :
  is_Some (alter f x m !! opId) ↔ is_Some (m !! opId).
Proof. rewrite lookup_alter. case_decide; [subst; apply fmap_is_Some|done]. Qed.

Lemma admitted_uuid t u : admitted t = Some u → uuid_of (t_ev t) = Some u.
Proof.
  unfold admitted, enqueue_reply. destruct (t_ev t); try done.
  unfold enqueue. case_bool_decide; cbn; [done|]. by intros [= <-].
Qed.

Section ShapeFacts.
Context (now : Z) (ev : Event) (q q' : VeedQueue).
Hypothesis HInv : Inv q.
Hypothesis Hshape : StepShape now ev q q'.

Let HS : Store (operations q) (queue q) (currentOperation q) := proj1 HInv.

(** Records are only created by [enqueue], under the minted identifier. *)
Lemma shape_created opId :
  is_Some (operations q' !! opId) →
  is_Some (operations q !! opId) ∨
  admitted (mkTransition now ev q q') = Some opId.
Proof.
  destruct Hshape as [mo mq mc adm Hpre Hadm HSm Hpicks]. rewrite Hadm.
  assert (is_Some (mo !! opId) →
          is_Some (operations q !! opId) ∨ adm = Some opId) as Hmo.
  { destruct Hpre; try (by left).
    - rewrite is_Some_alter. by left.
    - rewrite cleanup_lookup. destruct (operations q !! opId); [by left|].
      by intros [? ?].
    - rewrite is_Some_alter. by left.
    - rewrite foldl_alter_lookup by apply HS. case_decide; [|by left].
      rewrite fmap_is_Some. by left.
    - rewrite lookup_insert. case_decide; [subst; by right|by left].
    - rewrite is_Some_alter. by left. }
  destruct Hpicks as [(-> & _ & _)|(x & rest & op & _ & _ & _ & _ & -> & _ & _)];
    [done|].
  by rewrite is_Some_alter.
Qed.

(** Each record moves along a permitted edge or keeps its outcome. *)
Lemma shape_record opId :
  record_step (operations q !! opId) (operations q' !! opId).
Proof.
  destruct Hshape as [mo mq mc adm Hpre Hadm HSm Hpicks].
  assert (record_step (operations q !! opId) (mo !! opId)) as Hmo.
  { destruct Hpre as [|x| |x op Hop Hst| |u image text opts Hnone|x f Hcur Hf].
    - apply record_step_refl.
    - rewrite lookup_alter. case_decide; [subst|apply record_step_refl].
      destruct (operations q !! opId); cbn; auto.
    - rewrite cleanup_lookup. destruct (operations q !! opId) as [op|] eqn:Hop; [|done].
      destruct (expired now op) eqn:Hex; cbn; [|by right].
      by apply (expired_terminal now).
    - rewrite lookup_alter. case_decide; [subst|apply record_step_refl].
      rewrite Hop. cbn. left. by rewrite Hst.
    - rewrite foldl_alter_lookup by apply HS.
      case_decide as Hin; [|apply record_step_refl].
      destruct (operations q !! opId) as [op|] eqn:Hop; [|done].
      cbn. left. by rewrite (proj2 (store_queued _ _ _ HS _ _ Hop) Hin).
    - rewrite lookup_insert. case_decide; [subst|apply record_step_refl].
      by rewrite Hnone.
    - rewrite lookup_alter. case_decide; [subst|apply record_step_refl].
      destruct (store_current _ _ _ HS _ Hcur) as [op Hop]. rewrite Hop. cbn.
      pose proof (proj2 (store_processing _ _ _ HS _ _ Hop) Hcur) as Hst.
      destruct (store_wf _ _ _ HS _ _ Hop) as (_ & Hres & Herr).
      destruct (Hf op Hst) as (_ & Hterm & _).
      { apply eq_None_not_Some. rewrite Hres, Hst. done. }
      { apply eq_None_not_Some. rewrite Herr, Hst. done. }
      left. rewrite Hst. by destruct Hterm as [-> | ->]. }
  apply (record_step_then_pick now _ _ _ Hmo).
  destruct Hpicks as [(-> & _ & _)|(x & rest & op & _ & Hop & Hst & _ & -> & _ & _)];
    [by left|].
  rewrite lookup_alter. case_decide; [subst|by left].
  right. exists op. by rewrite Hop.
Qed.
End ShapeFacts.

(** ** Reachable states *)

Lemma fresh_cons ev tr t :
  fresh ev (t :: tr) → fresh ev tr.
Proof.
  intros H u Hu Hin. apply (H u Hu). unfold uuids in *. cbn.
  destruct (uuid_of (t_ev t)); [apply elem_of_cons; by right|done].
Qed.

Lemma uuids_cons t tr :
  uuids (t :: tr) =
  match uuid_of (t_ev t) with Some u => u :: uuids tr | None => uuids tr end.
Proof. unfold uuids. cbn. by destruct (uuid_of (t_ev t)). Qed.

(** Every reachable state satisfies the invariant, and every record in
    its store was created under an identifier minted in the execution. *)
Lemma exec_Inv tr q :
  exec tr q →
  Inv q ∧ ∀ opId, is_Some (operations q !! opId) → opId ∈ uuids tr.
Proof.
  induction 1 as [|tr q now ev q' Hexec [IHInv IHdom] Hfresh Hstep].
  - split; [apply Inv_init|]. intros opId [? ?]. done.
  - assert (∀ u, uuid_of ev = Some u → operations q !! u = None) as Hnew.
    { intros u Hu. apply eq_None_not_Some. intros Hsome%IHdom.
      by apply (Hfresh u Hu). }
    split; [by eapply Inv_step|].
    intros opId Hsome. rewrite uuids_cons. cbn.
    pose proof (step_effect now q IHInv ev q' Hnew Hstep) as Hshape.
    destruct (shape_created now ev q q' IHInv Hshape opId Hsome) as [Hold|Hadm].
    + apply IHdom in Hold. destruct (uuid_of ev); [apply elem_of_cons; by right|done].
    + apply admitted_uuid in Hadm. cbn in Hadm. rewrite Hadm.
      apply elem_of_cons. by left.
Qed.

Lemma exec_fresh_store tr q ev :
  exec tr q → fresh ev tr →
  ∀ u, uuid_of ev = Some u → operations q !! u = None.
Proof.
  intros Hexec Hfresh u Hu. apply eq_None_not_Some.
  intros Hsome. apply (exec_Inv _ _ Hexec) in Hsome. by apply (Hfresh u Hu).
Qed.

Lemma exec_shape tr q now ev q' :
  exec tr q → fresh ev tr → step now ev q = Some q' →
  StepShape now ev q q'.
Proof.
  intros Hexec Hfresh Hstep. apply step_effect; [apply (exec_Inv _ _ Hexec)| |done].
  by eapply exec_fresh_store.
Qed.

(** ** Running a scenario *)

Definition freshb (ev : Event) (tr : list Transition) : bool :=
  match uuid_of ev with
  | Some u => bool_decide (u ∉ uuids tr)
  | None => true
  end.

(** [play evs tr q] takes the transitions [evs] (earliest first) from [q],
    recording them in front of [tr]. *)
Fixpoint play (evs : list (Z * Event)) (tr : list Transition) (q : VeedQueue) : option (list Transition * VeedQueue) :=
  match evs with
  | [] => Some (tr, q)
  | (now, ev) :: evs' =>
      if freshb ev tr then
        match step now ev q with
        | Some q' => play evs' (mkTransition now ev q q' :: tr) q'
        | None => None
        end
      else None
  end.

Lemma play_exec evs tr q tr' q' :
  exec tr q → play evs tr q = Some (tr', q') → exec tr' q'.
Proof.
  revert tr q. induction evs as [|[now ev] evs IH]; intros tr q Hexec Hplay.
  - cbn in Hplay. by injection Hplay as <- <-.
  - cbn in Hplay. destruct (freshb ev tr) eqn:Hfresh; [|done].
    destruct (step now ev q) as [q1|] eqn:Hstep; [|done].
    apply (IH _ _ (exec_step tr q now ev q1 Hexec
                     ltac:(intros u Hu; unfold freshb in Hfresh;
                           rewrite Hu in Hfresh;
                           by apply bool_decide_eq_true in Hfresh)
                     Hstep) Hplay).
Defined.

Definition no_options : Options := mkOptions None None.
Definition a_video : VideoResult := mkVideoResult "https://cdn/v.mp4" None.

(** Three requests arrive while the service starts; the second is
    cancelled; the service comes up and the first starts. *)
Definition scenario_started : list (Z * Event) :=
  [ (0, CallEnqueue "A" "a.png" "pan" no_options);
    (1, CallEnqueue "B" "b.png" "zoom" no_options);
    (2, CallEnqueue "C" "c.png" "tilt" no_options);
    (3, CallCancel "B");
    (4, InitSettled true) ].

(** ** C1: single concurrency *)

Lemma map_size_le_1 (m : gmap string Operation) :
  (∀ i j x y, m !! i = Some x → m !! j = Some y → i = j) → (size m ≤ 1)%nat.
Proof.
  intros Huniq. destruct (map_choose_or_empty m) as [(i & x & Hix)| ->].
  - assert (m = {[i := x]}) as ->; [|rewrite map_size_singleton; lia].
    apply map_eq. intros j. destruct (decide (i = j)) as [->|Hne].
    + by rewrite lookup_singleton_eq.
    + rewrite lookup_singleton_ne by done.
      apply eq_None_not_Some. intros [y Hy]. apply Hne. by eapply Huniq.
  - rewrite map_size_empty. lia.
Qed.

(** The records that are being processed. *)
Definition processing (q : VeedQueue) : gmap string Operation :=
  filter (λ kv, status kv.2 = PROCESSING) (operations q).

(** C1. In every reachable state of the queue (whatever sequence of
    enqueue calls, loop resumptions, cancellations and reaper sweeps led
    to it), at most one record of the operation store has status
    [PROCESSING]: two records that are processing are the same record,
    and the processing records number at most one. *)
Theorem C1_at_most_one_processing tr q :
  exec tr q →
  (∀ id1 id2 op1 op2,
      operations q !! id1 = Some op1 → operations q !! id2 = Some op2 →
      status op1 = PROCESSING → status op2 = PROCESSING → id1 = id2) ∧
  (size (processing q) ≤ 1)%nat.
Proof.
  intros Hexec. destruct (exec_Inv _ _ Hexec) as [[HS _] _].
  assert (∀ id1 id2 op1 op2,
      operations q !! id1 = Some op1 → operations q !! id2 = Some op2 →
      status op1 = PROCESSING → status op2 = PROCESSING → id1 = id2) as Huniq.
  { intros id1 id2 op1 op2 H1 H2 Hp1 Hp2.
    apply (store_processing _ _ _ HS _ _ H1) in Hp1.
    apply (store_processing _ _ _ HS _ _ H2) in Hp2. congruence. }
  split; [done|].
  apply map_size_le_1. intros i j x y Hi Hj.
  apply map_lookup_filter_Some in Hi as [Hi Hsi], Hj as [Hj Hsj].
  by eapply Huniq.
Qed.

Lemma C1_at_most_one_processing_witness :
  ∃ tr q, play scenario_started [] init = Some (tr, q) ∧
    (status <$> operations q !! "A") = Some PROCESSING ∧
    (size (processing q) ≤ 1)%nat.
Proof.
  eexists _, _. split; [vm_compute; reflexivity|].
  split; [vm_compute; reflexivity|].
  refine (proj2 (C1_at_most_one_processing _ _
           (play_exec scenario_started [] init _ _ exec_init _))).
  vm_compute; reflexivity.
Defined.

(** ** C2: the life of a record *)

(** The three complete paths of a record. *)
Definition permitted_paths : list (list OperationStatus) :=
  [ [QUEUED; PROCESSING; COMPLETED];
    [QUEUED; PROCESSING; FAILED];
    [QUEUED; FAILED] ].

(** A history that is the beginning of a permitted path. *)
Definition on_path (h : list OperationStatus) : Prop :=
  ∃ p, p ∈ permitted_paths ∧ h `prefix_of` p.

Definition on_pathb (h : list OperationStatus) : bool :=
  bool_decide (h ∈ [ []; [QUEUED]; [QUEUED; PROCESSING];
                     [QUEUED; PROCESSING; COMPLETED];
                     [QUEUED; PROCESSING; FAILED]; [QUEUED; FAILED] ]).

Lemma on_pathb_sound h : on_pathb h = true → on_path h.
Proof.
  intros H%bool_decide_eq_true. unfold on_path, permitted_paths.
  repeat (apply elem_of_cons in H as [->|H]).
  - exists [QUEUED; FAILED]. split; [set_solver|]. by exists [QUEUED; FAILED].
  - exists [QUEUED; FAILED]. split; [set_solver|]. by exists [FAILED].
  - exists [QUEUED; PROCESSING; COMPLETED]. split; [set_solver|]. by exists [COMPLETED].
  - exists [QUEUED; PROCESSING; COMPLETED]. split; [set_solver|]. by exists [].
  - exists [QUEUED; PROCESSING; FAILED]. split; [set_solver|]. by exists [].
  - exists [QUEUED; FAILED]. split; [set_solver|]. by exists [].
  - by apply elem_of_nil in H.
Qed.

Lemma compress_cons2 x y l :
  compress (x :: y :: l) =
  if decide (x = y) then compress (y :: l) else x :: compress (y :: l).
Proof. done. Qed.

Lemma compress_snoc l a :
  compress (l ++ [a]) =
  if decide (last l = Some a) then compress l else compress l ++ [a].
Proof.
  induction l as [|x l IH]; [done|].
  destruct l as [|y l].
  - cbn. destruct (decide (x = a)) as [->|Hne].
    + by rewrite decide_True.
    + rewrite decide_False; [done|]. by intros [= ->].
  - change ((x :: y :: l) ++ [a]) with (x :: y :: (l ++ [a])).
    change (last (x :: y :: l)) with (last (y :: l)).
    rewrite !compress_cons2. change (y :: (l ++ [a])) with ((y :: l) ++ [a]).
    rewrite IH. by repeat case_decide.
Qed.

Lemma compress_nonempty x l : compress (x :: l) ≠ [].
Proof.
  revert x. induction l as [|y l IH]; intros x; [done|].
  rewrite compress_cons2. case_decide; [apply IH|done].
Qed.

Lemma last_compress l : last (compress l) = last l.
Proof.
  induction l as [|x l IH]; [done|].
  destruct l as [|y l]; [done|].
  change (last (x :: y :: l)) with (last (y :: l)).
  rewrite compress_cons2. case_decide; [done|].
  rewrite <- IH. pose proof (compress_nonempty y l).
  by destruct (compress (y :: l)).
Qed.

Lemma on_pathb_extend c a b :
  on_pathb c = true → last c = Some a → status_edge a b = true →
  on_pathb (c ++ [b]) = true.
Proof.
  intros H%bool_decide_eq_true Hlast Hedge.
  repeat (apply elem_of_cons in H as [->|H]); cbn in Hlast;
    try (by apply elem_of_nil in H); try done;
    injection Hlast as <-; by destruct b.
Qed.

(** A history [h] follows what the store holds for the record. *)
Definition Tracks (h : list OperationStatus) (o : option Operation) : Prop :=
  on_pathb (compress h) = true ∧
  match o with Some op => last h = Some (status op) | None => True end.

Lemma Tracks_extend h o o' :
  Tracks h o →
  (o = None → ∀ op', o' = Some op' → h = [] ∧ status op' = QUEUED) →
  record_step o o' →
  Tracks (h ++ option_list (status <$> o')) o'.
Proof.
  intros [Hok Hlast] Hnew Hstep. destruct o' as [op'|]; cbn.
  2:{ rewrite app_nil_r. by split. }
  split; [|by rewrite last_snoc].
  rewrite compress_snoc. destruct o as [op|].
  - cbn in Hstep. destruct Hstep as [Hedge|(Hs & _ & _)].
    + rewrite decide_False.
      * apply (on_pathb_extend _ (status op)); [done| |done].
        by rewrite last_compress.
      * rewrite Hlast. intros [= Heq]. rewrite Heq in Hedge.
        by destruct (status op').
    + rewrite decide_True; [done|]. by rewrite Hlast, Hs.
  - destruct (Hnew eq_refl op' eq_refl) as [-> ->]. done.
Qed.

Lemma processQueue_lookup now q c opId :
  Store (operations q) (queue q) c →
  operations (processQueue now q) !! opId = operations q !! opId ∨
  ∃ op, operations q !! opId = Some op ∧ status op = QUEUED ∧
        operations (processQueue now q) !! opId = Some (mark_processing now op).
Proof.
  intros HS. unfold processQueue. destruct (isProcessing q); [by left|].
  destruct (processLoop_effect now false (set_isProcessing true q) c HS)
    as [(Ho & _ & _)|(x & rest & op & _ & Hop & Hst & Ho & _ & _)];
    cbn in *; rewrite Ho; [by left|].
  rewrite lookup_alter. case_decide; [subst|by left].
  right. exists op. by rewrite Hop.
Qed.

Lemma statuses_in_two opId q1 q2 :
  statuses_in opId [q1; q2] =
  option_list (status <$> operations q1 !! opId) ++
  option_list (status <$> operations q2 !! opId).
Proof.
  unfold statuses_in. cbn.
  by destruct (operations q1 !! opId), (operations q2 !! opId).
Qed.

Lemma statuses_in_one opId q1 :
  statuses_in opId [q1] = option_list (status <$> operations q1 !! opId).
Proof. unfold statuses_in. cbn. by destruct (operations q1 !! opId). Qed.

(** The history of a record follows the store, and is empty as long as
    its identifier has not been minted. *)
Lemma history_tracks tr q opId :
  exec tr q →
  Tracks (status_history opId tr) (operations q !! opId) ∧
  (opId ∉ uuids tr → status_history opId tr = []).
Proof.
  induction 1 as [|tr q now ev q' Hexec [IHt IHe] Hfresh Hstep].
  { split; [|done]. by split. }
  pose proof (exec_Inv _ _ Hexec) as [HInv Hdom].
  pose proof (exec_shape _ _ _ _ _ Hexec Hfresh Hstep) as Hshape.
  pose proof (exec_Inv _ _ (exec_step _ _ _ _ _ Hexec Hfresh Hstep)) as [HInv' Hdom'].
  assert (∀ uuid image text opts,
            ev = CallEnqueue uuid image text opts →
            bool_decide (maxQueueSize ≤ pendingCount q) = false →
            Tracks (status_history opId tr ++
                      statuses_in opId [admit_operation now uuid image text opts q; q'])
                   (operations q' !! opId)) as Hadmit.
  { intros uuid image text opts -> Hfull.
    cbn in Hstep. unfold enqueue in Hstep. rewrite Hfull in Hstep.
    cbn in Hstep. injection Hstep as <-.
    assert (operations q !! uuid = None) as Hnone
      by (by apply (exec_fresh_store _ _ _ Hexec Hfresh)).
    rewrite statuses_in_two, app_assoc.
    pose proof (Inv_admit now q HInv uuid image text opts Hnone) as HS1.
    apply (Tracks_extend _
             (operations (admit_operation now uuid image text opts q) !! opId));
      [apply (Tracks_extend _ (operations q !! opId)); [done| |]| |].
    - cbn. rewrite lookup_insert.
      destruct (decide (uuid = opId)) as [<-|Hu]; [|congruence].
      intros _ op' [= <-]. split; [|done]. apply IHe. by apply Hfresh.
    - cbn. rewrite lookup_insert.
      destruct (decide (uuid = opId)) as [<-|Hu]; [|apply record_step_refl].
      by rewrite Hnone.
    - intros Hn op' Ho'.
      destruct (processQueue_lookup now _ _ opId HS1) as [Heq|(op & Hop & _)];
        congruence.
    - eapply record_step_then_pick; [apply record_step_refl|].
      apply (processQueue_lookup now _ _ opId HS1). }
  assert (admitted (mkTransition now ev q q') = None →
          Tracks (status_history opId tr ++ statuses_in opId [q'])
                 (operations q' !! opId)) as Hplain.
  { intros Hadm. rewrite statuses_in_one.
    apply (Tracks_extend _ (operations q !! opId)); [done| |].
    - intros Hn op' Ho'.
      destruct (shape_created now ev q q' HInv Hshape opId) as [[? ?]|?];
        [by rewrite Ho'|congruence..].
    - apply (shape_record now ev q q' HInv Hshape). }
  split.
  - cbn [status_history]. unfold passes. cbn [t_ev t_pre t_post t_now].
    destruct ev; try (by apply Hplain).
    destruct (bool_decide (maxQueueSize ≤ pendingCount q)) eqn:Hfull.
    + apply Hplain. unfold admitted, enqueue_reply, enqueue. cbn. by rewrite Hfull.
    + by eapply Hadmit.
  - intros Hnotin. cbn [status_history].
    assert (opId ∉ uuids tr) as Hnotin'.
    { intros Hin. apply Hnotin. rewrite uuids_cons. cbn.
      destruct (uuid_of ev); [apply elem_of_cons; by right|done]. }
    rewrite (IHe Hnotin'). cbn.
    assert (operations q' !! opId = None) as Hq'.
    { apply eq_None_not_Some. by intros ?%Hdom'. }
    assert (operations q !! opId = None) as Hq.
    { apply eq_None_not_Some. by intros ?%Hdom. }
    unfold passes. cbn [t_ev t_pre t_post t_now].
    destruct ev; try (by rewrite statuses_in_one, Hq').
    case_bool_decide; [by rewrite statuses_in_one, Hq'|].
    rewrite statuses_in_two, Hq'. cbn. rewrite lookup_insert.
    destruct (decide (uuid = opId)) as [<-|Hu]; [|by rewrite Hq].
    exfalso. apply Hnotin. rewrite uuids_cons. cbn.
    apply elem_of_cons. by left.
Qed.

(** C2. For every record and every reachable execution, the sequence of
    values taken by the record's status follows one of the permitted
    paths Queued → Processing → Completed, Queued → Processing → Failed,
    or Queued → Failed (a queued record fails by cancellation, or with
    the whole queue when the service cannot be initialized): the sequence
    so far is the beginning of one of the three paths.  No transition
    moves a record back to Queued or out of Completed or Failed. *)
Theorem C2_status_paths tr q :
  exec tr q →
  (∀ opId, on_path (compress (status_history opId tr))) ∧
  (∀ now ev q' opId op op',
      fresh ev tr → step now ev q = Some q' →
      operations q !! opId = Some op → operations q' !! opId = Some op' →
      (status op' = QUEUED → status op = QUEUED) ∧
      (status op = COMPLETED ∨ status op = FAILED → status op' = status op)).
Proof.
  intros Hexec. split.
  - intros opId. apply on_pathb_sound.
    apply (history_tracks tr q opId Hexec).
  - intros now ev q' opId op op' Hfresh Hstep Hop Hop'.
    pose proof (exec_Inv _ _ Hexec) as [HInv _].
    pose proof (exec_shape _ _ _ _ _ Hexec Hfresh Hstep) as Hshape.
    pose proof (shape_record now ev q q' HInv Hshape opId) as Hrec.
    rewrite Hop, Hop' in Hrec. cbn in Hrec.
    destruct Hrec as [Hedge|(Hs & _ & _)].
    + split.
      * intros Hq. rewrite Hq in Hedge. by destruct (status op).
      * intros [Ht|Ht]; rewrite Ht in Hedge; done.
    + split; [congruence|done].
Qed.

(** A request is served and finishes, a second one was cancelled. *)
Definition scenario_completed : list (Z * Event) :=
  scenario_started ++
  [ (5, ServiceObtained "A");
    (90000, ExecResolved "A" a_video) ].

Lemma C2_status_paths_witness :
  ∃ tr q, play scenario_completed [] init = Some (tr, q) ∧
    compress (status_history "A" tr) = [QUEUED; PROCESSING; COMPLETED] ∧
    compress (status_history "B" tr) = [QUEUED; FAILED] ∧
    compress (status_history "C" tr) = [QUEUED; PROCESSING] ∧
    on_path (compress (status_history "A" tr)).
Proof.
  eexists _, _. split; [vm_compute; reflexivity|].
  do 3 (split; [vm_compute; reflexivity|]).
  refine (proj1 (C2_status_paths _ _
           (play_exec scenario_completed [] init _ _ exec_init _)) "A").
  vm_compute; reflexivity.
Defined.

(** ** C3: first in, first out *)

Lemma reverse_omap_cons {A B} (f : A → option B) (x : A) (l : list A) :
  reverse (omap f (x :: l)) = reverse (omap f l) ++ option_list (f x).
Proof.
  change (omap f (x :: l)) with
    (match f x with Some y => y :: omap f l | None => omap f l end).
  destruct (f x); cbn [option_list]; [by rewrite reverse_cons|by rewrite app_nil_r].
Qed.

Lemma arrivals_cons t tr :
  arrivals (t :: tr) = arrivals tr ++ option_list (admitted t).
Proof. apply reverse_omap_cons. Qed.

Lemma started_cons t tr :
  started (t :: tr) = started tr ++ option_list (picked t).
Proof. apply reverse_omap_cons. Qed.

(** What a transition takes from the queue to process, followed by what
    it leaves queued, is in the order of what was queued before followed
    by what it admitted. *)
Lemma shape_fifo now ev q q' :
  Inv q → StepShape now ev q q' →
  option_list (picked (mkTransition now ev q q')) ++ queue q'
    `sublist_of` queue q ++ option_list (admitted (mkTransition now ev q q')).
Proof.
  intros [HS HC] [mo mq mc adm Hpre Hadm HSm Hpicks]. rewrite Hadm.
  assert (mq `sublist_of` queue q ++ option_list adm) as Hmq.
  { destruct Hpre; cbn; rewrite ?app_nil_r; try done.
    - apply sublist_filter.
    - apply sublist_nil_l. }
  assert (mc = currentOperation q ∨ mc = None) as Hmc.
  { destruct Hpre; auto. }
  unfold picked. cbn [t_pre t_post].
  destruct Hpicks as [(_ & -> & ->)|(x & rest & op & -> & Hop & Hst & -> & _ & -> & ->)].
  - destruct mc as [x|]; [|done].
    destruct Hmc as [<-|?]; [|done]. by rewrite decide_True.
  - rewrite decide_False; [done|]. intros Hcur.
    destruct Hmc as [Hmc|_]; [congruence|].
    inversion Hpre as [| | | | | |x' f Hcur' Hf Ho]; subst; try congruence.
    rewrite Hcur in Hcur'. injection Hcur' as <-.
    destruct (store_current _ _ _ HS _ Hcur) as [op0 Hop0].
    pose proof (proj2 (store_processing _ _ _ HS _ _ Hop0) Hcur) as Hst0.
    destruct (store_wf _ _ _ HS _ _ Hop0) as (_ & Hres & Herr).
    destruct (Hf op0 Hst0) as (_ & Hterm & _).
    { apply eq_None_not_Some. rewrite Hres, Hst0. done. }
    { apply eq_None_not_Some. rewrite Herr, Hst0. done. }
    rewrite lookup_alter_eq, Hop0 in Hop. injection Hop as <-.
    destruct Hterm; congruence.
Qed.

Lemma arrivals_minted tr q :
  exec tr q → NoDup (arrivals tr) ∧ ∀ u, u ∈ arrivals tr → u ∈ uuids tr.
Proof.
  induction 1 as [|tr q now ev q' Hexec [IHnd IHin] Hfresh Hstep].
  { split; [apply NoDup_nil_2|]. by intros u ?%elem_of_nil. }
  rewrite arrivals_cons, uuids_cons. cbn [t_ev].
  destruct (admitted _) as [u|] eqn:Hadm; cbn.
  - pose proof (admitted_uuid _ _ Hadm) as Hu. cbn in Hu. rewrite Hu. split.
    + apply NoDup_app. split; [done|]. split; [|apply NoDup_singleton].
      intros x Hx Hx'. apply list_elem_of_singleton in Hx' as ->.
      apply (Hfresh u Hu). by apply IHin.
    + intros x [Hx| ->%list_elem_of_singleton]%elem_of_app.
      * apply elem_of_cons. right. by apply IHin.
      * apply elem_of_cons. by left.
  - rewrite app_nil_r. split; [done|]. intros x Hx%IHin.
    destruct (uuid_of ev); [apply elem_of_cons; by right|done].
Qed.

(** A transition that leaves the current operation as it was, or leaves
    none, starts nothing. *)
Lemma picked_unchanged now ev q q' :
  currentOperation q' = currentOperation q ∨ currentOperation q' = None →
  picked (mkTransition now ev q q') = None.
Proof.
  unfold picked. cbn [t_pre t_post]. intros [->| ->]; [|done].
  destruct (currentOperation q); [by rewrite decide_True|done].
Qed.

(** A pass of the loop that starts an operation takes the head of the
    queue it was entered with. *)
Lemma loop_pick_head now ev q q1 skipGate opId :
  Store (operations q1) (queue q1) (currentOperation q1) →
  currentOperation q1 = currentOperation q ∨ currentOperation q1 = None →
  picked (mkTransition now ev q (processLoop now skipGate (queue q1) q1)) = Some opId →
  ∃ rest, queue q1 = opId :: rest ∧
          queue (processLoop now skipGate (queue q1) q1) = rest.
Proof.
  intros HS Hcur Hpick.
  destruct (processLoop_effect now skipGate q1 _ HS)
    as [(_ & _ & Hc)|(x & rest & op & Hq & _ & _ & _ & Hq' & Hc)].
  - rewrite picked_unchanged in Hpick; [done|]. rewrite Hc. exact Hcur.
  - unfold picked in Hpick. cbn [t_pre t_post] in Hpick. rewrite Hc in Hpick.
    case_decide; [done|]. injection Hpick as ->. by exists rest.
Qed.

(** Whatever the event, the operation a transition starts is the head of
    the pending queue (of the queue with the admitted request appended,
    for an enqueue), and the rest of it stays queued in its order. *)
Lemma step_pick_head now ev q q' opId :
  Inv q → (∀ u, uuid_of ev = Some u → operations q !! u = None) →
  step now ev q = Some q' →
  picked (mkTransition now ev q q') = Some opId →
  ∃ rest,
    queue q ++ option_list (admitted (mkTransition now ev q q')) = opId :: rest ∧
    queue q' = rest.
Proof.
  intros HInv Hfresh Hstep Hpick. pose proof HInv as [HS HC].
  assert (∀ q1 f x,
    operations q1 = operations q → queue q1 = queue q →
    drain q = Some (AwaitExec x) → settles f →
    let q2 := set_currentOperation None (mutate f x q1) in
    q' = processLoop now false (queue q2) q2 →
    ∃ rest, queue q = opId :: rest ∧ queue q' = rest) as Hsettle.
  { intros q1 f x Ho Hq Hd Hf q2 ->.
    assert (currentOperation q = Some x) as Hcur
      by (by rewrite (ctl_current _ HC), Hd).
    assert (Store (operations q2) (queue q2) (currentOperation q2)) as HS2.
    { cbn. rewrite Ho, Hq. apply Store_settle; [|done]. rewrite <- Hcur. exact HS. }
    destruct (loop_pick_head now ev q q2 false opId HS2 (or_intror eq_refl) Hpick)
      as (rest & Hq2 & Hrest).
    exists rest. split; [|done]. cbn in Hq2. by rewrite <- Hq. }
  assert (∀ q1,
    operations q1 = operations q → queue q1 = queue q →
    currentOperation q1 = currentOperation q →
    q' = resumeAfterInit now (serviceReady q1) q1 →
    ∃ rest, queue q = opId :: rest ∧ queue q' = rest) as Hinit.
  { intros q1 Ho Hq Hc ->. unfold resumeAfterInit in *.
    destruct (serviceReady q1).
    - assert (Store (operations q1) (queue q1) (currentOperation q1)) as HS1
        by (by rewrite Ho, Hq, Hc).
      destruct (loop_pick_head now ev q q1 true opId HS1 (or_introl Hc) Hpick)
        as (rest & Hq1 & Hrest).
      exists rest. by rewrite <- Hq.
    - rewrite picked_unchanged in Hpick; [done|]. left. by cbn. }
  assert (admitted (mkTransition now ev q q') = None →
          (∃ rest, queue q = opId :: rest ∧ queue q' = rest) →
          ∃ rest, queue q ++ option_list (admitted (mkTransition now ev q q')) =
                    opId :: rest ∧ queue q' = rest) as Hplain.
  { intros -> (rest & ? & ?). exists rest. by rewrite app_nil_r. }
  assert (currentOperation q' = currentOperation q → False) as Hsame.
  { intros Hc. rewrite picked_unchanged in Hpick; [done|by left]. }
  destruct ev; cbn in Hstep.
  - (* enqueue *)
    injection Hstep as Hq'. specialize (Hfresh uuid eq_refl).
    unfold enqueue in Hq'.
    destruct (bool_decide (maxQueueSize ≤ pendingCount q)) eqn:Hfull.
    { cbn in Hq'. subst q'. by destruct Hsame. }
    cbn [snd] in Hq'.
    assert (admitted (mkTransition now (CallEnqueue uuid image text opts) q q')
              = Some uuid) as ->.
    { unfold admitted, enqueue_reply, enqueue. cbn. by rewrite Hfull. }
    cbn [option_list].
    unfold processQueue in Hq'.
    cbn [isProcessing admit_operation set_queue set_operations] in Hq'.
    destruct (isProcessing q) eqn:Hproc.
    { subst q'. by destruct Hsame. }
    pose proof (isProcessing_false_idle q HInv Hproc) as Hidle.
    pose proof (drain_None_current q HInv Hidle) as Hcur.
    pose proof (Inv_admit now q HInv uuid image text opts Hfresh) as HS1.
    subst q'.
    apply (loop_pick_head now (CallEnqueue uuid image text opts) q
             (set_isProcessing true (admit_operation now uuid image text opts q))
             false opId); [exact HS1|by left|exact Hpick].
  - injection Hstep as <-. by destruct Hsame.
  - (* cancel *)
    injection Hstep as <-. destruct Hsame. unfold cancel.
    destruct (operations q !! opId0); [|done]. by case_decide.
  - injection Hstep as <-. destruct Hsame.
    unfold initializeService. by repeat case_match.
  - destruct (serviceInitializing q) eqn:Hini; [|done].
    injection Hstep as Hq'. apply Hplain; [done|].
    unfold initSettled in Hq'. case_decide as Hd.
    + by apply (Hinit (set_serviceInitializing false (set_serviceReady ok q))).
    + subst q'. by destruct Hsame.
  - case_decide as Hd; [|done]. injection Hstep as Hq'. apply Hplain; [done|].
    unfold pollWake in Hq'.
    destruct (serviceInitializing q); [subst q'; by destruct Hsame|].
    by apply (Hinit q).
  - destruct (executions q !! opId0) as [[|]|]; try done.
    injection Hstep as <-. by destruct Hsame.
  - destruct (executions q !! opId0) as [[|]|]; try done.
    injection Hstep as Hq'. apply Hplain; [done|].
    unfold execResolved in Hq'. case_decide as Hd.
    + apply (Hsettle (set_executions (delete opId0 (executions q)) q)
               (complete_with r now) opId0); try done. apply settles_complete.
    + subst q'. by destruct Hsame.
  - destruct (executions q !! opId0) as [?|]; try done.
    injection Hstep as Hq'. apply Hplain; [done|].
    unfold execRejected in Hq'. case_decide as Hd.
    + apply (Hsettle (set_executions (delete opId0 (executions q)) q)
               (fail_with msg now) opId0); try done. apply settles_fail.
    + subst q'. by destruct Hsame.
  - destruct (timers q !! opId0) as [due|]; try done.
    case_bool_decide; [|done]. injection Hstep as Hq'. apply Hplain; [done|].
    unfold timerFired in Hq'. case_decide as Hd.
    + apply (Hsettle (set_timers (delete opId0 (timers q)) q)
               (fail_with msg_timeout now) opId0); try done. apply settles_fail.
    + subst q'. by destruct Hsame.
  - injection Hstep as <-. by destruct Hsame.
Qed.

(** The status the store holds for an identifier, if it holds a record. *)
Definition status_of (opId : Id) (q : VeedQueue) : option OperationStatus :=
  status <$> operations q !! opId.

(** [x] was admitted before [y]. *)
Definition arrived_before (tr : list Transition) (x y : Id) : Prop :=
  ∃ i j, arrivals tr !! i = Some x ∧ arrivals tr !! j = Some y ∧ (i < j)%nat.

Lemma sublist_pair_lookup (x y : Id) (l k : list Id) :
  y ∈ l → x :: l `sublist_of` k →
  ∃ i j, k !! i = Some x ∧ k !! j = Some y ∧ (i < j)%nat.
Proof.
  intros Hy (k1 & k2 & -> & Hsub)%sublist_cons_l.
  assert (y ∈ k2) as [n Hn]%list_elem_of_lookup.
  { by apply (elem_of_sublist l k2 y). }
  exists (length k1), (length k1 + S n)%nat. split_and!; [| |lia].
  - by rewrite lookup_app_r, Nat.sub_diag by lia.
  - rewrite lookup_app_r by lia.
    replace (length k1 + S n - length k1)%nat with (S n) by lia. done.
Qed.

Lemma arrived_before_asym tr x y :
  NoDup (arrivals tr) → arrived_before tr x y → ¬ arrived_before tr y x.
Proof.
  intros Hnd (i & j & Hi & Hj & Hij) (j' & i' & Hj' & Hi' & Hji).
  pose proof (NoDup_lookup _ _ _ _ Hnd Hi Hi').
  pose proof (NoDup_lookup _ _ _ _ Hnd Hj Hj'). lia.
Qed.

(** The operations started so far, followed by the pending queue, are in
    the order of arrival. *)
Lemma fifo_order tr q :
  exec tr q → started tr ++ queue q `sublist_of` arrivals tr.
Proof.
  induction 1 as [|tr q now ev q' Hexec IH Hfresh Hstep]; [done|].
  rewrite arrivals_cons, started_cons, <- app_assoc.
  pose proof (exec_Inv _ _ Hexec) as [HInv _].
  pose proof (exec_shape _ _ _ _ _ Hexec Hfresh Hstep) as Hshape.
  etrans; [apply sublist_app; [reflexivity|by apply shape_fifo]|].
  rewrite app_assoc. apply sublist_app; [done|reflexivity].
Qed.

Lemma fifo_nodup tr q : exec tr q → NoDup (started tr ++ queue q).
Proof.
  intros Hexec. eapply sublist_NoDup; [|by apply fifo_order].
  apply (arrivals_minted _ _ Hexec).
Qed.

Lemma exec_suffix tr1 tr0 q : exec (tr1 ++ tr0) q → ∃ q0, exec tr0 q0.
Proof.
  revert q. induction tr1 as [|t tr1 IH]; intros q Hexec; [by exists q|].
  cbn in Hexec. inversion Hexec; subst. by eapply IH.
Qed.

(** An identifier that was minted, is not pending and was not started is
    never pending again and never started. *)
Lemma left_unstarted tr0 opId tr q :
  opId ∈ uuids tr0 →
  (∀ q0, exec tr0 q0 → opId ∉ queue q0) → opId ∉ started tr0 →
  exec (tr ++ tr0) q →
  (opId ∉ queue q) ∧ (opId ∉ started (tr ++ tr0)).
Proof.
  intros Hminted Hq0 Hs0. revert q.
  induction tr as [|t tr IH]; intros q Hexec; [split; [by apply Hq0|done]|].
  cbn in Hexec. inversion Hexec as [|? qp now ev ? Hexecp Hfresh Hstep]; subst.
  destruct (IH _ Hexecp) as [IHq IHs].
  pose proof (exec_Inv _ _ Hexecp) as [HInv _].
  pose proof (shape_fifo now ev qp q HInv
                (exec_shape _ _ _ _ _ Hexecp Hfresh Hstep)) as Hsub.
  assert (opId ∉ option_list (picked (mkTransition now ev qp q)) ++ queue q) as Hn.
  { intros Hin. apply (λ H, elem_of_sublist _ _ opId Hin H) in Hsub.
    apply elem_of_app in Hsub as [?|Hadm]; [done|].
    destruct (admitted _) as [u|] eqn:Ha; cbn in Hadm;
      [|by apply elem_of_nil in Hadm].
    apply list_elem_of_singleton in Hadm as ->.
    apply admitted_uuid in Ha. cbn in Ha. apply (Hfresh _ Ha).
    unfold uuids. rewrite omap_app. apply elem_of_app. by right. }
  rewrite not_elem_of_app in Hn. destruct Hn as [Hp Hq]. split; [done|].
  cbn [app]. rewrite started_cons. rewrite not_elem_of_app. done.
Qed.

(** C3. Operations reach Processing in the order of their arrival.  In
    every reachable state the operations started so far, followed by the
    pending queue, are in the order in which enqueue admitted them (no
    identifier is admitted twice), and the pending queue holds exactly the
    identifiers of the records with status Queued.  In every transition a
    record reaches status Processing exactly when the transition makes it
    the current operation, and it is then the head of the pending queue
    (with the admitted request appended, for an enqueue); the rest of the
    queue stays queued; every record still Queued afterwards arrived
    later, and no record that arrived earlier is still Queued: a queued
    record is never overtaken.  Cancelling a queued operation removes its
    identifier from the pending queue and leaves the other identifiers in
    their order and the other records as they were; the cancelled record
    is Failed and is not started in any later state. *)
Theorem C3_fifo tr q :
  exec tr q →
  NoDup (arrivals tr) ∧
  started tr ++ queue q `sublist_of` arrivals tr ∧
  (∀ opId, opId ∈ queue q ↔ status_of opId q = Some QUEUED) ∧
  (∀ now ev q' opId,
     fresh ev tr → step now ev q = Some q' →
     (status_of opId q' = Some PROCESSING ∧ status_of opId q ≠ Some PROCESSING
        ↔ picked (mkTransition now ev q q') = Some opId) ∧
     (picked (mkTransition now ev q q') = Some opId →
        (∃ rest,
            queue q ++ option_list (admitted (mkTransition now ev q q')) =
              opId :: rest ∧
            queue q' = rest) ∧
        (∀ x, status_of x q' = Some QUEUED →
              arrived_before (mkTransition now ev q q' :: tr) opId x) ∧
        (∀ x, arrived_before (mkTransition now ev q q' :: tr) x opId →
              status_of x q' ≠ Some QUEUED))) ∧
  (∀ now opId,
     success (cancel now opId q).1 = true →
     queue (cancel now opId q).2 = filter (λ y, y ≠ opId) (queue q) ∧
     status_of opId (cancel now opId q).2 = Some FAILED ∧
     (∀ x, x ≠ opId →
           operations (cancel now opId q).2 !! x = operations q !! x) ∧
     (∀ tr' q2,
        exec (tr' ++ mkTransition now (CallCancel opId) q (cancel now opId q).2 :: tr) q2 →
        opId ∉ started
          (tr' ++ mkTransition now (CallCancel opId) q (cancel now opId q).2 :: tr))).
Proof.
  intros Hexec. pose proof (exec_Inv _ _ Hexec) as [[HS HC] Hdom].
  assert (∀ q0 x, Store (operations q0) (queue q0) (currentOperation q0) →
            x ∈ queue q0 ↔ status_of x q0 = Some QUEUED) as Hqueued.
  { intros q0 x HS0. unfold status_of. split.
    - intros Hin. destruct (store_queue _ _ _ HS0 x Hin) as [op Hop].
      rewrite Hop. cbn. f_equal. by apply (store_queued _ _ _ HS0 _ _ Hop).
    - destruct (operations q0 !! x) as [op|] eqn:Hop; [|done].
      intros [= Hst]. by apply (store_queued _ _ _ HS0 _ _ Hop). }
  assert (∀ q0 x, Store (operations q0) (queue q0) (currentOperation q0) →
            status_of x q0 = Some PROCESSING ↔ currentOperation q0 = Some x)
    as Hcurrent.
  { intros q0 x HS0. unfold status_of. split.
    - destruct (operations q0 !! x) as [op|] eqn:Hop; [|done].
      intros [= Hst]. by apply (store_processing _ _ _ HS0 _ _ Hop).
    - intros Hc. destruct (store_current _ _ _ HS0 x Hc) as [op Hop].
      rewrite Hop. cbn. f_equal. by apply (store_processing _ _ _ HS0 _ _ Hop). }
  split; [apply (arrivals_minted _ _ Hexec)|].
  split; [by apply fifo_order|]. split; [intros x; by apply Hqueued|]. split.
  - intros now ev q' opId Hfresh Hstep.
    pose proof (exec_step _ _ _ _ _ Hexec Hfresh Hstep) as Hexec'.
    pose proof (exec_Inv _ _ Hexec') as [[HS' HC'] _].
    assert (picked (mkTransition now ev q q') = Some opId ↔
            currentOperation q' = Some opId ∧ currentOperation q ≠ Some opId)
      as Hpicked.
    { unfold picked. cbn [t_pre t_post].
      destruct (currentOperation q') as [c|]; [|by intuition].
      case_decide as Hc; split.
      - done.
      - intros [[= ->] ?]. done.
      - intros [= ->]. done.
      - by intros [[= ->] _]. }
    split.
    { rewrite Hpicked, (Hcurrent q' opId HS').
      split; intros [? Hn]; (split; [done|]); intros ?; apply Hn;
        by apply (Hcurrent q opId HS). }
    intros Hpick.
    destruct (step_pick_head now ev q q' opId (conj HS HC)
                (exec_fresh_store _ _ _ Hexec Hfresh) Hstep Hpick)
      as (rest & Hhead & Hrest).
    pose proof (fifo_order _ _ Hexec') as Hord.
    rewrite started_cons, Hpick, Hrest in Hord. cbn [option_list] in Hord.
    rewrite <- app_assoc in Hord. cbn [app] in Hord.
    apply sublist_app_l in Hord as (k1 & k2 & Hk & _ & Hord).
    assert (∀ x, status_of x q' = Some QUEUED →
              arrived_before (mkTransition now ev q q' :: tr) opId x) as Hlater.
    { intros x Hx. apply (Hqueued q' x HS') in Hx. rewrite Hrest in Hx.
      destruct (sublist_pair_lookup opId x rest k2 Hx Hord)
        as (i & j & Hi & Hj & Hij).
      exists (length k1 + i)%nat, (length k1 + j)%nat. rewrite Hk.
      rewrite !lookup_app_r by lia.
      replace (length k1 + i - length k1)%nat with i by lia.
      replace (length k1 + j - length k1)%nat with j by lia.
      split_and!; [done|done|lia]. }
    split; [by exists rest|]. split; [done|].
    intros x Hbefore Hx.
    apply (arrived_before_asym _ _ _ (proj1 (arrivals_minted _ _ Hexec')) Hbefore).
    by apply Hlater.
  - intros now opId Hok.
    assert (∃ op, operations q !! opId = Some op ∧ status op = QUEUED ∧
              cancel now opId q =
                (mkCancelReply true None,
                 mutate (fail_with msg_cancelled now) opId
                   (set_queue (splice_out opId (queue q)) q)))
      as (op & Hop & Hst & Hc).
    { unfold cancel in *. destruct (operations q !! opId) as [op|]; [|done].
      case_decide; [|done]. by exists op. }
    rewrite Hc. cbn [snd]. split; [cbn; apply splice_out_filter, HS|].
    split; [unfold status_of; cbn; by rewrite lookup_alter_eq, Hop|].
    split; [intros x Hx; cbn; by rewrite lookup_alter_ne|].
    intros tr' q2 Hexec2.
    assert (opId ∈ queue q) as Hin by (by apply (store_queued _ _ _ HS _ _ Hop)).
    apply (left_unstarted _ opId tr' q2) in Hexec2; [apply Hexec2| | |].
    + rewrite uuids_cons. cbn. apply Hdom. by eexists.
    + intros q0 Hexec0. inversion Hexec0; subst. cbn.
      rewrite splice_out_filter by apply HS. rewrite list_elem_of_filter. tauto.
    + rewrite started_cons, picked_unchanged by (by left).
      rewrite app_nil_r. intros Hs.
      pose proof (fifo_nodup _ _ Hexec) as Hnd.
      apply NoDup_app in Hnd as (_ & Hdis & _). by apply (Hdis opId).
Qed.

Definition scenario_running : list (Z * Event) :=
  scenario_started ++ [ (5, ServiceObtained "A") ].

Lemma C3_fifo_witness :
  ∃ tr q q',
    play scenario_running [] init = Some (tr, q) ∧
    step 90000 (ExecResolved "A" a_video) q = Some q' ∧
    arrivals tr = ["A"; "B"; "C"] ∧ queue q = ["C"] ∧
    status_of "B" q = Some FAILED ∧
    picked (mkTransition 90000 (ExecResolved "A" a_video) q q') = Some "C" ∧
    (∃ rest,
        queue q ++
          option_list
            (admitted (mkTransition 90000 (ExecResolved "A" a_video) q q')) =
          "C" :: rest ∧
        queue q' = rest) ∧
    (∀ x, status_of x q' = Some QUEUED →
          arrived_before
            (mkTransition 90000 (ExecResolved "A" a_video) q q' :: tr) "C" x) ∧
    (∀ x, arrived_before
            (mkTransition 90000 (ExecResolved "A" a_video) q q' :: tr) x "C" →
          status_of x q' ≠ Some QUEUED).
Proof.
  eexists _, _, _. split; [vm_compute; reflexivity|].
  split; [vm_compute; reflexivity|].
  do 4 (split; [vm_compute; reflexivity|]).
  refine (proj2 (proj1 (proj2 (proj2 (proj2 (C3_fifo _ _
            (play_exec scenario_running [] init _ _ exec_init _)))))
            90000 (ExecResolved "A" a_video) _ "C" _ _) _).
  - vm_compute; reflexivity.
  - intros u Hu. discriminate Hu.
  - vm_compute; reflexivity.
  - vm_compute; reflexivity.
Defined.

(** ** C4: admission *)

(** The records that occupy capacity. *)
Definition active (q : VeedQueue) : gmap string Operation :=
  filter (λ kv, status kv.2 = QUEUED ∨ status kv.2 = PROCESSING) (operations q).

Definition current_set (c : option Id) : gset string :=
  match c with Some x => {[x]} | None => ∅ end.

(** In a reachable state the count of line 76 is the number of records
    that are Queued or Processing. *)
Lemma pendingCount_active q :
  Store (operations q) (queue q) (currentOperation q) →
  pendingCount q = Z.of_nat (size (active q)).
Proof.
  intros HS.
  assert (dom (active q) = list_to_set (queue q) ∪ current_set (currentOperation q))
    as Hdom.
  { apply set_eq. intros x. unfold active.
    rewrite elem_of_dom, elem_of_union, elem_of_list_to_set. split.
    - intros [op [Hop Hst]%map_lookup_filter_Some]. cbn in Hst.
      destruct Hst as [Hst|Hst].
      + left. by apply (store_queued _ _ _ HS _ _ Hop).
      + right. apply (store_processing _ _ _ HS _ _ Hop) in Hst.
        rewrite Hst. cbn. by apply elem_of_singleton.
    - intros [Hin|Hin].
      + destruct (store_queue _ _ _ HS _ Hin) as [op Hop]. exists op.
        apply map_lookup_filter_Some. split; [done|]. left.
        by apply (store_queued _ _ _ HS _ _ Hop).
      + destruct (currentOperation q) as [c|] eqn:Hc; cbn in Hin;
          [|by apply not_elem_of_empty in Hin].
        apply elem_of_singleton in Hin as ->.
        destruct (store_current _ _ _ HS c eq_refl) as [op Hop]. exists op.
        apply map_lookup_filter_Some. split; [done|]. right.
        by apply (store_processing _ _ _ HS _ _ Hop). }
  rewrite <- size_dom, Hdom, size_union.
  - rewrite size_list_to_set by apply HS. unfold pendingCount.
    destruct (currentOperation q); cbn.
    + rewrite size_singleton. lia.
    + rewrite size_empty. lia.
  - intros x Hx%elem_of_list_to_set Hc.
    destruct (currentOperation q) as [c|] eqn:Hcur; cbn in Hc;
      [|by apply not_elem_of_empty in Hc].
    apply elem_of_singleton in Hc as ->.
    destruct (store_current _ _ _ HS c eq_refl) as [op Hop].
    apply (store_queued _ _ _ HS _ _ Hop) in Hx.
    pose proof (proj2 (store_processing _ _ _ HS _ _ Hop) eq_refl). congruence.
Qed.


Lemma enqueue_returned now uuid image text opts q reply :
  (enqueue now uuid image text opts q).1 = Returned reply →
  r_operationId reply = uuid ∧
  r_position reply = Z.of_nat (length (queue q)) + 1 ∧
  pendingCount q < maxQueueSize.
Proof.
  unfold enqueue. case_bool_decide as Hfull; cbn; [done|].
  intros [= <-]. cbn. split_and!; [done..|lia].
Qed.



Lemma not_elem_of_compute (x : Id) (l : list Id) :
  bool_decide (x ∉ l) = true → x ∉ l.
Proof. apply bool_decide_eq_true_1. Qed.




(** ** C5: timeouts and executor failures *)



(** The operation [opId] was failed with [msg] at [now] and the loop went
    on from the queue of [q]: to the next queued operation, which is now
    being processed, or, the queue being empty, to rest. *)
Definition failed_and_continued (now : Z) (opId : Id) (msg : string) (q q' : VeedQueue) : Prop :=
  (∃ op, operations q' !! opId = Some op ∧ status op = FAILED ∧
         error op = Some msg ∧ result op = None ∧ updatedAt op = now) ∧
  match queue q with
  | [] =>
      drain q' = None ∧ isProcessing q' = false ∧
      currentOperation q' = None ∧ queue q' = []
  | next :: rest =>
      drain q' = Some (AwaitExec next) ∧ isProcessing q' = true ∧
      currentOperation q' = Some next ∧ queue q' = rest ∧
      (status <$> operations q' !! next) = Some PROCESSING
  end.

Lemma resumeFailed_continues now opId msg q q1 :
  Inv q → drain q = Some (AwaitExec opId) →
  operations q1 = operations q → queue q1 = queue q →
  isProcessing q1 = isProcessing q → serviceReady q1 = serviceReady q →
  failed_and_continued now opId msg q (resumeFailed now opId msg q1).
Proof.
  intros [HS HC] Hd Ho Hq Hp Hr.
  assert (currentOperation q = Some opId) as Hcur
    by (by rewrite (ctl_current _ HC), Hd).
  destruct (store_current _ _ _ HS _ Hcur) as [op Hop].
  pose proof (proj2 (store_processing _ _ _ HS _ _ Hop) Hcur) as Hst.
  destruct (store_wf _ _ _ HS _ _ Hop) as (_ & Hres & _).
  assert (result op = None) as Hnores.
  { apply eq_None_not_Some. rewrite Hres, Hst. done. }
  destruct (ctl_exec _ HC _ Hd) as (Hready & _ & _).
  unfold resumeFailed. cbn zeta. rewrite processLoop_spec.
  2:{ cbn. intros x Hx. rewrite is_Some_alter, Ho. apply HS. by rewrite <- Hq. }
  cbn [queue set_currentOperation mutate set_operations serviceReady].
  rewrite Hq, Hr, Hready, orb_true_r. unfold failed_and_continued.
  destruct (queue q) as [|next rest] eqn:Hqueue; cbn.
  - split; [|done]. exists (fail_with msg now op).
    rewrite Ho, lookup_alter_eq, Hop. done.
  - assert (next ≠ opId) as Hne.
    { intros ->. assert (opId ∈ opId :: rest) as Hin by (apply elem_of_cons; by left).
      apply (store_queued _ _ _ HS _ _ Hop) in Hin. congruence. }
    split.
    + exists (fail_with msg now op).
      rewrite Ho, lookup_alter_ne, lookup_alter_eq, Hop by done. done.
    + rewrite Hp, (ctl_isProcessing _ HC), Hd. split_and!; try done.
      rewrite Ho, lookup_alter_eq, lookup_alter_ne by done.
      destruct (store_queue _ _ _ HS next) as [opn ->];
        [apply elem_of_cons; by left|]. done.
Qed.



(** ** C6: the service cannot be initialized *)

(** Every identifier pending in [q] has its record failed with the
    service-unavailable error at [now]; nothing else in the store changed;
    the queue is empty and the loop returned. *)
Definition all_failed (now : Z) (q q' : VeedQueue) : Prop :=
  queue q' = [] ∧ drain q' = None ∧ isProcessing q' = false ∧
  currentOperation q' = None ∧
  (∀ opId, opId ∈ queue q →
     ∃ op, operations q !! opId = Some op ∧ status op = QUEUED ∧
           operations q' !! opId = Some (fail_with msg_unavailable now op)) ∧
  (∀ opId op, operations q !! opId = Some op → status op = QUEUED →
     ∃ op', operations q' !! opId = Some op' ∧ status op' = FAILED ∧
            error op' = Some "Veed service not available") ∧
  (∀ opId, opId ∉ queue q → operations q' !! opId = operations q !! opId).

Lemma failAll_all_failed now q q1 :
  Inv q → (∀ opId, drain q ≠ Some (AwaitExec opId)) →
  operations q1 = operations q → queue q1 = queue q →
  currentOperation q1 = currentOperation q →
  all_failed now q (failAll now q1).
Proof.
  intros [HS HC] Hd Ho Hq Hc.
  assert (∀ opId, operations (failAll now q1) !! opId =
            if decide (opId ∈ queue q)
            then fail_with msg_unavailable now <$> operations q !! opId
            else operations q !! opId) as Hlook.
  { intros opId. cbn. rewrite Ho, Hq. apply foldl_alter_lookup, HS. }
  assert (∀ opId, opId ∈ queue q →
     ∃ op, operations q !! opId = Some op ∧ status op = QUEUED ∧
           operations (failAll now q1) !! opId =
             Some (fail_with msg_unavailable now op)) as Hin.
  { intros opId Hin. destruct (store_queue _ _ _ HS _ Hin) as [op Hop].
    exists op. split; [done|]. split; [by apply (store_queued _ _ _ HS _ _ Hop)|].
    by rewrite Hlook, decide_True, Hop. }
  split_and!; try done.
  - cbn. rewrite Hc, (ctl_current _ HC).
    destruct (drain q) as [[| |x]|]; try done. by destruct (Hd x).
  - intros opId op Hop Hst.
    apply (store_queued _ _ _ HS _ _ Hop) in Hst.
    destruct (Hin _ Hst) as (op0 & Hop0 & _ & Hop').
    eexists. split; [done|]. done.
  - intros opId Hnotin. by rewrite Hlook, decide_False.
Qed.

(** C6. If the initialization of the service fails when the loop needs
    it (the loop awaits its own call of initVeedService and that call
    resolves falsy or rejects; or the loop polls an initialization started
    elsewhere and finds it over with the service not ready), then every
    record in the pending queue, which are exactly the records with status
    Queued, is marked Failed with the fixed error "Veed service not
    available", the pending queue becomes empty, and the pass stops: the
    loop is no longer running. *)
Theorem C6_readiness_failure tr q :
  exec tr q →
  (drain q = Some AwaitInit →
     ∀ now, ∃ q', step now (InitSettled false) q = Some q' ∧
                  serviceReady q' = false ∧ all_failed now q q') ∧
  (drain q = Some AwaitInitPoll →
     serviceInitializing q = false → serviceReady q = false →
     ∀ now, ∃ q', step now PollWake q = Some q' ∧
                  serviceReady q' = false ∧ all_failed now q q').
Proof.
  intros Hexec. pose proof (exec_Inv _ _ Hexec) as [HInv _].
  pose proof HInv as [HS HC]. split.
  - intros Hd now. cbn. rewrite (ctl_own _ HC Hd). eexists. split; [done|].
    unfold initSettled. rewrite decide_True by done. cbn. split; [done|].
    apply failAll_all_failed; try done. intros x. by rewrite Hd.
  - intros Hd Hini Hready now. cbn. rewrite decide_True by done.
    eexists. split; [done|]. unfold pollWake. rewrite Hini, Hready. cbn.
    split; [done|]. apply failAll_all_failed; try done. intros x. by rewrite Hd.
Qed.

(** Three requests wait for the service to come up. *)
Definition scenario_waiting : list (Z * Event) :=
  [ (0, CallEnqueue "A" "a.png" "pan" no_options);
    (1, CallEnqueue "B" "b.png" "zoom" no_options);
    (2, CallEnqueue "C" "c.png" "tilt" no_options) ].

Lemma C6_readiness_failure_witness :
  ∃ tr q, play scenario_waiting [] init = Some (tr, q) ∧
    drain q = Some AwaitInit ∧ queue q = ["A"; "B"; "C"] ∧
    ∃ q', step 3 (InitSettled false) q = Some q' ∧
          serviceReady q' = false ∧ all_failed 3 q q'.
Proof.
  eexists _, _. split; [vm_compute; reflexivity|].
  do 2 (split; [vm_compute; reflexivity|]).
  refine (proj1 (C6_readiness_failure _ _
           (play_exec scenario_waiting [] init _ _ exec_init _)) _ 3).
  - vm_compute; reflexivity.
  - vm_compute; reflexivity.
Defined.

(** ** C7: cancellation *)

(** C7 (as the code has it).  For every call of cancel in a reachable
    state: when no record has the identifier, the call fails with the
    not-found reply and changes nothing; when the record's status is not
    Queued (Processing, Completed, or Failed, for instance after an
    earlier cancel), the call fails with the invalid-state reply naming
    the status and changes nothing; otherwise the identifier is removed
    from the pending queue, whose other entries keep their order, and the
    record's status is set to Failed with the error "Cancelled by user",
    all other records and the scheduler's state being untouched. *)
Theorem C7_cancel tr q now opId :
  exec tr q →
  (operations q !! opId = None →
     cancel now opId q = (mkCancelReply false (Some "Operation not found"), q)) ∧
  (∀ op, operations q !! opId = Some op → status op ≠ QUEUED →
     cancel now opId q =
       (mkCancelReply false
          (Some ("Cannot cancel operation in " +:+ status_string (status op) +:+
                 " status")), q)) ∧
  (∀ op, operations q !! opId = Some op → status op = QUEUED →
     ∃ q', cancel now opId q = (mkCancelReply true None, q') ∧
       opId ∈ queue q ∧ (opId ∉ queue q') ∧
       queue q' = filter (λ y, y ≠ opId) (queue q) ∧
       operations q' !! opId = Some (fail_with "Cancelled by user" now op) ∧
       (status <$> operations q' !! opId) = Some FAILED ∧
       (operations q' !! opId ≫= error) = Some "Cancelled by user" ∧
       (∀ x, x ≠ opId → operations q' !! x = operations q !! x) ∧
       currentOperation q' = currentOperation q ∧
       drain q' = drain q ∧ isProcessing q' = isProcessing q).
Proof.
  intros Hexec. pose proof (exec_Inv _ _ Hexec) as [[HS HC] _].
  unfold cancel. split; [|split].
  - by intros ->.
  - intros op -> Hst. by rewrite decide_False.
  - intros op Hop Hst. rewrite Hop, decide_True by done.
    eexists. split; [done|]. cbn.
    rewrite splice_out_filter by apply HS.
    split; [by apply (store_queued _ _ _ HS _ _ Hop)|].
    split; [rewrite list_elem_of_filter; tauto|]. split; [done|].
    rewrite lookup_alter_eq, Hop. split_and!; try done.
    intros x Hx. by rewrite lookup_alter_ne.
Qed.

Lemma C7_cancel_witness :
  ∃ tr q, play scenario_waiting [] init = Some (tr, q) ∧
    cancel 3 "Z" q = (mkCancelReply false (Some "Operation not found"), q).
Proof.
  eexists _, _. split; [vm_compute; reflexivity|].
  refine (proj1 (C7_cancel _ _ 3 "Z"
           (play_exec scenario_waiting [] init _ _ exec_init _)) _).
  - vm_compute; reflexivity.
  - vm_compute; reflexivity.
Defined.

(** The error left in a cancelled record is not the string "cancelled by
    user": the source writes it with a capital C (line 177). *)
Lemma C7_cancel_message_counterexample :
  ∃ tr q, play scenario_waiting [] init = Some (tr, q) ∧ exec tr q ∧
    (status <$> operations q !! "B") = Some QUEUED ∧
    (cancel 3 "B" q).1 = mkCancelReply true None ∧
    (operations (cancel 3 "B" q).2 !! "B" ≫= error) = Some "Cancelled by user" ∧
    (operations (cancel 3 "B" q).2 !! "B" ≫= error) ≠ Some "cancelled by user".
Proof.
  eexists _, _. split; [vm_compute; reflexivity|].
  split; [apply (play_exec scenario_waiting [] init);
            [apply exec_init|vm_compute; reflexivity]|].
  do 3 (split; [vm_compute; reflexivity|]).
  assert (∀ o : option string, o = Some "Cancelled by user" →
            o ≠ Some "cancelled by user") as Hne.
  { intros o -> [=]. }
  apply Hne. vm_compute; reflexivity.
Qed.

(** ** C8: status query *)

(** C8. getStatus returns null when the store has no record for the
    identifier.  Otherwise it returns a snapshot with the record's
    identifier, status, progress, timestamps, result and error, and the
    length of the pending queue; the position is the 1-based index of the
    identifier in the pending queue while the record is Queued and null
    otherwise; the result is present only when the status is Completed and
    the error only when it is Failed.  The call changes nothing. *)
Theorem C8_getStatus tr q opId :
  exec tr q →
  (operations q !! opId = None → getStatus opId q = None) ∧
  (∀ op, operations q !! opId = Some op →
     ∃ snap, getStatus opId q = Some snap ∧
       s_operationId snap = opId ∧ s_status snap = status op ∧
       s_queueLength snap = Z.of_nat (length (queue q)) ∧
       s_progress snap = progress op ∧
       s_createdAt snap = createdAt op ∧ s_updatedAt snap = updatedAt op ∧
       s_result snap = result op ∧ s_error snap = error op ∧
       (status op = QUEUED →
          ∃ i : nat, s_position snap = Some (Z.of_nat i + 1) ∧
                     queue q !! i = Some opId ∧
                     ∀ j, queue q !! j = Some opId → j = i) ∧
       (status op ≠ QUEUED → s_position snap = None) ∧
       (is_Some (s_result snap) → status op = COMPLETED) ∧
       (is_Some (s_error snap) → status op = FAILED)) ∧
  (∀ now, step now (CallGetStatus opId) q = Some q).
Proof.
  intros Hexec. pose proof (exec_Inv _ _ Hexec) as [[HS HC] _].
  unfold getStatus. split; [by intros ->|]. split; [|done].
  intros op Hop. rewrite Hop. eexists. split; [done|]. cbn.
  destruct (store_wf _ _ _ HS _ _ Hop) as (Hid & Hres & Herr).
  split_and!; try done.
  - intros Hst. rewrite decide_True by done.
    apply (store_queued _ _ _ HS _ _ Hop) in Hst as Hin.
    pose proof (proj1 (indexOf_elem opId (queue q)) Hin) as Hge.
    exists (Z.to_nat (indexOf opId (queue q))). split; [f_equal; lia|].
    split; [by apply indexOf_lookup|].
    intros j Hj. eapply NoDup_lookup; [apply HS|done|by apply indexOf_lookup].
  - intros Hst. by rewrite decide_False.
  - apply Hres.
  - apply Herr.
Qed.

Lemma C8_getStatus_witness :
  ∃ tr q, play scenario_started [] init = Some (tr, q) ∧
    getStatus "C" q =
      Some (mkSnapshot "C" QUEUED (Some 1) 1 None 2 2 None None) ∧
    getStatus "Z" q = None.
Proof.
  eexists _, _. split; [vm_compute; reflexivity|].
  split; [vm_compute; reflexivity|].
  refine (proj1 (C8_getStatus _ _ "Z"
           (play_exec scenario_started [] init _ _ exec_init _)) _).
  - vm_compute; reflexivity.
  - vm_compute; reflexivity.
Defined.

(** ** C9: the reaper *)

(** C9. A cleanup sweep at clock reading [now] deletes from the store
    every record that is Completed or Failed and whose updatedAt lies more
    than the retention window (30 minutes = 1800000 ms) before [now]; a
    getStatus for it then returns null.  A record that is Queued or
    Processing is never deleted, and a terminal record whose age is at
    most the window is kept and reported as before.  Nothing but the
    store is touched. *)
Theorem C9_cleanup now q opId :
  operationTTL = 1800000 ∧
  (∀ op, operations q !! opId = Some op →
     status op = COMPLETED ∨ status op = FAILED →
     operationTTL < now - updatedAt op →
     operations (cleanupOldOperations now q) !! opId = None ∧
     getStatus opId (cleanupOldOperations now q) = None) ∧
  (∀ op, operations q !! opId = Some op →
     status op = QUEUED ∨ status op = PROCESSING →
     operations (cleanupOldOperations now q) !! opId = Some op) ∧
  (∀ op, operations q !! opId = Some op →
     now - updatedAt op ≤ operationTTL →
     operations (cleanupOldOperations now q) !! opId = Some op ∧
     getStatus opId (cleanupOldOperations now q) = getStatus opId q) ∧
  (operations q !! opId = None →
     operations (cleanupOldOperations now q) !! opId = None) ∧
  queue (cleanupOldOperations now q) = queue q ∧
  currentOperation (cleanupOldOperations now q) = currentOperation q ∧
  step now CleanupTick q = Some (cleanupOldOperations now q).
Proof.
  split; [done|].
  assert (∀ op, operations q !! opId = Some op → expired now op = false →
            operations (cleanupOldOperations now q) !! opId = Some op) as Hkeep.
  { intros op Hop Hex. by rewrite cleanup_lookup, Hop, Hex. }
  split_and!; try done.
  - intros op Hop Hst Hold.
    assert (operations (cleanupOldOperations now q) !! opId = None) as Hgone.
    { rewrite cleanup_lookup, Hop. unfold expired.
      rewrite (bool_decide_true (_ < _)) by done.
      destruct Hst as [-> | ->]; done. }
    split; [done|]. unfold getStatus. by rewrite Hgone.
  - intros op Hop Hst. apply Hkeep; [done|]. unfold expired.
    destruct Hst as [-> | ->]; done.
  - intros op Hop Hyoung.
    assert (operations (cleanupOldOperations now q) !! opId = Some op) as Hk.
    { apply Hkeep; [done|]. unfold expired.
      rewrite (bool_decide_false (_ < _)) by lia. apply andb_false_r. }
    split; [done|]. unfold getStatus. by rewrite Hk, Hop.
  - intros Hnone. by rewrite cleanup_lookup, Hnone.
Qed.

(** The first operation completed at 90000; a sweep exactly one retention
    window later keeps it, a sweep one millisecond after that deletes it;
    the operation being processed stays. *)
Lemma C9_cleanup_witness :
  ∃ tr q, play scenario_completed [] init = Some (tr, q) ∧
    (status <$> operations q !! "A") = Some COMPLETED ∧
    (updatedAt <$> operations q !! "A") = Some 90000 ∧
    is_Some (getStatus "A" (cleanupOldOperations 1890000 q)) ∧
    getStatus "A" (cleanupOldOperations 1890001 q) = None ∧
    (status <$> operations (cleanupOldOperations 1890001 q) !! "C") =
      Some PROCESSING.
Proof.
  eexists _, _. split; [vm_compute; reflexivity|].
  do 2 (split; [vm_compute; reflexivity|]).
  split; [vm_compute; by eexists|].
  split; [|vm_compute; reflexivity].
  eapply (proj1 (proj2 (C9_cleanup 1890001 _ "A"))).
  - vm_compute; reflexivity.
  - by left.
  - vm_compute; reflexivity.
Defined.

(** ** C10: a late result is dropped *)

Lemma uuids_app tr1 tr2 : uuids (tr1 ++ tr2) = uuids tr1 ++ uuids tr2.
Proof. apply omap_app. Qed.

(** C10. Once the timer has fired while the loop awaited the operation
    (the operation is Failed with the timeout error; its executor
    invocation is not interrupted), nothing that happens later, and in
    particular the late resolution of that invocation, changes the
    outcome: in every later state the record, as long as the store holds
    it, is Failed with the error "Operation timed out" and has no result.
    The late resolution itself leaves the store, the queue and the current
    operation as they are. *)
Theorem C10_late_result_dropped tr0 q0 nowT opId q1 tr q :
  drain q0 = Some (AwaitExec opId) →
  exec (tr ++ mkTransition nowT (TimerFired opId) q0 q1 :: tr0) q →
  (∀ op, operations q !! opId = Some op →
     status op = FAILED ∧ error op = Some "Operation timed out" ∧
     result op = None) ∧
  (∀ now r q', step now (ExecResolved opId r) q = Some q' →
     operations q' = operations q ∧ queue q' = queue q ∧
     currentOperation q' = currentOperation q ∧ drain q' = drain q).
Proof.
  intros Hd Hexec.
  assert (opId ∈ uuids tr0 ∧
          (∀ op, operations q !! opId = Some op →
             status op = FAILED ∧ error op = Some msg_timeout ∧
             result op = None) ∧
          drain q ≠ Some (AwaitExec opId)) as (Hminted & Hrec & Hnd).
  { revert q Hexec. induction tr as [|t tr IH]; intros q Hexec.
    - cbn in Hexec. inversion Hexec as [|? ? ? ? ? Hexec0 Hfresh Hstep]; subst.
      pose proof (exec_Inv _ _ Hexec0) as [HInv Hdom]. pose proof HInv as [HS HC].
      destruct (ctl_exec _ HC _ Hd) as (_ & _ & [due Hdue]).
      cbn in Hstep. rewrite Hdue in Hstep. case_bool_decide; [|done].
      injection Hstep as <-. unfold timerFired. rewrite decide_True by done.
      assert (currentOperation q0 = Some opId) as Hcur
        by (by rewrite (ctl_current _ HC), Hd).
      pose proof (resumeFailed_continues nowT opId msg_timeout q0
                    (set_timers (delete opId (timers q0)) q0) HInv Hd
                    eq_refl eq_refl eq_refl eq_refl)
        as [(op & Hop & Hst & Herr & Hres & _) Hcont].
      split; [apply Hdom, (store_current _ _ _ HS _ Hcur)|]. split.
      + intros op' Hop'. rewrite Hop in Hop'. by injection Hop' as <-.
      + intros Hd'. destruct (queue q0) as [|next rest] eqn:Hq.
        * destruct Hcont as (Hn & _). congruence.
        * destruct Hcont as (Hn & _). rewrite Hn in Hd'. injection Hd' as ->.
          destruct (store_current _ _ _ HS _ Hcur) as [op0 Hop0].
          assert (opId ∈ opId :: rest) as Hin by (apply elem_of_cons; by left).
          apply (store_queued _ _ _ HS _ _ Hop0) in Hin.
          pose proof (proj2 (store_processing _ _ _ HS _ _ Hop0) Hcur). congruence.
    - cbn in Hexec. inversion Hexec as [|? qp now ev ? Hexecp Hfresh Hstep]; subst.
      destruct (IH _ Hexecp) as (Hminted & Hrec & Hnd).
      pose proof (exec_Inv _ _ Hexecp) as [HInv Hdom]. pose proof HInv as [HS HC].
      pose proof (exec_shape _ _ _ _ _ Hexecp Hfresh Hstep) as Hshape.
      pose proof (exec_Inv _ _ Hexec) as [HInv' _]. pose proof HInv' as [HS' HC'].
      split; [done|]. split.
      + intros op' Hop'.
        pose proof (shape_record now ev qp q HInv Hshape opId) as Hstepr.
        rewrite Hop' in Hstepr.
        destruct (operations qp !! opId) as [opp|] eqn:Hopp.
        * destruct (Hrec _ eq_refl) as (Hst & Herr & Hres). cbn in Hstepr.
          destruct Hstepr as [Hedge|(Hs & Hr & He)].
          -- rewrite Hst in Hedge. done.
          -- split_and!; congruence.
        * exfalso.
          destruct (shape_created now ev qp q HInv Hshape opId) as [[? ?]|Hadm];
            [by rewrite Hop'|congruence|].
          apply admitted_uuid in Hadm. cbn in Hadm.
          apply (Hfresh opId Hadm). rewrite uuids_app, uuids_cons. cbn.
          apply elem_of_app. by right.
      + intros Hd'.
        assert (currentOperation q = Some opId) as Hcur
          by (by rewrite (ctl_current _ HC'), Hd').
        destruct (store_current _ _ _ HS' _ Hcur) as [op' Hop'].
        pose proof (proj2 (store_processing _ _ _ HS' _ _ Hop') Hcur) as Hst'.
        pose proof (shape_record now ev qp q HInv Hshape opId) as Hstepr.
        rewrite Hop' in Hstepr.
        destruct (operations qp !! opId) as [opp|] eqn:Hopp.
        * destruct (Hrec _ eq_refl) as (Hst & Herr & Hres). cbn in Hstepr.
          destruct Hstepr as [Hedge|(Hs & Hr & He)].
          -- rewrite Hst in Hedge. done.
          -- congruence.
        * destruct (shape_created now ev qp q HInv Hshape opId) as [[? ?]|Hadm];
            [by rewrite Hop'|congruence|].
          apply admitted_uuid in Hadm. cbn in Hadm.
          apply (Hfresh opId Hadm). rewrite uuids_app, uuids_cons. cbn.
          apply elem_of_app. by right. }
  split; [done|].
  intros now r q' Hstep. cbn in Hstep.
  destruct (executions q !! opId) as [[|]|]; try done.
  injection Hstep as <-. unfold execResolved. by rewrite decide_False.
Qed.

(** The first operation times out; its executor resolves a millisecond
    later. *)
Definition scenario_timeout : list (Z * Event) :=
  scenario_started ++ [ (5, ServiceObtained "A") ].

Lemma C10_late_result_dropped_witness :
  ∃ tr0 q0 q1 q2,
    play scenario_timeout [] init = Some (tr0, q0) ∧
    step 300004 (TimerFired "A") q0 = Some q1 ∧
    step 300005 (ExecResolved "A" a_video) q1 = Some q2 ∧
    (operations q2 !! "A" ≫= result) = None ∧
    ∀ op, operations q2 !! "A" = Some op →
      status op = FAILED ∧ error op = Some "Operation timed out" ∧
      result op = None.
Proof.
  eexists _, _, _, _. split; [vm_compute; reflexivity|].
  do 3 (split; [vm_compute; reflexivity|]).
  refine (proj1 (C10_late_result_dropped _ _ 300004 "A" _
                   [mkTransition 300005 (ExecResolved "A" a_video) _ _] _ _ _)).
  2:{ apply exec_step; [apply exec_step|..].
      - apply (play_exec scenario_timeout [] init); [apply exec_init|].
        vm_compute; reflexivity.
      - done.
      - vm_compute; reflexivity.
      - done.
      - vm_compute; reflexivity. }
  vm_compute; reflexivity.
Defined.

(** * Further properties of the queue *)

(** ** Executions that extend an execution *)

Lemma exec_post t tr q : exec (t :: tr) q → q = t_post t.
Proof. by inversion 1. Qed.

Lemma exec_inj tr q q' : exec tr q → exec tr q' → q = q'.
Proof.
  destruct tr as [|t tr].
  - inversion 1. by inversion 1.
  - intros H1%exec_post H2%exec_post. congruence.
Qed.

(** A property that holds where an execution stands and is kept by every
    further transition holds in every state the execution can reach. *)
Lemma exec_extend_ind (P : VeedQueue → Prop) tr0 q0 :
  exec tr0 q0 → P q0 →
  (∀ tr1 q now ev q',
      exec (tr1 ++ tr0) q → P q → fresh ev (tr1 ++ tr0) →
      step now ev q = Some q' → P q') →
  ∀ tr q, exec (tr ++ tr0) q → P q.
Proof.
  intros Hexec0 HP0 Hstep tr. induction tr as [|t tr IH]; intros q Hexec.
  - cbn in Hexec. by rewrite (exec_inj _ _ _ Hexec Hexec0).
  - cbn in Hexec. inversion Hexec as [|? qp now ev ? Hexecp Hfresh Hst]; subst.
    eapply Hstep; [done|by apply IH|done|done].
Qed.

Lemma uuids_app_r tr1 tr0 u : u ∈ uuids tr0 → u ∈ uuids (tr1 ++ tr0).
Proof. intros Hu. unfold uuids. rewrite omap_app. apply elem_of_app. by right. Qed.

(** A record under a minted identifier is never created again. *)
Lemma step_no_rebirth tr q now ev q' opId :
  exec tr q → fresh ev tr → step now ev q = Some q' →
  opId ∈ uuids tr → operations q !! opId = None →
  operations q' !! opId = None.
Proof.
  intros Hexec Hfresh Hstep Hminted Hnone.
  pose proof (exec_Inv _ _ Hexec) as [HInv _].
  pose proof (exec_shape _ _ _ _ _ Hexec Hfresh Hstep) as Hshape.
  apply eq_None_not_Some. intros Hsome.
  destruct (shape_created now ev q q' HInv Hshape opId Hsome) as [[? ?]|Hadm];
    [congruence|].
  apply admitted_uuid in Hadm. cbn in Hadm. by apply (Hfresh opId Hadm).
Qed.

Lemma fresh_no_uuid ev tr : uuid_of ev = None → fresh ev tr.
Proof. intros Hnone u Hu. congruence. Qed.

Lemma fresh_uuid u image text opts tr :
  bool_decide (u ∉ uuids tr) = true → fresh (CallEnqueue u image text opts) tr.
Proof. intros H%bool_decide_eq_true_1 u' [= <-]. done. Qed.

Lemma elem_of_compute (x : Id) (l : list Id) :
  bool_decide (x ∈ l) = true → x ∈ l.
Proof. apply bool_decide_eq_true_1. Qed.

(** ** The outcome of an operation is final *)

(** Once a record is Completed or Failed, its status, result and error
    are the same in every later state in which the store still holds it:
    neither the timer of an operation that completed, nor a late executor,
    nor a cancel, nor a failed initialization changes the outcome. *)
Theorem outcome_is_final tr0 q0 opId op tr q op' :
  exec tr0 q0 → operations q0 !! opId = Some op →
  status op = COMPLETED ∨ status op = FAILED →
  exec (tr ++ tr0) q → operations q !! opId = Some op' →
  status op' = status op ∧ result op' = result op ∧ error op' = error op.
Proof.
  intros Hexec0 Hop Hterm Hexec. revert op'.
  pose proof (exec_Inv _ _ Hexec0) as [_ Hdom0].
  assert (opId ∈ uuids tr0) as Hminted by (apply Hdom0; by eexists).
  refine (exec_extend_ind
            (λ q, ∀ op', operations q !! opId = Some op' →
                    status op' = status op ∧ result op' = result op ∧
                    error op' = error op) tr0 q0 Hexec0 _ _ tr q Hexec).
  - intros op' Hop'. rewrite Hop in Hop'. by injection Hop' as <-.
  - intros tr1 qp now ev q' Hexecp IH Hfresh Hstep op' Hop'.
    pose proof (exec_Inv _ _ Hexecp) as [HInv _].
    pose proof (exec_shape _ _ _ _ _ Hexecp Hfresh Hstep) as Hshape.
    pose proof (shape_record now ev qp q' HInv Hshape opId) as Hrec.
    rewrite Hop' in Hrec.
    destruct (operations qp !! opId) as [opp|] eqn:Hopp.
    + destruct (IH _ eq_refl) as (Hs & Hr & He). cbn in Hrec.
      destruct Hrec as [Hedge|(Hs' & Hr' & He')].
      * rewrite Hs in Hedge. destruct Hterm as [Ht|Ht]; rewrite Ht in Hedge; done.
      * split_and!; congruence.
    + pose proof (step_no_rebirth _ _ _ _ _ opId Hexecp Hfresh Hstep
                    (uuids_app_r _ _ _ Hminted) Hopp). congruence.
Qed.

(** One request is served to completion. *)
Definition scenario_single : list (Z * Event) :=
  [ (0, CallEnqueue "A" "a.png" "pan" no_options);
    (1, InitSettled true);
    (2, ServiceObtained "A");
    (3, ExecResolved "A" a_video) ].

Lemma outcome_is_final_witness :
  ∃ tr0 q0 q1 op,
    play scenario_single [] init = Some (tr0, q0) ∧
    operations q0 !! "A" = Some op ∧ status op = COMPLETED ∧
    step 300001 (TimerFired "A") q0 = Some q1 ∧
    ∀ op', operations q1 !! "A" = Some op' →
      status op' = status op ∧ result op' = result op ∧ error op' = error op.
Proof.
  eexists _, _, _, _. split; [vm_compute; reflexivity|].
  do 3 (split; [vm_compute; reflexivity|]).
  intros op'.
  refine (outcome_is_final _ _ "A" _
            [mkTransition 300001 (TimerFired "A") _ _] _ op' _ _ (or_introl _) _).
  - apply (play_exec scenario_single [] init); [apply exec_init|].
    vm_compute; reflexivity.
  - vm_compute; reflexivity.
  - vm_compute; reflexivity.
  - apply exec_step;
      [apply (play_exec scenario_single [] init);
         [apply exec_init|vm_compute; reflexivity]
      |by apply fresh_no_uuid
      |vm_compute; reflexivity].
Defined.

(** ** Deletion is irreversible *)

(** An identifier that was minted and whose record is gone (reaped) has
    no record in any later state: identifiers are not reused. *)
Theorem reaped_stays_absent tr0 q0 opId tr q :
  exec tr0 q0 → opId ∈ uuids tr0 → operations q0 !! opId = None →
  exec (tr ++ tr0) q →
  operations q !! opId = None ∧ getStatus opId q = None.
Proof.
  intros Hexec0 Hminted Hnone Hexec.
  assert (operations q !! opId = None) as Hq.
  { refine (exec_extend_ind (λ q, operations q !! opId = None) tr0 q0 Hexec0
              Hnone _ tr q Hexec).
    intros tr1 qp now ev q' Hexecp IH Hfresh Hstep.
    eapply step_no_rebirth; try done. by apply uuids_app_r. }
  split; [done|]. unfold getStatus. by rewrite Hq.
Qed.

(** The completed operation is reaped; a later request and a later sweep
    do not bring it back. *)
Definition scenario_reaped : list (Z * Event) :=
  scenario_single ++ [ (1800004, CleanupTick) ].

Lemma reaped_stays_absent_witness :
  ∃ tr0 q0 q1,
    play scenario_reaped [] init = Some (tr0, q0) ∧
    step 1800005 (CallEnqueue "D" "d.png" "orbit" no_options) q0 = Some q1 ∧
    operations q1 !! "A" = None ∧ getStatus "A" q1 = None.
Proof.
  eexists _, _, _. split; [vm_compute; reflexivity|].
  split; [vm_compute; reflexivity|].
  refine (reaped_stays_absent _ _ "A"
            [mkTransition 1800005 (CallEnqueue "D" "d.png" "orbit" no_options) _ _]
            _ _ _ _ _).
  - apply (play_exec scenario_reaped [] init); [apply exec_init|].
    vm_compute; reflexivity.
  - apply elem_of_compute. vm_compute; reflexivity.
  - vm_compute; reflexivity.
  - apply exec_step;
      [apply (play_exec scenario_reaped [] init);
         [apply exec_init|vm_compute; reflexivity]
      |apply fresh_uuid; vm_compute; reflexivity
      |vm_compute; reflexivity].
Defined.

(** ** What every reachable state satisfies *)

(** In every reachable state each record is stored under its own
    identifier, carries a result exactly when it is Completed and an
    error exactly when it is Failed, is Queued exactly when its
    identifier is in the pending queue and Processing exactly when it is
    the current operation; the pending queue has no repetition and only
    identifiers of stored records. *)
Theorem store_consistent tr q :
  exec tr q →
  NoDup (queue q) ∧
  (∀ opId, opId ∈ queue q → is_Some (operations q !! opId)) ∧
  (∀ opId op, operations q !! opId = Some op →
     op_id op = opId ∧
     (is_Some (result op) ↔ status op = COMPLETED) ∧
     (is_Some (error op) ↔ status op = FAILED) ∧
     (status op = QUEUED ↔ opId ∈ queue q) ∧
     (status op = PROCESSING ↔ currentOperation q = Some opId)).
Proof.
  intros Hexec. destruct (exec_Inv _ _ Hexec) as [[HS _] _].
  split; [apply HS|]. split; [apply HS|].
  intros opId op Hop. destruct (store_wf _ _ _ HS _ _ Hop) as (?&?&?).
  split_and!; try done.
  - by apply (store_queued _ _ _ HS).
  - by apply (store_processing _ _ _ HS).
Qed.

Lemma store_consistent_witness :
  ∃ tr q, play scenario_single [] init = Some (tr, q) ∧
    (status <$> operations q !! "A") = Some COMPLETED ∧ NoDup (queue q).
Proof.
  eexists _, _. split; [vm_compute; reflexivity|].
  split; [vm_compute; reflexivity|].
  refine (proj1 (store_consistent _ _
           (play_exec scenario_single [] init _ _ exec_init _))).
  vm_compute; reflexivity.
Defined.

(** In every reachable state: when the loop is not running, nothing is
    pending and nothing is current (no queued work is left behind by a
    loop that returned); an operation is current only while the loop
    runs, with the service ready; the service is never both ready and
    being initialized. *)
Theorem scheduler_consistent tr q :
  exec tr q →
  (isProcessing q = false → queue q = [] ∧ currentOperation q = None) ∧
  (∀ opId, currentOperation q = Some opId →
     isProcessing q = true ∧ serviceReady q = true ∧
     drain q = Some (AwaitExec opId)) ∧
  (serviceInitializing q = true → serviceReady q = false).
Proof.
  intros Hexec. destruct (exec_Inv _ _ Hexec) as [HInv _].
  pose proof HInv as [HS HC]. split; [|split].
  - intros Hp. pose proof (isProcessing_false_idle q HInv Hp) as Hd.
    split; [by apply (ctl_idle _ HC)|by apply drain_None_current].
  - intros opId Hcur. rewrite (ctl_current _ HC) in Hcur.
    destruct (drain q) as [[| |x]|] eqn:Hd; try done. injection Hcur as ->.
    split; [by rewrite (ctl_isProcessing _ HC), Hd|].
    split; [by apply (ctl_exec _ HC opId)|done].
  - apply (ctl_initializing _ HC).
Qed.

Lemma scheduler_consistent_witness :
  ∃ tr q, play scenario_single [] init = Some (tr, q) ∧
    isProcessing q = false ∧
    (isProcessing q = false → queue q = [] ∧ currentOperation q = None).
Proof.
  eexists _, _. split; [vm_compute; reflexivity|].
  split; [vm_compute; reflexivity|].
  refine (proj1 (scheduler_consistent _ _
           (play_exec scenario_single [] init _ _ exec_init _))).
  vm_compute; reflexivity.
Defined.

(** ** The capacity is never exceeded *)

Lemma length_filter_le (x : Id) (l : list Id) :
  (length (filter (λ y, y ≠ x) l) ≤ length l)%nat.
Proof. apply length_filter. Qed.

Lemma shape_pendingCount now ev q q' :
  Inv q → StepShape now ev q q' →
  pendingCount q ≤ maxQueueSize → pendingCount q' ≤ maxQueueSize.
Proof.
  intros [HS HC] [mo mq mc adm Hpre Hadm HSm Hpicks] Hle.
  assert (Z.of_nat (length mq) + match mc with Some _ => 1 | None => 0 end
          ≤ maxQueueSize) as Hmid.
  { unfold pendingCount in Hle.
    destruct Hpre as [|x| |x op Hop Hst| |u image text opts Hnone|x f Hcur Hf];
      try done.
    - pose proof (length_filter_le x (queue q)). lia.
    - cbn. destruct (currentOperation q); unfold maxQueueSize; lia.
    - unfold admitted, enqueue_reply in Hadm. cbn in Hadm.
      destruct ev; try done.
      destruct (enqueue now uuid image0 text0 opts0 q).1 as [r|] eqn:Hr; [|done].
      apply enqueue_returned in Hr as (_ & _ & Hlt).
      unfold pendingCount in Hlt. rewrite length_app. cbn. lia.
    - destruct (currentOperation q); [lia|done]. }
  unfold pendingCount.
  destruct Hpicks as [(_ & -> & ->)|(x & rest & op & -> & _ & _ & -> & _ & -> & ->)];
    [done|].
  cbn in Hmid. lia.
Qed.

(** In every reachable state at most [maxQueueSize] = 10 records are
    Queued or Processing; in particular the pending queue never holds
    more than 10 identifiers. *)
Theorem capacity_never_exceeded tr q :
  exec tr q →
  Z.of_nat (size (active q)) ≤ 10 ∧ (length (queue q) ≤ 10)%nat.
Proof.
  intros Hexec.
  assert (pendingCount q ≤ maxQueueSize) as Hle.
  { induction Hexec as [|tr q now ev q' Hexec IH Hfresh Hstep]; [done|].
    pose proof (exec_Inv _ _ Hexec) as [HInv _].
    eapply shape_pendingCount; [done| |done]. by eapply exec_shape. }
  destruct (exec_Inv _ _ Hexec) as [[HS _] _].
  rewrite <- (pendingCount_active q HS).
  unfold pendingCount, maxQueueSize in *.
  destruct (currentOperation q); lia.
Qed.

Lemma capacity_never_exceeded_witness :
  ∃ tr q, play scenario_waiting [] init = Some (tr, q) ∧
    length (queue q) = 3%nat ∧ Z.of_nat (size (active q)) ≤ 10.
Proof.
  eexists _, _. split; [vm_compute; reflexivity|].
  split; [vm_compute; reflexivity|].
  refine (proj1 (capacity_never_exceeded _ _
           (play_exec scenario_waiting [] init _ _ exec_init _))).
  vm_compute; reflexivity.
Defined.

(** ** The readiness gate: [initializeService] *)

Lemma processLoop_flags now skipGate q c :
  Store (operations q) (queue q) c →
  serviceReady (processLoop now skipGate (queue q) q) = serviceReady q.
Proof.
  intros HS. rewrite processLoop_spec by apply HS.
  destruct (queue q); [done|].
  destruct (skipGate || serviceReady q); [done|].
  by destruct (serviceInitializing q).
Qed.

Lemma step_ready_stable now ev q q' :
  Inv q → (∀ u, uuid_of ev = Some u → operations q !! u = None) →
  step now ev q = Some q' →
  serviceReady q = true → serviceReady q' = true.
Proof.
  intros HInv Hfresh Hstep Hready. pose proof HInv as [HS HC].
  assert (serviceInitializing q = false) as Hini.
  { destruct (serviceInitializing q) eqn:Hi; [|done].
    rewrite (ctl_initializing _ HC Hi) in Hready. done. }
  assert (∀ q1 f x,
    operations q1 = operations q → queue q1 = queue q →
    serviceReady q1 = true → drain q = Some (AwaitExec x) → settles f →
    let q2 := set_currentOperation None (mutate f x q1) in
    serviceReady (processLoop now false (queue q2) q2) = true) as Hsettle.
  { intros q1 f x Ho Hq Hr Hd Hf q2.
    rewrite (processLoop_flags now false q2 None); [done|].
    cbn. rewrite Ho, Hq. apply Store_settle; [|done].
    assert (currentOperation q = Some x) as Hcur
      by (by rewrite (ctl_current _ HC), Hd).
    rewrite <- Hcur. exact HS. }
  destruct ev; cbn in Hstep.
  - injection Hstep as <-. specialize (Hfresh uuid eq_refl).
    unfold enqueue. case_bool_decide; [done|]. cbn [snd]. unfold processQueue.
    cbn [isProcessing admit_operation set_queue set_operations].
    destruct (isProcessing q); [done|].
    etrans;
      [apply (processLoop_flags now false
                (set_isProcessing true (admit_operation now uuid image text opts q))
                (currentOperation q)); by apply Inv_admit
      |done].
  - by injection Hstep as <-.
  - injection Hstep as <-. unfold cancel.
    destruct (operations q !! opId); [|done]. by case_decide.
  - injection Hstep as <-. unfold initializeService.
    by rewrite Hini, Hready.
  - by rewrite Hini in Hstep.
  - case_decide as Hd; [|done]. injection Hstep as <-. unfold pollWake.
    rewrite Hini. unfold resumeAfterInit. rewrite Hready.
    by rewrite (processLoop_flags now true q (currentOperation q)).
  - destruct (executions q !! opId) as [[|]|]; try done. by injection Hstep as <-.
  - destruct (executions q !! opId) as [[|]|]; try done.
    injection Hstep as <-. unfold execResolved. case_decide as Hd; [|done].
    apply (Hsettle _ _ opId); try done. apply settles_complete.
  - destruct (executions q !! opId) as [?|]; try done.
    injection Hstep as <-. unfold execRejected. case_decide as Hd; [|done].
    apply (Hsettle _ _ opId); try done. apply settles_fail.
  - destruct (timers q !! opId) as [due|]; try done.
    case_bool_decide; [|done]. injection Hstep as <-.
    unfold timerFired. case_decide as Hd; [|done].
    apply (Hsettle _ _ opId); try done. apply settles_fail.
  - by injection Hstep as <-.
Qed.

(** Once the service is ready it stays ready: in every later state
    [serviceReady] is true, no initialization is in flight, and a call of
    initializeService returns true at once without changing anything. *)
Theorem service_stays_ready tr0 q0 tr q :
  exec tr0 q0 → serviceReady q0 = true → exec (tr ++ tr0) q →
  serviceReady q = true ∧ serviceInitializing q = false ∧
  initializeService q = (InitReturnsTrue, q) ∧
  (∀ now ok, step now (InitSettled ok) q = None).
Proof.
  intros Hexec0 Hready0 Hexec.
  assert (serviceReady q = true) as Hready.
  { refine (exec_extend_ind (λ q, serviceReady q = true) tr0 q0 Hexec0
              Hready0 _ tr q Hexec).
    intros tr1 qp now ev q' Hexecp IH Hfresh Hstep.
    pose proof (exec_Inv _ _ Hexecp) as [HInv _].
    eapply step_ready_stable; try done. by eapply exec_fresh_store. }
  destruct (exec_Inv _ _ Hexec) as [[HS HC] _].
  assert (serviceInitializing q = false) as Hini.
  { destruct (serviceInitializing q) eqn:Hi; [|done].
    rewrite (ctl_initializing _ HC Hi) in Hready. done. }
  split; [done|]. split; [done|]. split.
  - unfold initializeService. by rewrite Hini, Hready.
  - intros now ok. cbn. by rewrite Hini.
Qed.

(** The service comes up for the first request. *)
Definition scenario_ready : list (Z * Event) :=
  [ (0, CallEnqueue "A" "a.png" "pan" no_options);
    (1, InitSettled true) ].

Lemma service_stays_ready_witness :
  ∃ tr0 q0 q1,
    play scenario_ready [] init = Some (tr0, q0) ∧
    serviceReady q0 = true ∧
    step 2 (ExecRejected "A" "Veed error: quota") q0 = Some q1 ∧
    serviceReady q1 = true ∧ serviceInitializing q1 = false ∧
    initializeService q1 = (InitReturnsTrue, q1) ∧
    (∀ now ok, step now (InitSettled ok) q1 = None).
Proof.
  eexists _, _, _. split; [vm_compute; reflexivity|].
  do 2 (split; [vm_compute; reflexivity|]).
  refine (service_stays_ready _ _
            [mkTransition 2 (ExecRejected "A" "Veed error: quota") _ _] _ _ _ _).
  - apply (play_exec scenario_ready [] init); [apply exec_init|].
    vm_compute; reflexivity.
  - vm_compute; reflexivity.
  - apply exec_step;
      [apply (play_exec scenario_ready [] init);
         [apply exec_init|vm_compute; reflexivity]
      |by apply fresh_no_uuid
      |vm_compute; reflexivity].
Defined.

(** After an initialization failed (the service is not ready and no
    initialization is in flight) the next admitted request starts a new
    one: the loop is idle, so enqueue leaves the new record Queued at
    position 1 and the loop awaits a fresh call of initVeedService. *)
Theorem failed_init_is_retried tr q now uuid image text opts :
  exec tr q → uuid ∉ uuids tr →
  isProcessing q = false → serviceReady q = false →
  serviceInitializing q = false →
  ∃ q', enqueue now uuid image text opts q =
          (Returned (mkEnqueueReply uuid QUEUED 1 1), q') ∧
        queue q' = [uuid] ∧ drain q' = Some AwaitInit ∧
        isProcessing q' = true ∧ serviceInitializing q' = true ∧
        ∃ q'', step now (InitSettled true) q' = Some q'' ∧
               currentOperation q'' = Some uuid ∧
               (status <$> operations q'' !! uuid) = Some PROCESSING.
Proof.
  intros Hexec Hnew Hidle Hready Hini.
  pose proof (exec_Inv _ _ Hexec) as [HInv Hdom]. pose proof HInv as [HS HC].
  pose proof (isProcessing_false_idle q HInv Hidle) as Hd.
  pose proof (ctl_idle _ HC Hd) as Hempty.
  pose proof (drain_None_current q HInv Hd) as Hcur.
  assert (operations q !! uuid = None) as Hnone.
  { apply eq_None_not_Some. by intros ?%Hdom. }
  assert (∃ q1, q1 = admit_operation now uuid image text opts q ∧
            operations q1 !! uuid = Some (newOperation now uuid image text opts q) ∧
            queue q1 = [uuid] ∧ isProcessing q1 = false ∧
            serviceReady q1 = false ∧ serviceInitializing q1 = false)
    as (q1 & Eq1 & Hq1 & Hqu1 & Hp1 & Hr1 & Hi1).
  { eexists. split; [done|]. cbn. rewrite lookup_insert_eq, Hempty. done. }
  assert (processQueue now q1 =
          set_drain (Some AwaitInit)
            (set_serviceInitializing true (set_isProcessing true q1))) as Hpq.
  { unfold processQueue. rewrite Hp1, Hqu1. cbn [processLoop].
    cbn [operations set_isProcessing]. rewrite Hq1.
    unfold initializeService.
    cbn [serviceReady serviceInitializing set_isProcessing].
    by rewrite Hr1, Hi1. }
  exists (set_drain (Some AwaitInit)
            (set_serviceInitializing true (set_isProcessing true q1))).
  split.
  { unfold enqueue.
    rewrite bool_decide_false
      by (unfold pendingCount, maxQueueSize; rewrite Hempty, Hcur; cbn; lia).
    rewrite <- Eq1, Hpq.
    cbn [operations queue set_drain set_serviceInitializing set_isProcessing].
    by rewrite Hq1, Hqu1, Hempty. }
  cbn [queue drain isProcessing serviceInitializing set_drain
       set_serviceInitializing set_isProcessing].
  split_and!; try done.
  eexists. split; [cbn; reflexivity|].
  unfold initSettled. rewrite decide_True by done.
  unfold resumeAfterInit.
  cbn [serviceReady set_serviceInitializing set_serviceReady set_drain
       set_isProcessing queue].
  rewrite Hqu1. cbn [processLoop].
  cbn [operations set_serviceInitializing set_serviceReady set_drain
       set_isProcessing].
  rewrite Hq1. cbn. by rewrite lookup_alter_eq, Hq1.
Qed.

(** A request fails because the service does not come up. *)
Definition scenario_init_failed : list (Z * Event) :=
  [ (0, CallEnqueue "A" "a.png" "pan" no_options);
    (1, InitSettled false) ].

Lemma failed_init_is_retried_witness :
  ∃ tr q, play scenario_init_failed [] init = Some (tr, q) ∧
    (status <$> operations q !! "A") = Some FAILED ∧
    ∃ q', enqueue 2 "B" "b.png" "zoom" no_options q =
            (Returned (mkEnqueueReply "B" QUEUED 1 1), q') ∧
      queue q' = ["B"] ∧ drain q' = Some AwaitInit ∧
      isProcessing q' = true ∧ serviceInitializing q' = true ∧
      ∃ q'', step 2 (InitSettled true) q' = Some q'' ∧
             currentOperation q'' = Some "B" ∧
             (status <$> operations q'' !! "B") = Some PROCESSING.
Proof.
  eexists _, _. split; [vm_compute; reflexivity|].
  split; [vm_compute; reflexivity|].
  refine (failed_init_is_retried _ _ 2 "B" "b.png" "zoom" no_options
            (play_exec scenario_init_failed [] init _ _ exec_init _) _ _ _ _).
  - vm_compute; reflexivity.
  - apply not_elem_of_compute. vm_compute; reflexivity.
  - vm_compute; reflexivity.
  - vm_compute; reflexivity.
  - vm_compute; reflexivity.
Defined.

(** ** The loop finds the queue empty *)

(** When every pending request was cancelled while the loop awaited the
    initialization, the resumed loop shifts nothing (lines 213-218): it
    returns without touching a record, whatever the outcome of the
    initialization. *)
Theorem loop_resumes_on_empty_queue tr q now ok :
  exec tr q → drain q = Some AwaitInit → queue q = [] →
  ∃ q', step now (InitSettled ok) q = Some q' ∧
        operations q' = operations q ∧ queue q' = [] ∧
        currentOperation q' = None ∧ isProcessing q' = false ∧
        drain q' = None ∧ serviceReady q' = ok ∧
        serviceInitializing q' = false.
Proof.
  intros Hexec Hd Hempty.
  pose proof (exec_Inv _ _ Hexec) as [HInv _]. pose proof HInv as [HS HC].
  assert (currentOperation q = None) as Hcur
    by (by rewrite (ctl_current _ HC), Hd).
  cbn. rewrite (ctl_own _ HC Hd). eexists. split; [done|].
  unfold initSettled. rewrite decide_True by done. unfold resumeAfterInit.
  cbn. destruct ok; cbn; rewrite Hempty; cbn; by rewrite ?Hcur.
Qed.

Definition scenario_all_cancelled : list (Z * Event) :=
  [ (0, CallEnqueue "A" "a.png" "pan" no_options);
    (1, CallCancel "A") ].

Lemma loop_resumes_on_empty_queue_witness :
  ∃ tr q, play scenario_all_cancelled [] init = Some (tr, q) ∧
    (status <$> operations q !! "A") = Some FAILED ∧
    ∃ q', step 2 (InitSettled true) q = Some q' ∧
          operations q' = operations q ∧ queue q' = [] ∧
          currentOperation q' = None ∧ isProcessing q' = false ∧
          drain q' = None ∧ serviceReady q' = true ∧
          serviceInitializing q' = false.
Proof.
  eexists _, _. split; [vm_compute; reflexivity|].
  split; [vm_compute; reflexivity|].
  refine (loop_resumes_on_empty_queue _ _ 2 true
            (play_exec scenario_all_cancelled [] init _ _ exec_init _) _ _).
  - vm_compute; reflexivity.
  - vm_compute; reflexivity.
  - vm_compute; reflexivity.
Defined.

(** ** How the calls compose *)


(** The state an admitted request leaves behind, in the two cases that
    line 102 distinguishes. *)
Lemma enqueue_busy now uuid image text opts q :
  pendingCount q < maxQueueSize → isProcessing q = true →
  enqueue now uuid image text opts q =
    (Returned (mkEnqueueReply uuid QUEUED (Z.of_nat (length (queue q)) + 1)
                 (Z.of_nat (length (queue q)) + 1)),
     admit_operation now uuid image text opts q).
Proof.
  intros Hroom Hbusy. unfold enqueue. rewrite bool_decide_false by lia.
  unfold processQueue. cbn [isProcessing admit_operation set_queue set_operations].
  rewrite Hbusy. cbn. rewrite lookup_insert_eq, length_app. cbn.
  do 3 f_equal. lia.
Qed.

Lemma processQueue_idle_ready now q1 opId op :
  isProcessing q1 = false → serviceReady q1 = true →
  queue q1 = [opId] → operations q1 !! opId = Some op →
  processQueue now q1 =
    startExecution now opId [] (set_isProcessing true q1).
Proof.
  intros Hp Hr Hq Hop. unfold processQueue. rewrite Hp, Hq.
  cbn [processLoop]. cbn [operations serviceReady set_isProcessing].
  by rewrite Hop, Hr.
Qed.

Lemma enqueue_idle_ready now uuid image text opts q :
  Inv q → isProcessing q = false → serviceReady q = true →
  enqueue now uuid image text opts q =
    (Returned (mkEnqueueReply uuid PROCESSING 1 0),
     startExecution now uuid []
       (set_isProcessing true (admit_operation now uuid image text opts q))).
Proof.
  intros HInv Hidle Hready. pose proof HInv as [HS HC].
  pose proof (isProcessing_false_idle q HInv Hidle) as Hd.
  pose proof (ctl_idle _ HC Hd) as Hempty.
  pose proof (drain_None_current q HInv Hd) as Hcur.
  unfold enqueue.
  rewrite bool_decide_false
    by (unfold pendingCount, maxQueueSize; rewrite Hempty, Hcur; cbn; lia).
  rewrite (processQueue_idle_ready now _ uuid
             (newOperation now uuid image text opts q)); try done.
  - cbn. rewrite lookup_alter_eq, lookup_insert_eq, Hempty. done.
  - cbn. by rewrite Hempty.
  - cbn. apply lookup_insert_eq.
Qed.

(** A request that was admitted while the loop was busy can be cancelled:
    the pending queue is then what it was before the request, and the
    other records are untouched.  A request admitted by an idle loop with
    the service ready is taken at once and cannot be cancelled any more:
    cancel refuses with "Cannot cancel operation in processing status"
    and changes nothing. *)
Theorem cancel_after_enqueue tr q now uuid image text opts now' :
  exec tr q → uuid ∉ uuids tr → pendingCount q < maxQueueSize →
  (isProcessing q = true →
     ∃ q2, cancel now' uuid (enqueue now uuid image text opts q).2 =
             (mkCancelReply true None, q2) ∧
           queue q2 = queue q ∧
           (status <$> operations q2 !! uuid) = Some FAILED ∧
           (∀ x, x ≠ uuid → operations q2 !! x = operations q !! x)) ∧
  (isProcessing q = false → serviceReady q = true →
     cancel now' uuid (enqueue now uuid image text opts q).2 =
       (mkCancelReply false
          (Some "Cannot cancel operation in processing status"),
        (enqueue now uuid image text opts q).2)).
Proof.
  intros Hexec Hnew Hroom.
  pose proof (exec_Inv _ _ Hexec) as [HInv Hdom]. pose proof HInv as [HS HC].
  assert (operations q !! uuid = None) as Hnone.
  { apply eq_None_not_Some. by intros ?%Hdom. }
  assert (uuid ∉ queue q) as Hnotin.
  { intros [? ?]%(store_queue _ _ _ HS). congruence. }
  split.
  - intros Hbusy. rewrite enqueue_busy by done. cbn [snd].
    unfold cancel. cbn [operations admit_operation set_queue set_operations].
    rewrite lookup_insert_eq. cbn [status newOperation].
    rewrite decide_True by done. eexists. split; [done|]. cbn.
    split; [|split].
    + rewrite splice_out_filter.
      * rewrite filter_app, filter_ne_absent by done.
        rewrite filter_cons_False by (intros ?; done). cbn. apply app_nil_r.
      * apply NoDup_app. split; [apply HS|]. split; [|apply NoDup_singleton].
        intros x Hx Hx'. apply list_elem_of_singleton in Hx' as ->. done.
    + by rewrite lookup_alter_eq, lookup_insert_eq.
    + intros x Hx. by rewrite lookup_alter_ne, lookup_insert_ne.
  - intros Hidle Hready. rewrite enqueue_idle_ready by done. cbn [snd].
    unfold cancel. cbn. rewrite lookup_alter_eq, lookup_insert_eq. done.
Qed.

Lemma cancel_after_enqueue_witness :
  ∃ tr q, play scenario_single [] init = Some (tr, q) ∧
    isProcessing q = false ∧ serviceReady q = true ∧
    (enqueue 4 "B" "b.png" "zoom" no_options q).1 =
      Returned (mkEnqueueReply "B" PROCESSING 1 0) ∧
    cancel 5 "B" (enqueue 4 "B" "b.png" "zoom" no_options q).2 =
      (mkCancelReply false
         (Some "Cannot cancel operation in processing status"),
       (enqueue 4 "B" "b.png" "zoom" no_options q).2).
Proof.
  eexists _, _. split; [vm_compute; reflexivity|].
  do 3 (split; [vm_compute; reflexivity|]).
  refine (proj2 (cancel_after_enqueue _ _ 4 "B" "b.png" "zoom" no_options 5
            (play_exec scenario_single [] init _ _ exec_init _) _ _) _ _).
  - vm_compute; reflexivity.
  - apply not_elem_of_compute. vm_compute; reflexivity.
  - vm_compute; reflexivity.
  - vm_compute; reflexivity.
  - vm_compute; reflexivity.
Defined.



(** ** The reaper again *)

(** A second sweep at the same clock reading deletes nothing more. *)
Theorem cleanup_idempotent now q :
  cleanupOldOperations now (cleanupOldOperations now q) =
  cleanupOldOperations now q.
Proof.
  assert (operations (cleanupOldOperations now (cleanupOldOperations now q)) =
          operations (cleanupOldOperations now q)) as Hops.
  { apply map_eq. intros opId. rewrite (cleanup_lookup now (cleanupOldOperations now q)).
    rewrite (cleanup_lookup now q).
    destruct (operations q !! opId) as [op|]; [|done].
    destruct (expired now op) eqn:Hex; [done|]. by rewrite Hex. }
  unfold cleanupOldOperations at 1 3. unfold cleanupOldOperations at 1 in Hops.
  cbn [operations set_operations] in Hops. rewrite Hops.
  by destruct q.
Qed.

(** A sweep never deletes a record that a later sweep would keep: what a
    sweep at time [now] deletes, every sweep at a later time deletes
    too. *)
Theorem cleanup_monotone now now' q opId :
  now ≤ now' →
  operations (cleanupOldOperations now q) !! opId = None →
  operations (cleanupOldOperations now' q) !! opId = None.
Proof.
  intros Hle. rewrite !cleanup_lookup.
  destruct (operations q !! opId) as [op|]; [|done].
  unfold expired.
  destruct (bool_decide (status op = COMPLETED) || bool_decide (status op = FAILED));
    [|done].
  cbn. case_bool_decide; [|done]. intros _. by rewrite bool_decide_true by lia.
Qed.

Lemma cleanup_monotone_witness :
  ∃ tr q, play scenario_single [] init = Some (tr, q) ∧
    operations (cleanupOldOperations 1800004 q) !! "A" = None ∧
    operations (cleanupOldOperations 1900000 q) !! "A" = None.
Proof.
  eexists _, _. split; [vm_compute; reflexivity|].
  split; [vm_compute; reflexivity|].
  refine (cleanup_monotone 1800004 1900000 _ "A" _ _).
  - lia.
  - vm_compute; reflexivity.
Defined.

(** ** Monitoring: [getAllStatus] (lines 139-157) *)

(** One element of the [operations] array of the reply. *)
Record Summary := mkSummary {
  m_operationId : Id;
  m_status : OperationStatus;
  m_createdAt : Z;
  m_updatedAt : Z;
}.

(** The object returned by [getAllStatus]. *)
Record AllStatus := mkAllStatus {
  a_queueLength : Z;
  a_processing : bool;
  a_currentOperationId : option Id;
  a_serviceReady : bool;
  a_operations : list Summary;
}.

(** Lines 141-148, over the entries of the map in iteration order. *)
Definition summaries (entries : list (Id * Operation)) : list Summary :=
  (λ e, mkSummary e.1 (status e.2) (createdAt e.2) (updatedAt e.2)) <$> entries.

(** [Array.prototype.sort] with the comparator
    [(a, b) => b.createdAt - a.createdAt]: the sort is stable, so elements
    that compare equal keep their order; [a] goes before [b] when the
    comparator is not positive. *)
Fixpoint insert_newest (a : Summary) (l : list Summary) : list Summary :=
  match l with
  | [] => [a]
  | b :: l' =>
      if bool_decide (m_createdAt b - m_createdAt a ≤ 0) then a :: b :: l'
      else b :: insert_newest a l'
  end.

Fixpoint sort_newest (l : list Summary) : list Summary :=
  match l with
  | [] => []
  | a :: l' => insert_newest a (sort_newest l')
  end.

(** [getAllStatus()], given the entries of [this.operations] in their
    iteration order. *)
Definition getAllStatus (entries : list (Id * Operation)) (q : VeedQueue) : AllStatus :=
  mkAllStatus
    (Z.of_nat (length (queue q)))
    (bool_decide (currentOperation q ≠ None))
    (currentOperation q)
    (serviceReady q)
    (take 20 (sort_newest (summaries entries))).

Lemma insert_newest_perm a l : insert_newest a l ≡ₚ a :: l.
Proof.
  induction l as [|b l IH]; [done|]. cbn. case_bool_decide; [done|].
  rewrite IH. apply Permutation_swap.
Qed.

Lemma sort_newest_perm l : sort_newest l ≡ₚ l.
Proof.
  induction l as [|a l IH]; [done|]. cbn. by rewrite insert_newest_perm, IH.
Qed.

Definition newer_first (a b : Summary) : Prop := m_createdAt b ≤ m_createdAt a.

Lemma insert_newest_sorted a l :
  StronglySorted newer_first l → StronglySorted newer_first (insert_newest a l).
Proof.
  induction 1 as [|b l Hl IH Hb]; cbn.
  - repeat constructor.
  - case_bool_decide as Hcmp.
    + constructor; [by constructor|]. constructor; [unfold newer_first; lia|].
      eapply Forall_impl; [exact Hb|]. unfold newer_first. intros c Hc. lia.
    + constructor; [done|]. rewrite insert_newest_perm.
      constructor; [unfold newer_first; lia|done].
Qed.

Lemma sort_newest_sorted l : StronglySorted newer_first (sort_newest l).
Proof.
  induction l as [|a l IH]; cbn; [constructor|by apply insert_newest_sorted].
Qed.

(** The sort is stable: entries created at the same time stay in the
    order of the iteration. *)
Lemma insert_newest_stable a l t :
  filter (λ s, m_createdAt s = t) (insert_newest a l) =
  filter (λ s, m_createdAt s = t) (a :: l).
Proof.
  induction l as [|b l IH]; [done|]. cbn [insert_newest].
  case_bool_decide as Hcmp; [done|].
  rewrite filter_cons, IH, !filter_cons.
  repeat case_decide; try done. lia.
Qed.

Lemma sort_newest_stable l t :
  filter (λ s, m_createdAt s = t) (sort_newest l) =
  filter (λ s, m_createdAt s = t) l.
Proof.
  induction l as [|a l IH]; [done|]. cbn [sort_newest].
  rewrite insert_newest_stable, !filter_cons, IH. done.
Qed.

(** The monitoring reply lists at most 20 operations, the most recently
    created first (operations created at the same time in the order of
    the map); every operation left out was created no later than every
    operation listed; the list is a rearrangement of a part of the
    summaries of the stored records, and lists everything when the store
    has at most 20 records. *)
Theorem getAllStatus_newest_first entries q :
  let listed := a_operations (getAllStatus entries q) in
  length listed = (length entries `min` 20)%nat ∧
  StronglySorted newer_first listed ∧
  (∃ rest, listed ++ rest ≡ₚ summaries entries ∧
           ∀ a b, a ∈ listed → b ∈ rest → m_createdAt b ≤ m_createdAt a) ∧
  (∀ t, filter (λ s, m_createdAt s = t) listed
          `prefix_of` filter (λ s, m_createdAt s = t) (summaries entries)) ∧
  ((length entries ≤ 20)%nat → listed ≡ₚ summaries entries).
Proof.
  cbn. set (sorted := sort_newest (summaries entries)).
  assert (length sorted = length entries) as Hlen.
  { unfold sorted. rewrite sort_newest_perm. unfold summaries. apply length_fmap. }
  pose proof (sort_newest_sorted (summaries entries)) as Hsorted. fold sorted in Hsorted.
  split; [rewrite length_take; lia|]. split; [|split; [|split]].
  - rewrite <- (take_drop 20 sorted) in Hsorted.
    by apply StronglySorted_app_1_l in Hsorted.
  - exists (drop 20 sorted). split.
    + rewrite take_drop. apply sort_newest_perm.
    + intros a b Ha Hb. rewrite <- (take_drop 20 sorted) in Hsorted.
      by apply (StronglySorted_app_1_elem_of _ _ _ a b Hsorted).
  - intros t. rewrite <- (sort_newest_stable (summaries entries) t). fold sorted.
    rewrite <- (take_drop 20 sorted) at 2. rewrite filter_app.
    by eexists.
  - intros Hsmall. rewrite take_ge by lia. apply sort_newest_perm.
Qed.

(** In a reachable state, with [entries] the entries of the store: the
    reply says processing exactly when some record is Processing, and
    names that record; the queue length is the number of identifiers
    pending; every listed operation is a stored record with the listed
    status and timestamps, and no operation is listed twice. *)
Theorem getAllStatus_consistent tr q entries :
  exec tr q → entries ≡ₚ map_to_list (operations q) →
  let r := getAllStatus entries q in
  (a_processing r = true ↔
     ∃ opId op, operations q !! opId = Some op ∧ status op = PROCESSING) ∧
  (∀ opId, a_currentOperationId r = Some opId ↔
     ∃ op, operations q !! opId = Some op ∧ status op = PROCESSING) ∧
  a_queueLength r = Z.of_nat (length (queue q)) ∧
  (∀ s, s ∈ a_operations r →
     ∃ op, operations q !! m_operationId s = Some op ∧
           m_status s = status op ∧ m_createdAt s = createdAt op ∧
           m_updatedAt s = updatedAt op) ∧
  NoDup (m_operationId <$> a_operations r).
Proof.
  intros Hexec Hperm. cbn.
  destruct (exec_Inv _ _ Hexec) as [[HS HC] _].
  assert (∀ opId, currentOperation q = Some opId ↔
     ∃ op, operations q !! opId = Some op ∧ status op = PROCESSING) as Hcur.
  { intros opId. split.
    - intros Hc. destruct (store_current _ _ _ HS _ Hc) as [op Hop].
      exists op. split; [done|]. by apply (store_processing _ _ _ HS _ _ Hop).
    - intros (op & Hop & Hst). by apply (store_processing _ _ _ HS _ _ Hop). }
  assert (take 20 (sort_newest (summaries entries)) `sublist_of`
          sort_newest (summaries entries)) as Hsub by apply sublist_take.
  split; [|split; [done|split; [done|split]]].
  - rewrite bool_decide_eq_true. split.
    + intros Hne. destruct (currentOperation q) as [c|] eqn:Hc; [|done].
      exists c. by apply Hcur.
    + intros (opId & Hx). apply Hcur in Hx. congruence.
  - intros s Hs. eapply elem_of_sublist in Hs; [|exact Hsub].
    rewrite sort_newest_perm in Hs. unfold summaries in Hs.
    apply list_elem_of_fmap in Hs as ([k op] & -> & Hin).
    rewrite Hperm in Hin. apply elem_of_map_to_list in Hin.
    exists op. by cbn.
  - eapply sublist_NoDup; [|rewrite fmap_take; apply sublist_take].
    rewrite sort_newest_perm. unfold summaries. rewrite <- list_fmap_compose.
    rewrite Hperm. apply NoDup_fst_map_to_list.
Qed.

Lemma getAllStatus_consistent_witness :
  ∃ tr q, play scenario_ready [] init = Some (tr, q) ∧
    getAllStatus (map_to_list (operations q)) q =
      mkAllStatus 0 true (Some "A") true [mkSummary "A" PROCESSING 0 1] ∧
    (a_processing (getAllStatus (map_to_list (operations q)) q) = true ↔
       ∃ opId op, operations q !! opId = Some op ∧ status op = PROCESSING).
Proof.
  eexists _, _. split; [vm_compute; reflexivity|].
  split; [vm_compute; reflexivity|].
  refine (proj1 (getAllStatus_consistent _ _ _
            (play_exec scenario_ready [] init _ _ exec_init _) _)).
  - vm_compute; reflexivity.
  - reflexivity.
Defined.

(** ** The request of a record is never altered *)

(** The fields written once, by [enqueue]. *)
Definition same_request (op op' : Operation) : Prop :=
  op_id op' = op_id op ∧ imageUrl op' = imageUrl op ∧
  prompt op' = prompt op ∧ options op' = options op ∧
  createdAt op' = createdAt op ∧ position op' = position op.

(** The progress note is only ever set to the one note of line 269. *)
Definition progress_step (op op' : Operation) : Prop :=
  progress op' = progress op ∨ progress op' = Some msg_starting.

Definition Keeps (f : Operation → Operation) : Prop :=
  ∀ op, same_request op (f op) ∧ progress_step op (f op).

Lemma Keeps_mark_processing now : Keeps (mark_processing now).
Proof. intros op. split; [done|by left]. Qed.

Lemma Keeps_complete_with r now : Keeps (complete_with r now).
Proof. intros op. split; [done|by left]. Qed.

Lemma Keeps_fail_with msg now : Keeps (fail_with msg now).
Proof. intros op. split; [done|by left]. Qed.

Lemma Keeps_updateProgress now : Keeps (updateProgress msg_starting now).
Proof. intros op. split; [done|by right]. Qed.

(** What the store holds for an identifier before and after. *)
Definition request_kept (o o' : option Operation) : Prop :=
  match o, o' with
  | Some op, Some op' => same_request op op' ∧ progress_step op op'
  | _, _ => True
  end.

Lemma request_kept_refl o : request_kept o o.
Proof. destruct o; cbn; [|done]. split; [done|by left]. Qed.

Lemma request_kept_alter o (m : gmap string Operation) f x opId :
  Keeps f → request_kept o (m !! opId) → request_kept o (alter f x m !! opId).
Proof.
  intros Hf Hrel. rewrite lookup_alter. case_decide; [subst|done].
  destruct (m !! opId) as [op1|]; [|by destruct o].
  destruct o as [op|]; [|done]. cbn in *.
  destruct Hrel as [(?&?&?&?&?&?) Hp], (Hf op1) as [(?&?&?&?&?&?) Hp'].
  split; [split_and!; congruence|].
  unfold progress_step in *. destruct Hp, Hp'; [left|right|right|right]; congruence.
Qed.

Lemma request_kept_foldl o (m : gmap string Operation) f l opId :
  Keeps f → request_kept o (m !! opId) →
  request_kept o (foldl (λ m x, alter f x m) m l !! opId).
Proof.
  intros Hf. revert m. induction l as [|x l IH]; intros m Hrel; [done|].
  cbn. apply IH. by apply request_kept_alter.
Qed.

Lemma request_kept_cleanup o now q opId :
  request_kept o (operations q !! opId) →
  request_kept o (operations (cleanupOldOperations now q) !! opId).
Proof.
  rewrite cleanup_lookup. destruct (operations q !! opId) as [op|]; [|done].
  destruct (expired now op); [by destruct o|done].
Qed.

Lemma request_kept_processLoop o now skipGate q c opId :
  Store (operations q) (queue q) c →
  request_kept o (operations q !! opId) →
  request_kept o (operations (processLoop now skipGate (queue q) q) !! opId).
Proof.
  intros HS Hrel.
  destruct (processLoop_effect now skipGate q c HS)
    as [(-> & _ & _)|(x & rest & op & _ & _ & _ & -> & _ & _)]; [done|].
  apply request_kept_alter; [apply Keeps_mark_processing|done].
Qed.

Lemma step_request_kept now ev q q' opId :
  Inv q → (∀ u, uuid_of ev = Some u → operations q !! u = None) →
  step now ev q = Some q' →
  request_kept (operations q !! opId) (operations q' !! opId).
Proof.
  intros HInv Hfresh Hstep. pose proof HInv as [HS HC].
  pose proof (request_kept_refl (operations q !! opId)) as Hrefl.
  assert (∀ q1 f x,
    operations q1 = operations q → queue q1 = queue q →
    drain q = Some (AwaitExec x) → settles f → Keeps f →
    let q2 := set_currentOperation None (mutate f x q1) in
    request_kept (operations q !! opId)
      (operations (processLoop now false (queue q2) q2) !! opId)) as Hsettle.
  { intros q1 f x Ho Hq Hd Hf Hk q2.
    apply (request_kept_processLoop _ now false q2 None).
    - cbn. rewrite Ho, Hq. apply Store_settle; [|done].
      assert (currentOperation q = Some x) as Hcur
        by (by rewrite (ctl_current _ HC), Hd).
      rewrite <- Hcur. exact HS.
    - cbn. rewrite Ho. by apply request_kept_alter. }
  assert (∀ q1,
    operations q1 = operations q → queue q1 = queue q →
    request_kept (operations q !! opId)
      (operations (resumeAfterInit now (serviceReady q1) q1) !! opId)) as Hinit.
  { intros q1 Ho Hq. unfold resumeAfterInit. destruct (serviceReady q1).
    - apply (request_kept_processLoop _ now true q1 (currentOperation q)).
      + rewrite Ho, Hq. exact HS.
      + by rewrite Ho.
    - cbn. rewrite Ho. apply request_kept_foldl; [apply Keeps_fail_with|done]. }
  destruct ev; cbn in Hstep.
  - injection Hstep as <-. specialize (Hfresh uuid eq_refl).
    unfold enqueue. case_bool_decide; [done|]. cbn [snd].
    pose proof (Inv_admit now q HInv uuid image text opts Hfresh) as HS1.
    assert (request_kept (operations q !! opId)
              (operations (admit_operation now uuid image text opts q) !! opId))
      as Hadm.
    { cbn. rewrite lookup_insert. case_decide; [subst|done]. by rewrite Hfresh. }
    unfold processQueue.
    cbn [isProcessing admit_operation set_queue set_operations].
    destruct (isProcessing q); [exact Hadm|].
    apply (request_kept_processLoop _ now false
             (set_isProcessing true (admit_operation now uuid image text opts q))
             (currentOperation q)); [exact HS1|exact Hadm].
  - by injection Hstep as <-.
  - injection Hstep as <-. unfold cancel.
    destruct (operations q !! opId0); [|done]. case_decide; [|done].
    cbn. apply request_kept_alter; [apply Keeps_fail_with|done].
  - injection Hstep as <-. unfold initializeService. by repeat case_match.
  - destruct (serviceInitializing q); [|done]. injection Hstep as <-.
    unfold initSettled. case_decide; [|done]. by apply Hinit.
  - case_decide; [|done]. injection Hstep as <-. unfold pollWake.
    destruct (serviceInitializing q); [done|]. by apply Hinit.
  - destruct (executions q !! opId0) as [[|]|]; try done.
    injection Hstep as <-. cbn.
    apply request_kept_alter; [apply Keeps_updateProgress|done].
  - destruct (executions q !! opId0) as [[|]|]; try done.
    injection Hstep as <-. unfold execResolved. case_decide; [|done].
    apply (Hsettle _ _ opId0); try done;
      [apply settles_complete|apply Keeps_complete_with].
  - destruct (executions q !! opId0) as [?|]; try done.
    injection Hstep as <-. unfold execRejected. case_decide; [|done].
    apply (Hsettle _ _ opId0); try done; [apply settles_fail|apply Keeps_fail_with].
  - destruct (timers q !! opId0) as [due|]; try done.
    case_bool_decide; [|done]. injection Hstep as <-.
    unfold timerFired. case_decide; [|done].
    apply (Hsettle _ _ opId0); try done; [apply settles_fail|apply Keeps_fail_with].
  - injection Hstep as <-. by apply request_kept_cleanup.
Qed.

(** What a request was admitted with is what its record holds for as
    long as it exists, and so what [executeOperation] reads at lines
    272-274: image, prompt, options, creation time and initial position
    are never written again. *)
Theorem request_is_immutable tr0 q0 now uuid image text opts reply q1 tr q op :
  exec tr0 q0 → uuid ∉ uuids tr0 →
  enqueue now uuid image text opts q0 = (Returned reply, q1) →
  exec (tr ++ mkTransition now (CallEnqueue uuid image text opts) q0 q1 :: tr0) q →
  operations q !! uuid = Some op →
  op_id op = uuid ∧ imageUrl op = image ∧ prompt op = text ∧
  options op = opts ∧ createdAt op = now ∧ position op = r_position reply.
Proof.
  intros Hexec0 Hnew Henq Hexec Hop.
  pose proof (exec_Inv _ _ Hexec0) as [HInv0 Hdom0].
  assert (operations q0 !! uuid = None) as Hnone.
  { apply eq_None_not_Some. by intros ?%Hdom0. }
  assert (r_position reply = Z.of_nat (length (queue q0)) + 1) as Hpos.
  { eapply (enqueue_returned now uuid image text opts q0 reply). by rewrite Henq. }
  assert (step now (CallEnqueue uuid image text opts) q0 = Some q1) as Hstep1
    by (cbn; by rewrite Henq).
  assert (fresh (CallEnqueue uuid image text opts) tr0) as Hfresh1.
  { intros u [= <-]. done. }
  pose proof (exec_step _ _ _ _ _ Hexec0 Hfresh1 Hstep1) as Hexec1.
  set (new := newOperation now uuid image text opts q0).
  assert (∃ op1, operations q1 !! uuid = Some op1 ∧ same_request new op1)
    as (op1 & Hop1 & Hsame1).
  { assert (request_kept (Some new) (operations q1 !! uuid)) as Hrel.
    { unfold enqueue in Henq. case_bool_decide; [done|].
      injection Henq as _ <-.
      pose proof (Inv_admit now q0 HInv0 uuid image text opts Hnone) as HS1.
      assert (request_kept (Some new)
                (operations (admit_operation now uuid image text opts q0) !! uuid))
        as Hadm.
      { cbn [operations admit_operation set_queue set_operations].
        rewrite lookup_insert_eq. apply (request_kept_refl (Some new)). }
      unfold processQueue.
      cbn [isProcessing admit_operation set_queue set_operations].
      destruct (isProcessing q0); [exact Hadm|].
      apply (request_kept_processLoop _ now false
               (set_isProcessing true (admit_operation now uuid image text opts q0))
               (currentOperation q0)); [exact HS1|exact Hadm]. }
    assert (is_Some (operations q1 !! uuid)) as [op1 Hop1].
    { unfold enqueue in Henq. case_bool_decide; [done|].
      injection Henq as _ <-.
      destruct (processQueue_lookup now
                  (admit_operation now uuid image text opts q0) _ uuid
                  (Inv_admit now q0 HInv0 uuid image text opts Hnone))
        as [->|(o & _ & _ & ->)]; [|by eexists].
      cbn. rewrite lookup_insert_eq. by eexists. }
    exists op1. split; [done|]. rewrite Hop1 in Hrel. apply Hrel. }
  assert (same_request op1 op) as Hsame.
  { revert op Hop.
    refine (exec_extend_ind
              (λ q, ∀ op, operations q !! uuid = Some op → same_request op1 op)
              _ q1 Hexec1 _ _ tr q Hexec).
    - intros op Hop. rewrite Hop1 in Hop. by injection Hop as <-.
    - intros tr1 qp now' ev q' Hexecp IH Hfresh Hstep op' Hop'.
      pose proof (exec_Inv _ _ Hexecp) as [HInv _].
      pose proof (step_request_kept now' ev qp q' uuid HInv
                    (exec_fresh_store _ _ _ Hexecp Hfresh) Hstep) as Hrel.
      rewrite Hop' in Hrel.
      destruct (operations qp !! uuid) as [opp|] eqn:Hopp.
      + destruct (IH _ eq_refl) as (?&?&?&?&?&?).
        destruct Hrel as [(?&?&?&?&?&?) _]. split_and!; congruence.
      + assert (uuid ∈ uuids (tr1 ++ mkTransition now
                  (CallEnqueue uuid image text opts) q0 q1 :: tr0)) as Hminted.
        { apply uuids_app_r. rewrite uuids_cons. cbn. apply elem_of_cons. by left. }
        pose proof (step_no_rebirth _ _ _ _ _ uuid Hexecp Hfresh Hstep Hminted Hopp).
        congruence. }
  unfold same_request in Hsame1. subst new. cbn in Hsame1.
  destruct Hsame1 as (?&?&?&?&?&?), Hsame as (?&?&?&?&?&?).
  rewrite Hpos. split_and!; congruence.
Qed.

Lemma request_is_immutable_witness :
  ∃ q1 q2 reply op,
    enqueue 0 "A" "a.png" "pan" no_options init = (Returned reply, q1) ∧
    step 1 (InitSettled true) q1 = Some q2 ∧
    operations q2 !! "A" = Some op ∧ status op = PROCESSING ∧
    op_id op = "A" ∧ imageUrl op = "a.png" ∧ prompt op = "pan" ∧
    options op = no_options ∧ createdAt op = 0 ∧
    position op = r_position reply.
Proof.
  eexists _, _, _, _. split; [vm_compute; reflexivity|].
  do 3 (split; [vm_compute; reflexivity|]).
  refine (request_is_immutable [] init 0 "A" "a.png" "pan" no_options _ _
            [mkTransition 1 (InitSettled true) _ _] _ _ exec_init _ _ _ _).
  - by apply not_elem_of_compute.
  - vm_compute; reflexivity.
  - apply exec_step;
      [apply exec_step;
         [apply exec_init|apply fresh_uuid; vm_compute; reflexivity
         |vm_compute; reflexivity]
      |by apply fresh_no_uuid
      |vm_compute; reflexivity].
  - vm_compute; reflexivity.
Defined.

(** In every reachable state a record has no progress note or the note
    "Starting video generation...", the only one the queue ever writes. *)
Theorem progress_is_the_starting_note tr q opId op :
  exec tr q → operations q !! opId = Some op →
  progress op = None ∨ progress op = Some "Starting video generation...".
Proof.
  intros Hexec. revert op.
  induction Hexec as [|tr q now ev q' Hexec IH Hfresh Hstep]; intros op Hop.
  { done. }
  pose proof (exec_Inv _ _ Hexec) as [HInv Hdom].
  pose proof (step_request_kept now ev q q' opId HInv
                (exec_fresh_store _ _ _ Hexec Hfresh) Hstep) as Hrel.
  rewrite Hop in Hrel.
  destruct (operations q !! opId) as [opp|] eqn:Hopp.
  - destruct Hrel as [_ [Hp|Hp]]; [|by right].
    rewrite Hp. by apply IH.
  - (* the record is new *)
    pose proof (exec_shape _ _ _ _ _ Hexec Hfresh Hstep) as Hshape.
    destruct (shape_created now ev q q' HInv Hshape opId) as [[? ?]|Hadm];
      [by rewrite Hop|congruence|].
    unfold admitted, enqueue_reply in Hadm. cbn in Hadm.
    destruct ev; try done. cbn in Hstep. injection Hstep as <-.
    unfold enqueue in Hadm, Hop. case_bool_decide; [done|].
    cbn in Hadm. injection Hadm as ->. cbn [snd] in Hop.
    destruct (processQueue_lookup now
                (admit_operation now opId image text opts q) _ opId
                (Inv_admit now q HInv opId image text opts Hopp))
      as [Heq|(o & Ho & _ & Heq)]; rewrite Heq in Hop.
    + cbn in Hop. rewrite lookup_insert_eq in Hop. injection Hop as <-. by left.
    + cbn in Ho. rewrite lookup_insert_eq in Ho. injection Ho as <-.
      injection Hop as <-. by left.
Qed.

Lemma progress_is_the_starting_note_witness :
  ∃ tr q op, play scenario_single [] init = Some (tr, q) ∧
    operations q !! "A" = Some op ∧
    progress op = Some "Starting video generation..." ∧
    (progress op = None ∨ progress op = Some "Starting video generation...").
Proof.
  eexists _, _, _. split; [vm_compute; reflexivity|].
  do 2 (split; [vm_compute; reflexivity|]).
  refine (progress_is_the_starting_note _ _ "A" _
            (play_exec scenario_single [] init _ _ exec_init _) _).
  - vm_compute; reflexivity.
  - vm_compute; reflexivity.
Defined.

(** ** The health probe: [getHealth] (lines 305-329) *)

(** What [service.getAuthStatus()] resolves to. *)
Record AuthStatus := mkAuthStatus {
  authenticated : bool;
  browserConnected : bool;
}.

(** The object returned by [getHealth]. *)
Record Health := mkHealth {
  h_available : bool;
  h_authenticated : bool;
  h_browserConnected : bool;
  h_initializing : bool;
  h_queueLength : Z;
  h_processing : bool;
  h_error : option string;
}.

(** [getHealth()], resumed after its two awaits with their outcome
    [probe]: the status, or the error that [getVeedService()] or
    [getAuthStatus()] threw.  The fields of the queue are read then. *)
Definition getHealth (probe : Outcome AuthStatus) (q : VeedQueue) : Health :=
  match probe with
  | Returned st =>
      mkHealth (serviceReady q) (authenticated st) (browserConnected st)
        (serviceInitializing q) (Z.of_nat (length (queue q)))
        (bool_decide (currentOperation q ≠ None)) None
  | Thrown msg =>
      mkHealth false false false (serviceInitializing q)
        (Z.of_nat (length (queue q))) false (Some msg)
  end.

(** In a reachable state the health report never says available and
    initializing at once; it says processing only when it says available,
    and then exactly when some record is Processing.  When the probe of
    the service throws, the report says neither available nor processing,
    whatever the queue is doing, and carries the error message. *)
Theorem getHealth_consistent tr q probe :
  exec tr q →
  (h_available (getHealth probe q) = true →
     h_initializing (getHealth probe q) = false ∧
     h_error (getHealth probe q) = None) ∧
  (h_processing (getHealth probe q) = true →
     h_available (getHealth probe q) = true ∧
     ∃ opId op, operations q !! opId = Some op ∧ status op = PROCESSING) ∧
  (∀ st, probe = Returned st →
     (∃ opId op, operations q !! opId = Some op ∧ status op = PROCESSING) →
     h_processing (getHealth probe q) = true) ∧
  (∀ msg, probe = Thrown msg →
     h_available (getHealth probe q) = false ∧
     h_processing (getHealth probe q) = false ∧
     h_error (getHealth probe q) = Some msg ∧
     h_queueLength (getHealth probe q) = Z.of_nat (length (queue q))).
Proof.
  intros Hexec. destruct (exec_Inv _ _ Hexec) as [[HS HC] _].
  split; [|split; [|split]].
  - destruct probe; cbn; [|done]. intros Hr. split; [|done].
    destruct (serviceInitializing q) eqn:Hi; [|done].
    rewrite (ctl_initializing _ HC Hi) in Hr. done.
  - destruct probe; cbn; [|done]. intros Hc%bool_decide_eq_true.
    destruct (currentOperation q) as [c|] eqn:Hcur; [|done].
    assert (drain q = Some (AwaitExec c)) as Hd.
    { rewrite (ctl_current _ HC) in Hcur.
      destruct (drain q) as [[| |x]|]; try done. by injection Hcur as ->. }
    split; [by apply (ctl_exec _ HC c)|].
    destruct (store_current _ _ _ HS c eq_refl) as [op Hop].
    exists c, op. split; [done|]. by apply (store_processing _ _ _ HS _ _ Hop).
  - intros st -> (opId & op & Hop & Hst). cbn. apply bool_decide_eq_true.
    apply (store_processing _ _ _ HS _ _ Hop) in Hst. congruence.
  - by intros msg ->.
Qed.

Lemma getHealth_consistent_witness :
  ∃ tr q, play scenario_ready [] init = Some (tr, q) ∧
    getHealth (Returned (mkAuthStatus true true)) q =
      mkHealth true true true false 0 true None ∧
    getHealth (Thrown "Service not initialized") q =
      mkHealth false false false false 0 false (Some "Service not initialized") ∧
    (h_available (getHealth (Returned (mkAuthStatus true true)) q) = true →
       h_initializing (getHealth (Returned (mkAuthStatus true true)) q) = false ∧
       h_error (getHealth (Returned (mkAuthStatus true true)) q) = None).
Proof.
  eexists _, _. split; [vm_compute; reflexivity|].
  do 2 (split; [vm_compute; reflexivity|]).
  refine (proj1 (getHealth_consistent _ _ _
            (play_exec scenario_ready [] init _ _ exec_init _))).
  vm_compute; reflexivity.
Defined.

(** ** The HTTP handlers of the queue (index.js, lines 878-990) *)

(** The JSON values the handlers build. *)
#[warnings="-register-all"]
Inductive Json :=
  | JNull
  | JBool (b : bool)
  | JNum (z : Z)
  | JStr (s : string)
  | JObj (fields : list (string * Json)).

(** A response: the status code and the body given to [res.json]. *)
Record Response := mkResponse {
  code : Z;
  body : Json;
}.

(** The value of a key of an object. *)
Definition json_get (key : string) (j : Json) : option Json :=
  match j with
  | JObj fields =>
      match list_find (λ kv, kv.1 = key) fields with
      | Some (_, kv) => Some kv.2
      | None => None
      end
  | _ => None
  end.

Lemma json_get_cons key k v fields :
  json_get key (JObj ((k, v) :: fields)) =
  if decide (k = key) then Some v else json_get key (JObj fields).
Proof.
  cbn. case_decide; [done|]. by destruct (list_find _ fields) as [[? ?]|].
Qed.

Ltac json_lookup :=
  rewrite ?json_get_cons;
  repeat (first [rewrite decide_True by done|rewrite decide_False by done]).

Definition json_opt_str (o : option string) : Json :=
  match o with Some s => JStr s | None => JNull end.

Definition json_opt_num (o : option Z) : Json :=
  match o with Some z => JNum z | None => JNull end.

(** The body of POST /api/veed/generate, for requests whose fields are
    strings or absent. *)
Record GenerateBody := mkGenerateBody {
  b_imageUrl : option string;
  b_prompt : option string;
  b_aspectRatio : option string;
  b_duration : option string;
}.

(** [!x] is false for a non-empty string only. *)
Definition truthy (o : option string) : bool :=
  match o with
  | Some s => negb (bool_decide (s = ""))
  | None => false
  end.

Definition error_body (msg : string) : Json :=
  JObj [("success", JBool false); ("error", JStr msg)].

(** Lines 878-912. *)
Definition veed_generate (now : Z) (uuid : Id) (b : GenerateBody) (q : VeedQueue) : Response * VeedQueue :=
  if negb (truthy (b_imageUrl b)) then
    (mkResponse 400 (error_body "imageUrl is required"), q)
  else if negb (truthy (b_prompt b)) then
    (mkResponse 400 (error_body "prompt is required"), q)
  else
    match enqueue now uuid (default "" (b_imageUrl b)) (default "" (b_prompt b))
            (mkOptions (b_aspectRatio b) (b_duration b)) q with
    | (Returned r, q') =>
        (mkResponse 200
           (JObj [("success", JBool true); ("queued", JBool true);
                  ("operationId", JStr (r_operationId r));
                  ("status", JStr (status_string (r_status r)));
                  ("position", JNum (r_position r));
                  ("queueLength", JNum (r_queueLength r));
                  ("message",
                   JStr ("Request queued. Poll /api/veed/status/" +:+
                         r_operationId r +:+ " for updates."))]),
         q')
    | (Thrown msg, q') => (mkResponse 500 (error_body msg), q')
    end.

(** The result of the executor as JSON. *)
Definition json_result (o : option VideoResult) : Json :=
  match o with
  | Some r =>
      JObj [("success", JBool true); ("videoUrl", JStr (videoUrl r));
            ("localPath", json_opt_str (localPath r))]
  | None => JNull
  end.

(** The fields of a snapshot, in the order of lines 125-135. *)
Definition snapshot_fields (s : Snapshot) : list (string * Json) :=
  [("operationId", JStr (s_operationId s));
   ("status", JStr (status_string (s_status s)));
   ("position", json_opt_num (s_position s));
   ("queueLength", JNum (s_queueLength s));
   ("progress", json_opt_str (s_progress s));
   ("createdAt", JNum (s_createdAt s));
   ("updatedAt", JNum (s_updatedAt s));
   ("result", json_result (s_result s));
   ("error", json_opt_str (s_error s))].

(** Lines 933-938: the two keys added for a completed operation. *)
Definition video_fields (s : Snapshot) : list (string * Json) :=
  match s_result s with
  | Some r =>
      if bool_decide (s_status s = COMPLETED) then
        [("videoUrl",
          JStr (if truthy (localPath r) then default "" (localPath r)
                else videoUrl r));
         ("cdnUrl", JStr (videoUrl r))]
      else []
  | None => []
  end.

(** Lines 915-946. *)
Definition veed_status (opId : Id) (q : VeedQueue) : Response :=
  match getStatus opId q with
  | None => mkResponse 404 (error_body "Operation not found")
  | Some s =>
      mkResponse 200
        (JObj ([("success", JBool true)] ++ snapshot_fields s ++ video_fields s))
  end.

(** Lines 968-990. *)
Definition veed_cancel (now : Z) (opId : Id) (q : VeedQueue) : Response * VeedQueue :=
  let '(r, q') := cancel now opId q in
  if success r then
    (mkResponse 200
       (JObj [("success", JBool true); ("message", JStr "Operation cancelled")]),
     q')
  else
    (mkResponse 400
       (JObj [("success", JBool false); ("error", json_opt_str (c_error r))]),
     q').

(** POST /api/veed/generate in a reachable state: a request without an
    image is refused with 400 before anything else is looked at, one
    without a prompt with 400, and neither touches the queue; a valid
    request is refused with 500 and the queue-full message, the queue
    untouched, exactly when 10 records are Queued or Processing, and is
    otherwise answered 200 with the new identifier, the request being
    stored as submitted. *)
Theorem veed_generate_responses tr q now uuid b :
  exec tr q → uuid ∉ uuids tr →
  (truthy (b_imageUrl b) = false →
     veed_generate now uuid b q =
       (mkResponse 400 (error_body "imageUrl is required"), q)) ∧
  (truthy (b_imageUrl b) = true → truthy (b_prompt b) = false →
     veed_generate now uuid b q =
       (mkResponse 400 (error_body "prompt is required"), q)) ∧
  (truthy (b_imageUrl b) = true → truthy (b_prompt b) = true →
     10 ≤ Z.of_nat (size (active q)) →
     veed_generate now uuid b q =
       (mkResponse 500
          (error_body "Queue is full. Maximum 10 pending operations allowed."),
        q)) ∧
  (truthy (b_imageUrl b) = true → truthy (b_prompt b) = true →
     Z.of_nat (size (active q)) < 10 →
     ∃ resp q' op,
       veed_generate now uuid b q = (resp, q') ∧ code resp = 200 ∧
       json_get "success" (body resp) = Some (JBool true) ∧
       json_get "operationId" (body resp) = Some (JStr uuid) ∧
       operations q' !! uuid = Some op ∧
       Some (imageUrl op) = b_imageUrl b ∧ Some (prompt op) = b_prompt b ∧
       options op = mkOptions (b_aspectRatio b) (b_duration b)).
Proof.
  intros Hexec Hnew.
  pose proof (exec_Inv _ _ Hexec) as [HInv Hdom]. pose proof HInv as [HS HC].
  pose proof (pendingCount_active q HS) as Hcount.
  assert (operations q !! uuid = None) as Hnone.
  { apply eq_None_not_Some. by intros ?%Hdom. }
  unfold veed_generate. split; [|split; [|split]].
  - by intros ->.
  - by intros -> ->.
  - intros -> -> Hfull. cbn [negb]. unfold enqueue.
    by rewrite bool_decide_true by (unfold maxQueueSize; lia).
  - intros Hi Hp Hroom. rewrite Hi, Hp. cbn [negb].
    destruct (b_imageUrl b) as [image|] eqn:Himg; [|done].
    destruct (b_prompt b) as [text|] eqn:Hprm; [|done]. cbn [default].
    set (opts := mkOptions (b_aspectRatio b) (b_duration b)).
    unfold enqueue. rewrite bool_decide_false by (unfold maxQueueSize; lia).
    pose proof (Inv_admit now q HInv uuid image text opts Hnone) as HS1.
    assert (∃ op, operations (processQueue now
                    (admit_operation now uuid image text opts q)) !! uuid = Some op ∧
                  imageUrl op = image ∧ prompt op = text ∧ options op = opts)
      as (op & Hop & <- & <- & Hopts).
    { destruct (processQueue_lookup now (admit_operation now uuid image text opts q)
                  _ uuid HS1) as [Heq|(o & Ho & _ & Heq)].
      - eexists. split; [rewrite Heq; cbn; apply lookup_insert_eq|done].
      - cbn in Ho. rewrite lookup_insert_eq in Ho. injection Ho as <-.
        eexists. split; [exact Heq|done]. }
    eexists _, _, op. split; [reflexivity|]. cbn [code body r_operationId].
    split; [done|]. split; [by json_lookup|]. split; [by json_lookup|]. done.
Qed.

Lemma veed_generate_responses_witness :
  ∃ tr q, play scenario_ready [] init = Some (tr, q) ∧
    (veed_generate 2 "B" (mkGenerateBody (Some "") (Some "zoom") None None) q).1 =
      mkResponse 400 (error_body "imageUrl is required") ∧
    (truthy (Some "") = false →
     veed_generate 2 "B" (mkGenerateBody (Some "") (Some "zoom") None None) q =
       (mkResponse 400 (error_body "imageUrl is required"), q)).
Proof.
  eexists _, _. split; [vm_compute; reflexivity|].
  split; [vm_compute; reflexivity|].
  refine (proj1 (veed_generate_responses _ _ 2 "B"
            (mkGenerateBody (Some "") (Some "zoom") None None)
            (play_exec scenario_ready [] init _ _ exec_init _) _)).
  - vm_compute; reflexivity.
  - apply not_elem_of_compute. vm_compute; reflexivity.
Defined.

(** GET /api/veed/status/:operationId in a reachable state: 404 exactly
    when the store has no record; otherwise 200 with the snapshot, and the
    keys videoUrl and cdnUrl are present exactly when the operation is
    Completed; videoUrl is then the local path of the result when it has
    a non-empty one and the remote URL otherwise, cdnUrl the remote
    URL. *)
Theorem veed_status_responses tr q opId :
  exec tr q →
  (operations q !! opId = None →
     veed_status opId q = mkResponse 404 (error_body "Operation not found")) ∧
  (∀ op, operations q !! opId = Some op →
     code (veed_status opId q) = 200 ∧
     json_get "success" (body (veed_status opId q)) = Some (JBool true) ∧
     json_get "status" (body (veed_status opId q)) =
       Some (JStr (status_string (status op))) ∧
     (is_Some (json_get "videoUrl" (body (veed_status opId q))) ↔
        status op = COMPLETED) ∧
     (is_Some (json_get "cdnUrl" (body (veed_status opId q))) ↔
        status op = COMPLETED) ∧
     (∀ r, status op = COMPLETED → result op = Some r →
        json_get "videoUrl" (body (veed_status opId q)) =
          Some (JStr (if truthy (localPath r) then default "" (localPath r)
                      else videoUrl r)) ∧
        json_get "cdnUrl" (body (veed_status opId q)) =
          Some (JStr (videoUrl r)))).
Proof.
  intros Hexec. destruct (exec_Inv _ _ Hexec) as [[HS HC] _].
  unfold veed_status, getStatus. split; [by intros ->|].
  intros op Hop. rewrite Hop. cbn [code body].
  destruct (store_wf _ _ _ HS _ _ Hop) as (_ & Hres & _).
  unfold video_fields. cbn [s_result s_status].
  split; [done|]. split; [done|]. split; [done|].
  destruct (result op) as [r|] eqn:Hr.
  - assert (status op = COMPLETED) as Hst by (apply Hres; by eexists).
    rewrite bool_decide_true by done. cbn.
    split; [split; [done|by eexists]|]. split; [split; [done|by eexists]|].
    intros r' _ [= <-]. done.
  - assert (status op ≠ COMPLETED) as Hst.
    { intros Hst. apply Hres in Hst as [? ?]. done. }
    cbn. split; [split; [by intros [? ?]|done]|].
    split; [split; [by intros [? ?]|done]|]. done.
Qed.

Lemma veed_status_responses_witness :
  ∃ tr q, play scenario_single [] init = Some (tr, q) ∧
    json_get "videoUrl" (body (veed_status "A" q)) =
      Some (JStr "https://cdn/v.mp4") ∧
    veed_status "Z" q = mkResponse 404 (error_body "Operation not found").
Proof.
  eexists _, _. split; [vm_compute; reflexivity|].
  split; [vm_compute; reflexivity|].
  refine (proj1 (veed_status_responses _ _ "Z"
            (play_exec scenario_single [] init _ _ exec_init _)) _).
  - vm_compute; reflexivity.
  - vm_compute; reflexivity.
Defined.

(** DELETE /api/veed/cancel/:operationId in a reachable state: an unknown
    identifier and an operation that is not Queued are both answered 400
    (with the message of cancel) and change nothing.  A Queued operation
    is answered 200; its status endpoint then reports failed with the
    error Cancelled by user, and a second cancel of it is answered 400. *)
Theorem veed_cancel_responses tr q now opId :
  exec tr q →
  (operations q !! opId = None →
     veed_cancel now opId q =
       (mkResponse 400 (error_body "Operation not found"), q)) ∧
  (∀ op, operations q !! opId = Some op → status op ≠ QUEUED →
     veed_cancel now opId q =
       (mkResponse 400
          (error_body ("Cannot cancel operation in " +:+
                       status_string (status op) +:+ " status")), q)) ∧
  (∀ op, operations q !! opId = Some op → status op = QUEUED →
     ∃ q', veed_cancel now opId q =
             (mkResponse 200
                (JObj [("success", JBool true);
                       ("message", JStr "Operation cancelled")]), q') ∧
           code (veed_status opId q') = 200 ∧
           json_get "status" (body (veed_status opId q')) = Some (JStr "failed") ∧
           json_get "error" (body (veed_status opId q')) =
             Some (JStr "Cancelled by user") ∧
           json_get "position" (body (veed_status opId q')) = Some JNull ∧
           ∀ now', veed_cancel now' opId q' =
             (mkResponse 400
                (error_body "Cannot cancel operation in failed status"), q')).
Proof.
  intros Hexec. destruct (exec_Inv _ _ Hexec) as [[HS HC] _].
  split; [|split].
  - unfold veed_cancel, cancel. by intros ->.
  - unfold veed_cancel, cancel. intros op -> Hst. by rewrite decide_False.
  - intros op Hop Hst.
    assert (∃ q', cancel now opId q = (mkCancelReply true None, q') ∧
                  operations q' !! opId =
                    Some (fail_with msg_cancelled now op)) as (q' & Hc & Hop').
    { unfold cancel. rewrite Hop, decide_True by done.
      eexists. split; [done|]. cbn. by rewrite lookup_alter_eq, Hop. }
    exists q'. unfold veed_cancel, veed_status, getStatus.
    rewrite Hc, Hop'. cbn [success code body].
    split; [done|]. split; [done|]. split; [by json_lookup|].
    split; [by json_lookup|]. split; [by json_lookup|].
    intros now'. unfold cancel. rewrite Hop'. by rewrite decide_False.
Qed.

Definition scenario_queued : list (Z * Event) :=
  [ (0, CallEnqueue "A" "a.png" "pan" no_options) ].

Lemma veed_cancel_responses_witness :
  ∃ tr q op, play scenario_queued [] init = Some (tr, q) ∧
    operations q !! "A" = Some op ∧
    ∃ q', veed_cancel 1 "A" q =
            (mkResponse 200
               (JObj [("success", JBool true);
                      ("message", JStr "Operation cancelled")]), q') ∧
          code (veed_status "A" q') = 200 ∧
          json_get "status" (body (veed_status "A" q')) = Some (JStr "failed") ∧
          json_get "error" (body (veed_status "A" q')) =
            Some (JStr "Cancelled by user") ∧
          json_get "position" (body (veed_status "A" q')) = Some JNull ∧
          ∀ now', veed_cancel now' "A" q' =
            (mkResponse 400
               (error_body "Cannot cancel operation in failed status"), q').
Proof.
  eexists _, _, _. split; [vm_compute; reflexivity|].
  split; [vm_compute; reflexivity|].
  refine (proj2 (proj2 (veed_cancel_responses _ _ 1 "A"
            (play_exec scenario_queued [] init _ _ exec_init _))) _ _ _).
  - vm_compute; reflexivity.
  - vm_compute; reflexivity.
  - vm_compute; reflexivity.
Defined.
